(** * The TS-image estimation engine of gammapy ([gammapy/detect/test_statistics.py])

    A shallow embedding of the per-pixel test-statistic estimator, of the
    multiscale driver and of the maximum-TS reduction, with the properties
    of the specification that can be checked against the code.

    Python floats are IEEE 754 binary64 numbers: they are modelled by the
    primitive floats of the kernel, whose operations are specified by
    [FloatAxioms] in terms of [SpecFloat].  numpy arrays of dimension two
    are lists of rows.  Routines of compiled or third-party modules that
    are not part of the sources (the Cython helpers of
    [_test_statistics_cython], scipy's root finders, the sky image
    classes) are parameters of the development. *)

From Stdlib Require Import ZArith List Lia Bool String Floats Sorted.
From stdpp Require Import base list.
Import ListNotations.

#[local] Set Warnings "-inexact-float".
#[local] Open Scope float_scope.

(* ===================================================================== *)
(** * IEEE 754 binary64 facts used by the development *)
(* ===================================================================== *)

Module IEEE.

(** Multiplying a mantissa by [2^52] appends 52 zero bits, which the
    rounding shift removes again without loss. *)
Lemma iter_xO_shr n : forall m,
  SpecFloat.iter_pos shr_1 n {| shr_m := Z.pos (Pos.iter xO m n); shr_r := false; shr_s := false |}
  = {| shr_m := Z.pos m; shr_r := false; shr_s := false |}.
Proof.
  induction n; intros m; cbn [SpecFloat.iter_pos Pos.iter shr_1 orb].
  - rewrite !IHn. reflexivity.
  - rewrite !IHn. reflexivity.
  - reflexivity.
Qed.

Lemma digits2_iter_xO n : forall m,
  Z.pos (digits2_pos (Pos.iter xO m n)) = (Z.pos (digits2_pos m) + Z.pos n)%Z.
Proof.
  induction n; intros m; cbn [Pos.iter digits2_pos]; rewrite ?Pos2Z.inj_succ, ?IHn; lia.
Qed.

Lemma pow52_mul m : (4503599627370496 * m)%positive = Pos.iter xO m 52.
Proof. reflexivity. Qed.

Lemma SFmul_one_finite s m e :
  bounded prec emax m e = true ->
  binary_round_aux prec emax s (Z.pos (4503599627370496 * m)) (-52 + e) loc_Exact
  = S754_finite s m e.
Proof.
  intros Hb. unfold bounded, canonical_mantissa in Hb.
  apply andb_prop in Hb. destruct Hb as [Hc He].
  apply Z.eqb_eq in Hc.
  rewrite pow52_mul.
  unfold binary_round_aux, shr_fexp. cbn [Zdigits2].
  rewrite digits2_iter_xO.
  replace (Z.pos (digits2_pos m) + 52 + (-52 + e))%Z with (Z.pos (digits2_pos m) + e)%Z by lia.
  rewrite Hc. replace (e - (-52 + e))%Z with 52%Z by lia.
  cbn [shr_record_of_loc shr]. rewrite iter_xO_shr.
  cbn [loc_of_shr_record shr_m round_nearest_even Zdigits2].
  replace (-52 + e + 52)%Z with e by lia.
  rewrite Hc, Z.sub_diag. cbn [shr shr_record_of_loc shr_m].
  rewrite He. reflexivity.
Qed.

(** [1.0 * y] is [y], bit for bit, for every binary64 value. *)
Lemma mul_one_l y : 1 * y = y.
Proof.
  apply Prim2SF_inj. rewrite FloatAxioms.mul_spec.
  pose proof (Prim2SF_valid y) as Hv.
  change (Prim2SF 1) with (S754_finite false 4503599627370496 (-52)).
  destruct (Prim2SF y) as [s|s| |s m e]; try reflexivity.
  apply (SFmul_one_finite s m e Hv).
Qed.

(** [-1.0 * y] is the negation of [y]. *)
Lemma mul_neg_one_l y : (-1) * y = - y.
Proof.
  apply Prim2SF_inj. rewrite FloatAxioms.mul_spec, FloatAxioms.opp_spec.
  pose proof (Prim2SF_valid y) as Hv.
  change (Prim2SF (-1)) with (S754_finite true 4503599627370496 (-52)).
  destruct (Prim2SF y) as [s|s| |s m e]; try reflexivity.
  apply (SFmul_one_finite (negb s) m e Hv).
Qed.

(** ** Not-a-number is absorbing *)

Ltac nan_absorb spec :=
  intros; apply Prim2SF_inj; rewrite spec;
  change (Prim2SF nan) with S754_nan;
  match goal with |- context [Prim2SF ?x] => destruct (Prim2SF x) end;
  reflexivity.

Lemma mul_nan_l x : nan * x = nan.
Proof. nan_absorb FloatAxioms.mul_spec. Qed.
Lemma mul_nan_r x : x * nan = nan.
Proof. nan_absorb FloatAxioms.mul_spec. Qed.
Lemma add_nan_l x : nan + x = nan.
Proof. nan_absorb FloatAxioms.add_spec. Qed.
Lemma add_nan_r x : x + nan = nan.
Proof. nan_absorb FloatAxioms.add_spec. Qed.
Lemma sub_nan_l x : nan - x = nan.
Proof. nan_absorb FloatAxioms.sub_spec. Qed.
Lemma sub_nan_r x : x - nan = nan.
Proof. nan_absorb FloatAxioms.sub_spec. Qed.
Lemma div_nan_l x : nan / x = nan.
Proof. nan_absorb FloatAxioms.div_spec. Qed.
Lemma div_nan_r x : x / nan = nan.
Proof. nan_absorb FloatAxioms.div_spec. Qed.

Lemma ltb_nan_l x : (nan <? x) = false.
Proof. rewrite FloatAxioms.ltb_spec. reflexivity. Qed.
Lemma ltb_nan_r x : (x <? nan) = false.
Proof. rewrite FloatAxioms.ltb_spec. change (Prim2SF nan) with S754_nan. destruct (Prim2SF x); reflexivity. Qed.
Lemma eqb_nan_l x : (nan =? x) = false.
Proof. rewrite FloatAxioms.eqb_spec. reflexivity. Qed.
Lemma eqb_nan_r x : (x =? nan) = false.
Proof. rewrite FloatAxioms.eqb_spec. change (Prim2SF nan) with S754_nan. destruct (Prim2SF x); reflexivity. Qed.
Lemma leb_nan_l x : (nan <=? x) = false.
Proof. rewrite FloatAxioms.leb_spec. reflexivity. Qed.
Lemma leb_nan_r x : (x <=? nan) = false.
Proof. rewrite FloatAxioms.leb_spec. change (Prim2SF nan) with S754_nan. destruct (Prim2SF x); reflexivity. Qed.

(** ** The five kinds of binary64 values with respect to zero *)

Lemma of_SF x sf : Prim2SF x = sf -> x = SF2Prim sf.
Proof. intros <-. symmetry. apply SF2Prim_Prim2SF. Qed.

Lemma float_cases x :
  x = nan \/ x = 0 \/ x = (-0) \/ (0 <? x) = true \/ (x <? 0) = true.
Proof.
  destruct (Prim2SF x) as [s|s| |s m e] eqn:E.
  - apply of_SF in E. destruct s; subst x; [right; right; left | right; left]; reflexivity.
  - destruct s; [do 4 right | do 3 right; left]; rewrite FloatAxioms.ltb_spec, E; reflexivity.
  - left. apply of_SF in E. subst x. reflexivity.
  - destruct s; [do 4 right | do 3 right; left]; rewrite FloatAxioms.ltb_spec, E; reflexivity.
Qed.

Lemma abs_of_pos x : (0 <? x) = true -> abs x = x.
Proof.
  intros H. apply Prim2SF_inj. rewrite FloatAxioms.abs_spec. rewrite FloatAxioms.ltb_spec in H.
  change (Prim2SF 0) with (S754_zero false) in H.
  destruct (Prim2SF x) as [s|s| |s m e]; try destruct s; try discriminate H; reflexivity.
Qed.

Lemma abs_of_neg x : (x <? 0) = true -> abs x = - x.
Proof.
  intros H. apply Prim2SF_inj. rewrite FloatAxioms.abs_spec, FloatAxioms.opp_spec. rewrite FloatAxioms.ltb_spec in H.
  change (Prim2SF 0) with (S754_zero false) in H.
  destruct (Prim2SF x) as [s|s| |s m e]; try destruct s; try discriminate H; reflexivity.
Qed.

Lemma ltb_asym x : (0 <? x) = true -> (x <? 0) = false.
Proof.
  rewrite !FloatAxioms.ltb_spec. change (Prim2SF 0) with (S754_zero false).
  destruct (Prim2SF x) as [s|s| |s m e]; try destruct s; intros H; try discriminate H; reflexivity.
Qed.

Lemma ltb_asym' x : (x <? 0) = true -> (0 <? x) = false.
Proof.
  destruct (0 <? x) eqn:E; [|reflexivity]. apply ltb_asym in E. congruence.
Qed.

Lemma eqb_zero_not_pos x : (x =? 0) = true -> (0 <? x) = false.
Proof.
  rewrite FloatAxioms.eqb_spec, FloatAxioms.ltb_spec.
  change (Prim2SF 0) with (S754_zero false).
  destruct (Prim2SF x) as [s|s| |s m e]; try destruct s; intros H;
    try discriminate H; reflexivity.
Qed.

Lemma SFmul_one_finite_r s m e :
  bounded prec emax m e = true ->
  binary_round_aux prec emax s (Z.pos (m * 4503599627370496)) (e + -52) loc_Exact
  = S754_finite s m e.
Proof.
  intros H. rewrite Pos.mul_comm, Z.add_comm. apply SFmul_one_finite. exact H.
Qed.

Lemma mul_one_r y : y * 1 = y.
Proof.
  apply Prim2SF_inj. rewrite FloatAxioms.mul_spec.
  pose proof (Prim2SF_valid y) as Hv.
  change (Prim2SF 1) with (S754_finite false 4503599627370496 (-52)).
  destruct (Prim2SF y) as [s|s| |s m e]; try (destruct s; reflexivity); try reflexivity.
  unfold SF64mul, SFmul. rewrite xorb_false_r. apply (SFmul_one_finite_r s m e Hv).
Qed.

Lemma mul_neg_one_r y : y * (-1) = - y.
Proof.
  apply Prim2SF_inj. rewrite FloatAxioms.mul_spec, FloatAxioms.opp_spec.
  pose proof (Prim2SF_valid y) as Hv.
  change (Prim2SF (-1)) with (S754_finite true 4503599627370496 (-52)).
  destruct (Prim2SF y) as [s|s| |s m e]; try (destruct s; reflexivity); try reflexivity.
  unfold SF64mul, SFmul, SFopp. rewrite xorb_true_r. apply (SFmul_one_finite_r (negb s) m e Hv).
Qed.

Lemma opp_neg_of_pos g : (0 <? g) = true -> (- g <? 0) = true /\ (0 <? - g) = false.
Proof.
  rewrite !FloatAxioms.ltb_spec, FloatAxioms.opp_spec.
  change (Prim2SF 0) with (S754_zero false).
  destruct (Prim2SF g) as [s|s| |s m e]; try destruct s; intros H;
    try discriminate H; split; reflexivity.
Qed.

(** A positive number times either zero is not below and not above zero
    (it is a zero, or not a number when the factor is infinite). *)
Lemma mul_zero_of_pos g z :
  (0 <? g) = true -> z = 0 \/ z = (-0) ->
  (g * z <? 0) = false /\ (0 <? g * z) = false.
Proof.
  intros H Hz. rewrite !FloatAxioms.ltb_spec, FloatAxioms.mul_spec.
  rewrite FloatAxioms.ltb_spec in H.
  change (Prim2SF 0) with (S754_zero false) in *.
  destruct Hz as [-> | ->];
    [change (Prim2SF 0) with (S754_zero false) | change (Prim2SF (-0)) with (S754_zero true)];
    destruct (Prim2SF g) as [s|s| |s m e]; try destruct s; try discriminate H;
    split; reflexivity.
Qed.

End IEEE.

(* ===================================================================== *)
(** * Python: exceptions, results, ranges and slices *)
(* ===================================================================== *)

(** The exceptions the module can raise.  [Stuck] is not a Python
    exception: it marks a state no Python execution reaches (a reference
    to an array that was never allocated). *)
Inductive exn : Type :=
  | NameError (name : string)
  | KeyError (name : string)
  | TypeError
  | ValueError
  | IndexError
  | AssertionError
  | RuntimeError
  | ZeroDivisionError
  | Stuck.

Inductive result (A : Type) : Type :=
  | Ok (a : A)
  | Raise (e : exn).
Arguments Ok {A} a.
Arguments Raise {A} e.

#[global] Instance result_ret : MRet result := fun A a => Ok a.
#[global] Instance result_bind : MBind result := fun A B f m =>
  match m with Ok a => f a | Raise e => Raise e end.

Definition is_ok {A} (r : result A) : bool :=
  match r with Ok _ => true | Raise _ => false end.

(** [mapM] in the order of the list: the first exception wins. *)
Fixpoint mapR {A B} (f : A -> result B) (l : list A) : result (list B) :=
  match l with
  | [] => Ok []
  | x :: r => y ← f x; ys ← mapR f r; Ok (y :: ys)
  end.

(** [range(lo, hi)] *)
Definition py_range (lo hi : Z) : list Z :=
  map (fun k => (lo + Z.of_nat k)%Z) (seq 0 (Z.to_nat (hi - lo))).

(** [itertools.product(a, b)]: the last factor varies fastest. *)
Definition product {A B} (a : list A) (b : list B) : list (A * B) :=
  list_prod a b.

(** An index of a slice, brought into [0, n]: a negative index counts
    from the end, and what lies outside is clipped. *)
Definition slice_index (n : nat) (i : Z) : nat :=
  if (i <? 0)%Z then Z.to_nat (Z.max (i + Z.of_nat n) 0)
  else Z.to_nat (Z.min i (Z.of_nat n)).

(** [l[lo:hi]] *)
Definition py_slice {A} (lo hi : Z) (l : list A) : list A :=
  let s := slice_index (length l) lo in
  let e := slice_index (length l) hi in
  take (e - s) (drop s l).

(** [x // 2] on integers. *)
Definition floordiv2 (x : Z) : Z := (x / 2)%Z.

(* ===================================================================== *)
(** * numpy: two-dimensional arrays *)
(* ===================================================================== *)

(** A two-dimensional array is the list of its rows.  numpy arrays are
    rectangular ([rect]); an array with no row is taken to have no column. *)
Abbreviation array2 A := (list (list A)).
Abbreviation ndarray := (list (list float)).

Definition nrows {A} (a : array2 A) : nat := length a.
Definition ncols {A} (a : array2 A) : nat :=
  match a with [] => 0 | r :: _ => length r end.

Definition rect {A} (h w : nat) (a : array2 A) : Prop :=
  length a = h /\ Forall (fun r => length r = w) a.

Definition same_shape {A B} (a : array2 A) (b : array2 B) : bool :=
  (nrows a =? nrows b)%nat && (ncols a =? ncols b)%nat.

(** [a[j][i]], for indices within the shape. *)
Definition get2 {A} (a : array2 A) (j i : nat) : option A :=
  r ← a !! j; r !! i.

(** [a[j, i] = v] for one index pair within the shape. *)
Definition set2 {A} (a : array2 A) (j i : nat) (v : A) : array2 A :=
  match a !! j with
  | Some r => <[j := <[i := v]> r]> a
  | None => a
  end.

(** [np.full(shape, v)] *)
Definition np_full {A} (h w : nat) (v : A) : array2 A :=
  replicate h (replicate w v).

(** An operation applied to every element ([a > 0], [x * a], [np.sqrt(a)]). *)
Definition np_map {A B} (f : A -> B) (a : array2 A) : array2 B :=
  map (map f) a.

(** Broadcasting of one axis: equal lengths, or one of them is 1. *)
Definition bdim (n m : nat) : option nat :=
  if (n =? m)%nat then Some n
  else if (n =? 1)%nat then Some m
  else if (m =? 1)%nat then Some n
  else None.

Definition expand_list {A} (n : nat) (l : list A) : list A :=
  match l with
  | [x] => replicate n x
  | _ => l
  end.

Definition expand {A} (h w : nat) (a : array2 A) : array2 A :=
  map (expand_list w) (expand_list h a).

(** A binary operation on two arrays, with numpy's broadcasting: a
    [ValueError] when the shapes cannot be broadcast together. *)
Definition np_binop {A B C} (f : A -> B -> C) (a : array2 A) (b : array2 B)
  : result (array2 C) :=
  match bdim (nrows a) (nrows b), bdim (ncols a) (ncols b) with
  | Some h, Some w => Ok (zip_with (zip_with f) (expand h w a) (expand h w b))
  | _, _ => Raise ValueError
  end.

(** [a.sum()].  numpy adds the elements pairwise in blocks; the fold below
    adds them in row-major order.  The two agree up to rounding, and
    exactly on whether a not-a-number takes part. *)
Definition np_sum (a : ndarray) : float :=
  fold_left add (concat a) 0.

(** [a.any()] *)
Definition np_any (a : array2 bool) : bool :=
  existsb (existsb id) a.

(** [np.sign]: [1] above zero, [-1] below, [0] at either zero, and
    not-a-number unchanged. *)
Definition np_sign (x : float) : float :=
  if 0 <? x then 1
  else if x <? 0 then -1
  else if x =? 0 then 0
  else x.

(** [np.where(c, x, y)] on one element. *)
Definition np_where {A} (c : bool) (x y : A) : A := if c then x else y.

(** [a[mask] = v]: an [IndexError] when the mask has not the array's shape. *)
Definition mask_assign {A} (a : array2 A) (mask : array2 bool) (v : A)
  : result (array2 A) :=
  if same_shape mask a
  then Ok (zip_with (zip_with (fun (m : bool) x => if m then v else x)) mask a)
  else Raise IndexError.

(** [array[y_lo:y_hi, x_lo:x_hi]] *)
Definition slice2 {A} (y_lo y_hi x_lo x_hi : Z) (a : array2 A) : array2 A :=
  map (py_slice x_lo x_hi) (py_slice y_lo y_hi a).

(** The binary64 value of a Python integer. *)
Definition float_of_int (n : Z) : float :=
  SF2Prim (binary_normalize prec emax n 0 false).

(** [astype('float32')]: rounding to binary32 (24 bits, exponents up to
    128), the result held as the binary64 number of the same value. *)
Definition astype_float32 (x : float) : float :=
  match Prim2SF x with
  | S754_finite s m e => SF2Prim (binary_round 24 128 s m e)
  | _ => x
  end.

(** [a[j, i]] for integer indices: a negative index counts from the end,
    and an index outside the axis raises [IndexError]. *)
Definition axis_index (n : nat) (k : Z) : result nat :=
  let k' := if (k <? 0)%Z then (k + Z.of_nat n)%Z else k in
  if ((0 <=? k') && (k' <? Z.of_nat n))%Z then Ok (Z.to_nat k') else Raise IndexError.

Definition np_getitem {A} (a : array2 A) (p : Z * Z) : result A :=
  j ← axis_index (nrows a) (fst p);
  i ← axis_index (ncols a) (snd p);
  match get2 a j i with Some v => Ok v | None => Raise IndexError end.

(** Python's [max(a, b)]: [b] when [b > a], otherwise [a]. *)
Definition py_max (a b : float) : float := if a <? b then b else a.

(** Python's [/] on floats raises on a zero divisor. *)
Definition py_div (x y : float) : result float :=
  if y =? 0 then Raise ZeroDivisionError else Ok (x / y).

(* ===================================================================== *)
(** * The module [gammapy.detect.test_statistics] *)
(* ===================================================================== *)

Definition FLUX_FACTOR : float := 1e-12.
Definition MAX_NITER : Z := 20.
Definition CONTAINMENT : float := 0.8.

(** ** External routines

    What a root finder of [scipy.optimize] hands back: the root and the
    number of iterations, or the exception it raised. *)
Inductive solver_outcome : Type :=
  | Converged (root : float) (iterations : Z)
  | Failed (e : exn).

(** The routines the module calls that are not part of the sources: the
    Cython helpers of [_test_statistics_cython], scipy's [brentq] and
    [newton] (secant variant: no derivative is passed) and
    [scipy.signal.fftconvolve] with [mode='same'].  A function argument
    of a root finder may itself raise. *)
Record externals : Type := {
  _cash_cython : ndarray -> ndarray -> ndarray;
  _cash_sum_cython : ndarray -> ndarray -> float;
  _amplitude_bounds_cython : ndarray -> ndarray -> ndarray -> float * float * float;
  _f_cash_root_cython : float -> ndarray -> ndarray -> ndarray -> float;
  _x_best_leastsq : ndarray -> ndarray -> ndarray -> ndarray -> float;
  (* brentq(f, a, b, maxiter=, rtol=) *)
  brentq : (float -> result float) -> float -> float -> Z -> float -> solver_outcome;
  (* newton(f, x0, maxiter=, tol=) *)
  newton : (float -> result float) -> float -> Z -> float -> solver_outcome;
  fftconvolve : ndarray -> ndarray -> ndarray
}.

(** A source model kernel ([astropy.convolution.Kernel2D]): its array. *)
Record Kernel2D : Type := { kernel_array : ndarray }.

Definition kernel_shape (k : Kernel2D) : Z * Z :=
  (Z.of_nat (nrows (kernel_array k)), Z.of_nat (ncols (kernel_array k))).

(** ** [_extract_array]

    Both half widths are taken from [shape[0]]. *)
Definition _extract_array {A} (array : array2 A) (shape : Z * Z) (position : Z * Z)
  : array2 A :=
  let x_width := floordiv2 (fst shape) in
  let y_width := floordiv2 (fst shape) in
  let y_lo := (fst position - y_width)%Z in
  let y_hi := (fst position + y_width + 1)%Z in
  let x_lo := (snd position - x_width)%Z in
  let x_hi := (snd position + x_width + 1)%Z in
  slice2 y_lo y_hi x_lo x_hi array.

Section Solver.

Variable ext : externals.

(** ** [f_cash]: the Cash statistic of [background + x * FLUX_FACTOR * model] *)
Definition f_cash (x : float) (counts background model : ndarray) : result float :=
  m ← np_binop add background (np_map (mul (x * FLUX_FACTOR)) model);
  Ok (_cash_sum_cython ext counts m).

(** ** [_leastsq_iter_amplitude] *)

(** The loop [for i in range(maxiter)], from iteration [i] on, with [n]
    iterations left; [x] is the last estimate, if there was one. *)
Fixpoint leastsq_loop (counts background model : ndarray) (rtol amplitude_min_total : float)
    (n : nat) (i : Z) (weights : ndarray) (x_old : float) (x : option float)
  : result (float * Z) :=
  match n with
  | O =>
      match x with
      | Some x => Ok (py_max (x / FLUX_FACTOR) amplitude_min_total, MAX_NITER)
      | None => Raise (NameError "x")
      end
  | S n' =>
      let x := _x_best_leastsq ext counts background model weights in
      q ← py_div (x - x_old) x;
      if abs q <? rtol
      then Ok (py_max (x / FLUX_FACTOR) amplitude_min_total, (i + 1)%Z)
      else
        weights ← np_binop add (np_map (mul x) model) background;
        leastsq_loop counts background model rtol amplitude_min_total
                     n' (i + 1)%Z weights x (Some x)
  end.

Definition _leastsq_iter_amplitude (counts background model : ndarray)
    (maxiter : Z) (rtol : float) : result (float * Z) :=
  let '(amplitude_min, amplitude_max, amplitude_min_total) :=
    _amplitude_bounds_cython ext counts background model in
  if negb (0 <? np_sum counts)
  then Ok (amplitude_min_total, 0%Z)
  else
    let weights := np_full (nrows model) (ncols model) 1 in
    leastsq_loop counts background model rtol amplitude_min_total
                 (Z.to_nat maxiter) 0%Z weights 0 None.

(** ** [_compute_amplitude_err]: inverse second derivative *)
Definition _compute_amplitude_err (x : float) (counts background model : ndarray)
  : result float :=
  num ← np_binop mul (np_map (fun m => m * m) model) counts;
  den ← np_binop add background (np_map (mul (x * FLUX_FACTOR)) model);
  stat ← np_binop div num (np_map (fun d => d * d) den);
  Ok (sqrt (1 / np_sum stat)).

(** ** [_compute_amplitude_err_profile]: likelihood profile *)
Definition _compute_amplitude_err_profile (amplitude : float)
    (counts background model : ndarray) (c_1 : float) : result float :=
  let ts_diff := fun x => c ← f_cash x counts background model; Ok ((c_1 + 1) - c) in
  let amplitude_max := amplitude + 1e4 in
  match brentq ext ts_diff amplitude amplitude_max MAX_NITER 1e-3 with
  | Converged result _ => Ok (result - amplitude)
  | Failed RuntimeError | Failed ValueError => Ok nan
  | Failed e => Raise e
  end.

(** ** [_root_amplitude]: Newton iteration from the seed [flux] *)
Definition _root_amplitude (counts background model : ndarray) (flux : float)
  : result (float * Z) :=
  let f := fun x => Ok (_f_cash_root_cython ext x counts background model) in
  match newton ext f flux MAX_NITER 1e-2 with
  | Converged root _ => Ok (root, 0%Z)
  | Failed RuntimeError => Ok (nan, MAX_NITER)
  | Failed e => Raise e
  end.

(** ** [_root_amplitude_brentq]: Brent's method within the bounds *)
Definition _root_amplitude_brentq (counts background model : ndarray)
  : result (float * Z) :=
  let '(amplitude_min, amplitude_max, amplitude_min_total) :=
    _amplitude_bounds_cython ext counts background model in
  if negb (0 <? np_sum counts)
  then Ok (amplitude_min_total, 0%Z)
  else
    let f := fun x => Ok (_f_cash_root_cython ext x counts background model) in
    match brentq ext f amplitude_min amplitude_max MAX_NITER 1e-3 with
    | Converged root iterations => Ok (py_max root amplitude_min_total, iterations)
    | Failed RuntimeError | Failed ValueError => Ok (nan, MAX_NITER)
    | Failed e => Raise e
    end.

End Solver.

(** ** [_ts_value]: the fit at one pixel *)

(** The dictionary built at the end of [_ts_value]. *)
Record ts_dict : Type := {
  d_ts : float;
  d_flux : float;
  d_niter : Z;
  d_flux_err : float;
  d_flux_err_profile : float
}.

(** What [_ts_value] returns: that dictionary, or, from the threshold
    branch, the tuple [(c_0 - c_1, flux[position] * FLUX_FACTOR, 0)]. *)
Inductive ts_return : Type :=
  | TsDict (d : ts_dict)
  | TsTuple (gap flux : float) (niter : Z).

(** [r[name]] for a string [name]: a tuple cannot be indexed by a string.
    The value is the one stored into a float image. *)
Definition ts_getitem (name : string) (r : ts_return) : result float :=
  match r with
  | TsTuple _ _ _ => Raise TypeError
  | TsDict d =>
      if String.eqb name "ts" then Ok (d_ts d)
      else if String.eqb name "flux" then Ok (d_flux d)
      else if String.eqb name "niter" then Ok (float_of_int (d_niter d))
      else if String.eqb name "flux_err" then Ok (d_flux_err d)
      else if String.eqb name "flux_err_profile" then Ok (d_flux_err_profile d)
      else Raise (KeyError name)
  end.

(** [flux[position]], where [flux] may be [None]. *)
Definition flux_at (flux : option ndarray) (position : Z * Z) : result float :=
  match flux with
  | None => Raise TypeError
  | Some a => np_getitem a position
  end.

Section Pixel.

Variable ext : externals.

(** The method dispatch of [_ts_value]. *)
Definition fit_amplitude (method : string) (counts_ background_ model : ndarray)
    (flux : option ndarray) (position : Z * Z) : result (float * Z) :=
  if String.eqb method "root brentq" then
    _root_amplitude_brentq ext counts_ background_ model
  else if String.eqb method "root newton" then
    seed ← flux_at flux position;
    _root_amplitude ext counts_ background_ model seed
  else if String.eqb method "leastsq iter" then
    _leastsq_iter_amplitude ext counts_ background_ model MAX_NITER 0.001
  else Raise ValueError.

(** The part of [_ts_value] after the threshold test. *)
Definition ts_fit (method : string) (counts_ background_ model : ndarray)
    (c_0 : float) (flux : option ndarray) (position : Z * Z) : result ts_return :=
  '(amplitude, niter) ← fit_amplitude method counts_ background_ model flux position;
  c_1 ← f_cash ext amplitude counts_ background_ model;
  flux_err ← _compute_amplitude_err amplitude counts_ background_ model;
  err_profile ← _compute_amplitude_err_profile ext amplitude counts_ background_ model c_1;
  Ok (TsDict {| d_ts := (c_0 - c_1) * np_sign amplitude;
                d_flux := amplitude * FLUX_FACTOR;
                d_niter := niter;
                d_flux_err := flux_err;
                d_flux_err_profile := FLUX_FACTOR * err_profile |}).

Definition _ts_value (position : Z * Z) (counts exposure background c_0_image : ndarray)
    (kernel : Kernel2D) (flux : option ndarray) (method : string)
    (threshold : option float) : result ts_return :=
  let counts_ := _extract_array counts (kernel_shape kernel) position in
  let background_ := _extract_array background (kernel_shape kernel) position in
  let exposure_ := _extract_array exposure (kernel_shape kernel) position in
  let c_0_ := _extract_array c_0_image (kernel_shape kernel) position in
  model ← np_binop mul exposure_ (kernel_array kernel);
  let c_0 := np_sum c_0_ in
  match threshold with
  | Some threshold =>
      seed ← flux_at flux position;
      c_1 ← f_cash ext seed counts_ background_ model;
      if c_0 - c_1 <? threshold
      then
        seed' ← flux_at flux position;
        Ok (TsTuple (c_0 - c_1) (seed' * FLUX_FACTOR) 0%Z)
      else ts_fit method counts_ background_ model c_0 flux position
  | None => ts_fit method counts_ background_ model c_0 flux position
  end.

End Pixel.

(* ===================================================================== *)
(** * Arrays as shared objects *)
(* ===================================================================== *)

(** numpy arrays are mutable objects that several names can refer to.  An
    array lives in a store at a location; a new array gets the next free
    location.  The state also holds the warnings written to the log. *)
Definition loc := nat.

Record state : Type := {
  heap : list ndarray;
  warnings : list string
}.

Definition M (A : Type) : Type := state -> result A * state.

#[global] Instance M_ret : MRet M := fun A a s => (Ok a, s).
#[global] Instance M_bind : MBind M := fun A B f m s =>
  match m s with
  | (Ok a, s') => f a s'
  | (Raise e, s') => (Raise e, s')
  end.

Definition lift {A} (r : result A) : M A := fun s => (r, s).

Definition alloc (a : ndarray) : M loc := fun s =>
  (Ok (length (heap s)), {| heap := heap s ++ [a]; warnings := warnings s |}).

Definition load (l : loc) : M ndarray := fun s =>
  match heap s !! l with
  | Some a => (Ok a, s)
  | None => (Raise Stuck, s)
  end.

Definition store (l : loc) (a : ndarray) : M unit := fun s =>
  match heap s !! l with
  | Some _ => (Ok tt, {| heap := <[l := a]> (heap s); warnings := warnings s |})
  | None => (Raise Stuck, s)
  end.

Definition log_warning (msg : string) : M unit := fun s =>
  (Ok tt, {| heap := heap s; warnings := warnings s ++ [msg] |}).

(** A loop over a list, threading an accumulator. *)
Fixpoint foldM {A B} (f : B -> A -> M B) (l : list A) (b : B) : M B :=
  match l with
  | [] => mret b
  | x :: r => b' ← f b x; foldM f r b'
  end.

(* ===================================================================== *)
(** * Sky images *)
(* ===================================================================== *)

(** Modelled from the spec: the classes [SkyImage] and [SkyImageList] of
    [gammapy.image] are not part of the sources.  An image carries its
    data array and the pixel scale of its projection; an image list is an
    ordered mapping from names to images with metadata.  Asking for a name
    that is not there raises [KeyError], and [check_required] fails when a
    required name is missing. *)
Record SkyImage : Type := {
  sky_data : loc;
  sky_cdelt : float
}.

Inductive meta_value : Type :=
  | MetaFloat (x : float)
  | MetaString (s : string).

Record SkyImageList : Type := {
  sky_images : list (string * SkyImage);
  sky_meta : list (string * meta_value)
}.

Definition empty_list : SkyImageList := {| sky_images := []; sky_meta := [] |}.

Fixpoint assoc {V} (name : string) (l : list (string * V)) : option V :=
  match l with
  | [] => None
  | (k, v) :: r => if String.eqb k name then Some v else assoc name r
  end.

(** Replaces the entry of [name], or appends one. *)
Fixpoint assoc_set {V} (name : string) (v : V) (l : list (string * V)) : list (string * V) :=
  match l with
  | [] => [(name, v)]
  | (k, w) :: r => if String.eqb k name then (k, v) :: r else (k, w) :: assoc_set name v r
  end.

(** [images[name]] *)
Definition getitem (images : SkyImageList) (name : string) : result SkyImage :=
  match assoc name (sky_images images) with
  | Some img => Ok img
  | None => Raise (KeyError name)
  end.

(** [images[name] = img] *)
Definition setitem (images : SkyImageList) (name : string) (img : SkyImage) : SkyImageList :=
  {| sky_images := assoc_set name img (sky_images images); sky_meta := sky_meta images |}.

(** [images.names] *)
Definition names (images : SkyImageList) : list string := map fst (sky_images images).

(** [images.check_required(names)] *)
Fixpoint check_required (images : SkyImageList) (required : list string) : result unit :=
  match required with
  | [] => Ok tt
  | n :: r => _ ← getitem images n; check_required images r
  end.

(** [SkyImage.empty_like(image, fill=v)]: a new array of the same shape. *)
Definition empty_like (image : SkyImage) (fill : float) : M SkyImage :=
  a ← load (sky_data image);
  l ← alloc (np_full (nrows a) (ncols a) fill);
  mret {| sky_data := l; sky_cdelt := sky_cdelt image |}.

(** [image.data.astype(float)]: always a copy. *)
Definition astype_float (image : SkyImage) : M loc :=
  a ← load (sky_data image);
  alloc a.

(* ===================================================================== *)
(** * Names *)
(* ===================================================================== *)

(** The names bound at the top of the module: its imports, constants,
    functions and the class. *)
Definition module_scope : list string :=
  [ "absolute_import"; "division"; "print_function"; "unicode_literals";
    "logging"; "time"; "warnings"; "OrderedDict"; "product"; "partial";
    "Pool"; "cpu_count"; "np";
    "Model2DKernel"; "Gaussian2DKernel"; "CustomKernel"; "Kernel2D";
    "_round_up_to_odd_integer"; "fits"; "shape_2N"; "symmetric_crop_pad_width";
    "multi_gauss_psf_kernel"; "measure_containment_radius"; "SkyImageList";
    "SkyImage"; "Shell2D";
    "_cash_cython"; "_amplitude_bounds_cython"; "_cash_sum_cython";
    "_f_cash_root_cython"; "_x_best_leastsq";
    "__all__"; "log"; "FLUX_FACTOR"; "MAX_NITER"; "CONTAINMENT";
    "_extract_array"; "f_cash"; "TSImageEstimator";
    "compute_ts_image_multiscale"; "compute_maximum_ts_image"; "_ts_value";
    "_leastsq_iter_amplitude"; "_compute_amplitude_err";
    "_compute_amplitude_err_profile"; "_root_amplitude";
    "_root_amplitude_brentq"; "_flux_correlation_radius" ]%string.

Definition bound_in_module (name : string) : bool :=
  existsb (String.eqb name) module_scope.

(** Reading a name inside a function whose local variables of the type at
    hand are [locals]: a name that is neither local nor bound in the module
    (nor a builtin, which none of the names read this way is) raises
    [NameError]; a module-level name is not a value of that type. *)
Definition read_name {V} (locals : list (string * V)) (name : string) : result V :=
  match assoc name locals with
  | Some v => Ok v
  | None => if bound_in_module name then Raise TypeError else Raise (NameError name)
  end.

(* ===================================================================== *)
(** * The class [TSImageEstimator] *)
(* ===================================================================== *)

Inductive py_version : Type := Python2 | Python3.

(** [self.kernel] and [self.parameters]; [downsample] is ['auto'] ([None]
    here) or an integer. *)
Record TSImageEstimator : Type := {
  kernel : Kernel2D;
  downsample : option Z;
  method : string;
  parallel : bool;
  threshold : option float
}.

Definition valid_methods : list string :=
  ["root brentq"; "root newton"; "leastsq iter"]%string.

(** What the constructor is given as [kernel]: a [Kernel2D], or an array. *)
Inductive kernel_argument : Type :=
  | KernelObject (k : Kernel2D)
  | KernelArray (a : ndarray).

(** [__init__].  An argument that is not a [Kernel2D] is first wrapped by
    astropy's [CustomKernel], which is not part of the sources and may
    raise (it refuses an array with an axis of even length); the method is
    checked after that. *)
Definition TSImageEstimator_init (CustomKernel : ndarray -> result Kernel2D)
    (kernel : kernel_argument) (downsample : option Z)
    (method : string) (parallel : bool) (threshold : option float)
  : result TSImageEstimator :=
  kernel ← match kernel with
           | KernelObject k => Ok k
           | KernelArray a => CustomKernel a
           end;
  if existsb (String.eqb method) valid_methods
  then Ok {| kernel := kernel; downsample := downsample; method := method;
             parallel := parallel; threshold := threshold |}
  else Raise ValueError.

Definition is_finite_float (x : float) : bool := PrimFloat.is_finite x.

Section Estimator.

Variable ext : externals.

(** ** [_estimate_flux]

    The body reads [counts], [background], [exposure] and [kernel]; the
    function has the parameters [self] and [images] and the local name
    [fftconvolve], none of which is an array or a kernel. *)
Definition _estimate_flux (self : TSImageEstimator) (images : SkyImageList)
  : result ndarray :=
  let arrays : list (string * ndarray) := [] in
  let kernels : list (string * Kernel2D) := [] in
  counts ← read_name arrays "counts";
  background ← read_name arrays "background";
  d ← np_binop sub counts background;
  exposure ← read_name arrays "exposure";
  q ← np_binop div d exposure;
  let flux := np_map (fun x => x / FLUX_FACTOR) q in
  let flux := np_map (fun x => if is_finite_float x then x else 0) flux in
  kernel ← read_name kernels "kernel";
  let conv := fftconvolve ext flux (kernel_array kernel) in
  kernel' ← read_name kernels "kernel";
  let norm := np_sum (np_map (fun k => k * k) (kernel_array kernel')) in
  Ok (np_map (fun x => x / norm) conv).

(** ** [_get_mask]: works on the array object it is given *)
Definition mask_warning : string :=
  "There are pixels in the data, that have exposure, but zero background, which can cause the ts computation to fail. Setting exposure of this pixels to zero.".

Definition _get_mask (exposure background : loc) : M (array2 bool) :=
  b ← load background;
  e ← load exposure;
  mask_ ← lift (np_binop andb (np_map (fun x => x =? 0) b) (np_map (fun x => 0 <? x) e));
  _ ← (if np_any mask_
       then
         _ ← log_warning mask_warning;
         e' ← lift (mask_assign e mask_ 0);
         store exposure e'
       else mret tt);
  e ← load exposure;
  mret (np_map (fun x => 0 <? x) e).

(** ** [_get_positions] *)

(** [mask[j][i]] as a condition, for indices that are not negative. *)
Definition mask_at (mask : array2 bool) (p : Z * Z) : bool :=
  match get2 mask (Z.to_nat (fst p)) (Z.to_nat (snd p)) with
  | Some true => true
  | _ => false
  end.

Definition _get_positions (self : TSImageEstimator) (mask : array2 bool) : list (Z * Z) :=
  let kernel_shape := kernel_shape (kernel self) in
  let x_min := floordiv2 (snd kernel_shape) in
  let x_max := (Z.of_nat (ncols mask) - floordiv2 (snd kernel_shape))%Z in
  let y_min := floordiv2 (fst kernel_shape) in
  let y_max := (Z.of_nat (nrows mask) - floordiv2 (fst kernel_shape))%Z in
  let positions := product (py_range y_min y_max) (py_range x_min x_max) in
  List.filter (mask_at mask) positions.

(** ** [_parse_image_data]: copies of the three arrays, as floats *)
Definition shape_eq (a b : ndarray) : bool := same_shape a b.

Definition _parse_image_data (images : SkyImageList) : M (loc * loc * loc) :=
  img ← lift (getitem images "counts");
  counts ← astype_float img;
  img ← lift (getitem images "background");
  background ← astype_float img;
  img ← lift (getitem images "exposure");
  exposure ← astype_float img;
  c ← load counts;
  b ← load background;
  e ← load exposure;
  if negb (shape_eq c b) then lift (Raise AssertionError)
  else if negb (shape_eq c e) then lift (Raise AssertionError)
  else mret (counts, exposure, background).

(** ** [run] *)

Definition all_images : list string :=
  ["ts"; "sqrt_ts"; "flux"; "flux_err"; "flux_err_profile"; "niter"]%string.

Definition gathered_images : list string :=
  ["ts"; "flux"; "flux_err"; "flux_err_profile"; "niter"]%string.

(** [which == 'all'] stands for the six images. *)
Definition which_list (which : option (list string)) : list string :=
  match which with None => all_images | Some w => w end.

(** What [results] is bound to: a list ([pool.map], and [map] of
    Python 2), or the iterator that [map] returns in Python 3, which
    computes its items when it is traversed and yields them once. *)
Inductive results_object : Type :=
  | ResList (l : list ts_return)
  | ResIter.

(** [j, i = zip( *positions )]: the unpacking fails on an empty list. *)
Definition unzip_positions (positions : list (Z * Z)) : result (list Z * list Z) :=
  match positions with
  | [] => Raise ValueError
  | _ => Ok (map fst positions, map snd positions)
  end.

(** [a[j, i] = values] for index tuples [j], [i]: the values are broadcast
    to the number of indices (equal length, or a single value). *)
Fixpoint assign_each (a : ndarray) (ji : list (Z * Z)) (values : list float)
  : result ndarray :=
  match ji, values with
  | [], _ => Ok a
  | p :: ji', v :: values' =>
      j ← axis_index (nrows a) (fst p);
      i ← axis_index (ncols a) (snd p);
      assign_each (set2 a j i v) ji' values'
  | _ :: _, [] => Raise ValueError
  end.

Definition fancy_assign (a : ndarray) (j i : list Z) (values : list float)
  : result ndarray :=
  if (length values =? length j)%nat then assign_each a (zip j i) values
  else match values with
       | [v] => assign_each a (zip j i) (replicate (length j) v)
       | _ => Raise ValueError
       end.

(** The comprehension [[_[name] for _ in results]]; the flag tells whether
    an iterator has been traversed already. *)
Definition comprehension (wrap : Z * Z -> result ts_return) (positions : list (Z * Z))
    (results : results_object) (consumed : bool) (name : string)
  : result (list float * bool) :=
  match results with
  | ResList l => vs ← mapR (ts_getitem name) l; Ok (vs, consumed)
  | ResIter =>
      if consumed then Ok ([], true)
      else vs ← mapR (fun p => r ← wrap p; ts_getitem name r) positions; Ok (vs, true)
  end.

(** One round of the loop that writes the values at the positions. *)
Definition gather (wrap : Z * Z -> result ts_return) (positions : list (Z * Z))
    (results : results_object) (result : SkyImageList) (j i : list Z)
    (consumed : bool) (name : string) : M bool :=
  '(values, consumed') ← lift (comprehension wrap positions results consumed name);
  img ← lift (getitem result name);
  a ← load (sky_data img);
  a' ← lift (fancy_assign a j i values);
  _ ← store (sky_data img) a';
  mret consumed'.

(** [np.where(ts > 0, np.sqrt(ts), -np.sqrt(-ts))] *)
Definition sqrt_ts_image (ts : ndarray) : ndarray :=
  np_map (fun t => np_where (0 <? t) (sqrt t) (- sqrt (- t))) ts.

(** [run(images, which)]; [which] is ['all'] ([None] here) or a list of
    names.  The runtime kept in the metadata is not modelled. *)
Definition run (py : py_version) (self : TSImageEstimator) (images : SkyImageList)
    (which : option (list string)) : M SkyImageList :=
  _ ← lift (check_required images ["counts"; "background"; "exposure"]%string);
  let p := self in
  let which := which_list which in
  result ← foldM (fun result name =>
                    like ← lift (getitem images "counts");
                    img ← empty_like like nan;
                    mret (setitem result name img))
                 which empty_list;
  '(counts, exposure, background) ← _parse_image_data images;
  counts_v ← load counts;
  background_v ← load background;
  let c_0_image := _cash_cython ext counts_v background_v in
  mask ← _get_mask exposure background;
  let positions := _get_positions self mask in
  flux ← (if String.eqb (method p) "root newton"
          then f ← lift (_estimate_flux self images); mret (Some f)
          else mret None);
  exposure_v ← load exposure;
  let wrap := fun position =>
    _ts_value ext position counts_v exposure_v background_v c_0_image
              (kernel self) flux (method p) (threshold p) in
  results ← (if parallel p
             then l ← lift (mapR wrap positions); mret (ResList l)
             else match py with
                  | Python2 => l ← lift (mapR wrap positions); mret (ResList l)
                  | Python3 => mret ResIter
                  end);
  '(j, i) ← lift (unzip_positions positions);
  _ ← foldM (gather wrap positions results result j i) gathered_images false;
  result ← (if existsb (String.eqb "sqrt_ts") which
            then
              img ← lift (getitem result "ts");
              ts ← load (sky_data img);
              target ← lift (getitem result "sqrt_ts");
              l ← alloc (sqrt_ts_image ts);
              mret (setitem result "sqrt_ts"
                            {| sky_data := l; sky_cdelt := sky_cdelt target |})
            else mret result);
  mret result.

End Estimator.

(* ===================================================================== *)
(** * [compute_maximum_ts_image] *)
(* ===================================================================== *)

(** What the function reads of one result: the attributes [ts], [niter],
    [amplitude], [scale] and [morphology]. *)
Record scale_result : Type := {
  r_ts : ndarray;
  r_niter : ndarray;
  r_amplitude : ndarray;
  r_scale : float;
  r_morphology : string
}.

(** The images of the returned list, with the entry [MORPH] of its
    metadata. *)
Record max_images : Type := {
  max_ts : ndarray;
  max_niter : array2 Z;
  max_amplitude : ndarray;
  max_morph : string
}.

Definition is_nan (x : float) : bool := negb (x =? x).

(** [np.maximum] on two elements: the first when it is at least the
    second or is not a number, else the second. *)
Definition np_maximum (a b : float) : float :=
  if (b <=? a) || is_nan a then a else b.

(** [np.max(ts, axis=2)] for the stacked images [first :: rest]. *)
Definition max_axis2 (first : ndarray) (rest : list ndarray) : ndarray :=
  fold_left (zip_with (zip_with np_maximum)) rest first.

(** [dst[index] = src[index]] for [index = np.where(cond)], the
    coordinates at which [cond] holds: [src] is read at each of them, which
    fails with [IndexError] outside its shape. *)
Definition assign_where {A} (cond : array2 bool) (src dst : array2 A)
  : result (array2 A) :=
  mapR (fun jr : nat * list A =>
          mapR (fun ix : nat * A =>
                  match get2 cond (fst jr) (fst ix) with
                  | Some true =>
                      match get2 src (fst jr) (fst ix) with
                      | Some v => Ok v
                      | None => Raise IndexError
                      end
                  | _ => Ok (snd ix)
                  end)
               (zip (seq 0 (length (snd jr))) (snd jr)))
       (zip (seq 0 (length dst)) dst).

(** The integer part of a binary64 number, towards zero. *)
Definition truncate (x : float) : option Z :=
  match Prim2SF x with
  | S754_zero _ => Some 0%Z
  | S754_finite s m e =>
      let a := match e with
               | Z0 => Z.pos m
               | Z.pos p => (Z.pos m * 2 ^ Z.pos p)%Z
               | Z.neg p => (Z.pos m / 2 ^ Z.pos p)%Z
               end in
      Some (if s then (- a)%Z else a)
  | _ => None
  end.

(** [astype('int16')]: the integer part, kept modulo [2^16] in the signed
    range.  C leaves the conversion of other values undefined; they are
    given 0 here, and no property below depends on them. *)
Definition astype_int16 (x : float) : Z :=
  match truncate x with
  | Some z => ((z + 32768) mod 65536 - 32768)%Z
  | None => 0%Z
  end.

(** The state of the loop over the scales. *)
Record max_state : Type := {
  scale_max : ndarray;
  niter_max : ndarray;
  amplitude_max : ndarray
}.

Definition max_step (ts_max : ndarray) (st : max_state) (r : scale_result)
  : result max_state :=
  let cond := zip_with (zip_with PrimFloat.eqb) (r_ts r) ts_max in
  s ← assign_where cond (np_map (fun _ => r_scale r) (r_ts r)) (scale_max st);
  n ← assign_where cond (r_niter r) (niter_max st);
  a ← assign_where cond (r_amplitude r) (amplitude_max st);
  Ok {| scale_max := s; niter_max := n; amplitude_max := a |}.

Fixpoint max_fold (ts_max : ndarray) (results : list scale_result) (st : max_state)
  : result max_state :=
  match results with
  | [] => Ok st
  | r :: rest => st' ← max_step ts_max st r; max_fold ts_max rest st'
  end.

Definition max_loop (ts_max : ndarray) (results : list scale_result) : result max_state :=
  let zeros := np_full (nrows ts_max) (ncols ts_max) 0 in
  max_fold ts_max results
           {| scale_max := zeros; niter_max := zeros; amplitude_max := zeros |}.

(** [np.dstack] needs at least one array, and arrays of one shape. *)
Definition stackable (results : list scale_result) (f : scale_result -> ndarray) : bool :=
  match results with
  | [] => false
  | r :: rest => forallb (fun r' => same_shape (f r') (f r)) rest
  end.

Definition compute_maximum_ts_image (ts_image_results : list scale_result)
  : result max_images :=
  match ts_image_results with
  | [] => Raise ValueError
  | first :: rest =>
      if negb (stackable ts_image_results r_ts && stackable ts_image_results r_niter
               && stackable ts_image_results r_amplitude)
      then Raise ValueError
      else
        let ts_max := max_axis2 (r_ts first) (map r_ts rest) in
        st ← max_loop ts_max ts_image_results;
        Ok {| max_ts := np_map astype_float32 ts_max;
              max_niter := np_map astype_int16 (niter_max st);
              max_amplitude := np_map astype_float32 (amplitude_max st);
              max_morph := r_morphology first |}
  end.

(* ===================================================================== *)
(** * Reference instances of the external routines *)
(* ===================================================================== *)

(** The theorems below hold for every instance of [externals].  The
    instances of this module make the model executable, for the worked
    examples that accompany the theorems. *)
Module Reference.

(** ** A natural logarithm

    binary64 has no logarithm among its primitive operations.  The one
    below reduces its argument to [[1/sqrt 2, sqrt 2)] times a power of
    two and sums the series of [2 * atanh ((m - 1) / (m + 1))].  It is
    exact at 1 and accurate to about fifteen digits elsewhere, which is not
    the last bit of the C library's [log]. *)
Definition ln2 : float := 0x1.62e42fefa39efp-1.

Fixpoint atanh_series (n : nat) (k : float) (y2 term : float) : float :=
  match n with
  | O => 0
  | S n' => term / k + atanh_series n' (k + 2) y2 (term * y2)
  end.

Definition ln (x : float) : float :=
  if is_nan x then nan
  else if x <? 0 then nan
  else if x =? 0 then neg_infinity
  else if x =? infinity then infinity
  else
    let '(m, e) := Z.frexp x in
    let '(m, e) := if m <? 0x1.6a09e667f3bcdp-1 then (2 * m, (e - 1)%Z) else (m, e) in
    let y := (m - 1) / (m + 1) in
    2 * atanh_series 30 1 (y * y) y + float_of_int e * ln2.

(** ** The Cython helpers

    Modelled from the spec: the compiled module [_test_statistics_cython]
    is not part of the sources.  The Cash statistic of a pixel is
    [2 * (model - counts * ln model)], taken where the model is positive;
    the derivative of the summed statistic with respect to the amplitude
    is, up to a factor, the sum of [model * (counts / (x * FLUX_FACTOR *
    model + background) - 1)]; the bounds bracket that root, and the floor
    is the amplitude below which background plus model turns negative. *)
Definition cash_pixel (c m : float) : float :=
  if 0 <? m then 2 * (m - c * ln m) else 0.

Definition cash_cython (counts model : ndarray) : ndarray :=
  zip_with (zip_with cash_pixel) counts model.

Definition cash_sum_cython (counts model : ndarray) : float :=
  2 * fold_left (fun acc cm => if 0 <? snd cm then acc + (snd cm - fst cm * ln (snd cm)) else acc)
                (zip (concat counts) (concat model)) 0.

Definition f_cash_root_cython (x : float) (counts background model : ndarray) : float :=
  fold_left (fun acc cbm =>
               let '(c, b, m) := cbm in
               if 0 <? m then acc + m * (c / (x * FLUX_FACTOR * m + b) - 1) else acc)
            (zip (zip (concat counts) (concat background)) (concat model)) 0.

Record bounds_state : Type := {
  s_model : float; s_counts : float; sn_min : float; c_min : float; sn_min_total : float
}.

Definition amplitude_bounds_cython (counts background model : ndarray)
  : float * float * float :=
  let st := fold_left
    (fun st cbm =>
       let '(c, b, m) := cbm in
       if 0 <? m then
         let sn := b / m in
         let st := {| s_model := s_model st + m; s_counts := s_counts st;
                      sn_min := sn_min st; c_min := c_min st;
                      sn_min_total := if sn <? sn_min_total st then sn else sn_min_total st |} in
         if 0 <? c then
           {| s_model := s_model st; s_counts := s_counts st + c;
              sn_min := if sn <? sn_min st then sn else sn_min st;
              c_min := if sn <? sn_min st then c else c_min st;
              sn_min_total := sn_min_total st |}
         else st
       else st)
    (zip (zip (concat counts) (concat background)) (concat model))
    {| s_model := 0; s_counts := 0; sn_min := 1e14; c_min := 1; sn_min_total := 1e14 |} in
  let b_min := c_min st / s_model st - sn_min st in
  let b_max := s_counts st / s_model st - sn_min st in
  (b_min / FLUX_FACTOR, b_max / FLUX_FACTOR, - sn_min_total st / FLUX_FACTOR).

Definition x_best_leastsq (counts background model weights : ndarray) : float :=
  let '(sum_1, sum_2) := fold_left
    (fun acc cbmw =>
       let '(c, b, m, w) := cbmw in
       if (0 <? m) && (0 <? w)
       then (fst acc + (c - b) * m / w, snd acc + m * m / w)
       else acc)
    (zip (zip (zip (concat counts) (concat background)) (concat model)) (concat weights))
    (0, 0) in
  sum_1 / sum_2.

(** ** Root finders

    [newton] without a derivative is the secant method, as scipy
    implements it: the second point is a small step from the first, a
    flat secant ends the search at the midpoint, and running out of
    iterations raises [RuntimeError]. *)
Definition callback (f : float -> result float) (x : float) (k : float -> solver_outcome)
  : solver_outcome :=
  match f x with Ok v => k v | Raise e => Failed e end.

Fixpoint secant_loop (f : float -> result float) (tol : float) (n : nat)
    (p0 q0 p1 q1 : float) : solver_outcome :=
  match n with
  | O => Failed RuntimeError
  | S n' =>
      if q1 =? q0 then Converged ((p1 + p0) / 2) 0
      else
        let p := p1 - q1 * (p1 - p0) / (q1 - q0) in
        if abs (p - p1) <? tol then Converged p 0
        else callback f p (fun q => secant_loop f tol n' p1 q1 p q)
  end.

Definition scipy_newton (f : float -> result float) (x0 : float) (maxiter : Z) (tol : float)
  : solver_outcome :=
  let p0 := x0 in
  let p1 := if 0 <=? x0 then x0 * (1 + 1e-4) + 1e-4 else x0 * (1 + 1e-4) - 1e-4 in
  callback f p0 (fun q0 => callback f p1 (fun q1 =>
    secant_loop f tol (Z.to_nat maxiter) p0 q0 p1 q1)).

(** [brentq], after the C routine of scipy: the end points must bracket a
    sign change ([ValueError] otherwise), an end point that is a root is
    returned at once, and running out of iterations raises
    [RuntimeError]. *)
Record brent_state : Type := {
  xpre : float; xcur : float; xblk : float;
  fpre : float; fcur : float; fblk : float;
  spre : float; scur : float
}.

Definition fmin (a b : float) : float := if a <? b then a else b.

Fixpoint brent_loop (f : float -> result float) (xtol rtol : float) (n : nat) (it : Z)
    (st : brent_state) : solver_outcome :=
  match n with
  | O => Failed RuntimeError
  | S n' =>
      let it := (it + 1)%Z in
      let st :=
        if (fpre st * fcur st <? 0)
        then {| xpre := xpre st; xcur := xcur st; xblk := xpre st;
                fpre := fpre st; fcur := fcur st; fblk := fpre st;
                spre := xcur st - xpre st; scur := xcur st - xpre st |}
        else st in
      let st :=
        if abs (fblk st) <? abs (fcur st)
        then {| xpre := xcur st; xcur := xblk st; xblk := xcur st;
                fpre := fcur st; fcur := fblk st; fblk := fcur st;
                spre := spre st; scur := scur st |}
        else st in
      let delta := (xtol + rtol * abs (xcur st)) / 2 in
      let sbis := (xblk st - xcur st) / 2 in
      if (fcur st =? 0) || (abs sbis <? delta) then Converged (xcur st) it
      else
        let '(spre', scur') :=
          if (delta <? abs (spre st)) && (abs (fcur st) <? abs (fpre st)) then
            let stry :=
              if xpre st =? xblk st
              then - fcur st * (xcur st - xpre st) / (fcur st - fpre st)
              else
                let dpre := (fpre st - fcur st) / (xpre st - xcur st) in
                let dblk := (fblk st - fcur st) / (xblk st - xcur st) in
                - fcur st * (fblk st * dblk - fpre st * dpre)
                  / (dblk * dpre * (fblk st - fpre st)) in
            if 2 * abs stry <? fmin (abs (spre st)) (3 * abs sbis - delta)
            then (scur st, stry)
            else (sbis, sbis)
          else (sbis, sbis) in
        let xcur' :=
          if delta <? abs scur' then xcur st + scur'
          else xcur st + (if 0 <? sbis then delta else - delta) in
        callback f xcur' (fun fcur' =>
          brent_loop f xtol rtol n' it
            {| xpre := xcur st; xcur := xcur'; xblk := xblk st;
               fpre := fcur st; fcur := fcur'; fblk := fblk st;
               spre := spre'; scur := scur' |})
  end.

Definition scipy_brentq (f : float -> result float) (a b : float) (maxiter : Z) (rtol : float)
  : solver_outcome :=
  callback f a (fun fa => callback f b (fun fb =>
    if 0 <? fa * fb then Failed ValueError
    else if fa =? 0 then Converged a 0
    else if fb =? 0 then Converged b 0
    else brent_loop f 2e-12 rtol (Z.to_nat maxiter) 0
           {| xpre := a; xcur := b; xblk := 0; fpre := fa; fcur := fb; fblk := 0;
              spre := 0; scur := 0 |})).

(** [fftconvolve(a, k, mode='same')], as the direct sum it approximates:
    the value at a pixel is the sum over the kernel of the kernel value
    times the image value at the mirrored offset, zero outside the image. *)
Definition at_or_zero (a : ndarray) (j i : Z) : float :=
  if ((j <? 0) || (i <? 0))%Z then 0
  else match get2 a (Z.to_nat j) (Z.to_nat i) with Some v => v | None => 0 end.

Definition convolve_same (a k : ndarray) : ndarray :=
  let kh := Z.of_nat (nrows k) in
  let kw := Z.of_nat (ncols k) in
  let cy := ((kh - 1) / 2)%Z in
  let cx := ((kw - 1) / 2)%Z in
  map (fun j =>
         map (fun i =>
                fold_left (fun acc uv =>
                             acc + at_or_zero k (fst uv) (snd uv)
                                   * at_or_zero a (j + cy - fst uv) (i + cx - snd uv))
                          (product (py_range 0 kh) (py_range 0 kw)) 0)
             (py_range 0 (Z.of_nat (ncols a))))
      (py_range 0 (Z.of_nat (nrows a))).

Definition ext : externals := {|
  _cash_cython := cash_cython;
  _cash_sum_cython := cash_sum_cython;
  _amplitude_bounds_cython := amplitude_bounds_cython;
  _f_cash_root_cython := f_cash_root_cython;
  _x_best_leastsq := x_best_leastsq;
  brentq := scipy_brentq;
  newton := scipy_newton;
  fftconvolve := convolve_same
|}.

(** A state holding the three input images, and the image list naming
    them. *)
Definition state_of (counts background exposure : ndarray) : state :=
  {| heap := [counts; background; exposure]; warnings := [] |}.

Definition images_of : SkyImageList :=
  {| sky_images := [("counts", {| sky_data := 0%nat; sky_cdelt := 0.01 |});
                    ("background", {| sky_data := 1%nat; sky_cdelt := 0.01 |});
                    ("exposure", {| sky_data := 2%nat; sky_cdelt := 0.01 |})]%string;
     sky_meta := [] |}.

End Reference.

(* ===================================================================== *)
(** * Reasoning about computations *)
(* ===================================================================== *)

Section MonadLemmas.

Lemma rbind_ok {A B} (m : result A) (f : A -> result B) b :
  (m ≫= f) = Ok b -> exists a, m = Ok a /\ f a = Ok b.
Proof. destruct m as [a|e]; cbn; [eauto | discriminate]. Qed.

Lemma bind_ok {A B} (m : M A) (f : A -> M B) s b s' :
  (m ≫= f) s = (Ok b, s') -> exists a s1, m s = (Ok a, s1) /\ f a s1 = (Ok b, s').
Proof.
  unfold mbind, M_bind. destruct (m s) as [[a|e] s1]; [eauto | discriminate].
Qed.

Lemma bind_eq {A B} (m : M A) (f : A -> M B) s a s1 :
  m s = (Ok a, s1) -> (m ≫= f) s = f a s1.
Proof. unfold mbind, M_bind. intros ->. reflexivity. Qed.

Lemma bind_raise {A B} (m : M A) (f : A -> M B) s e s1 :
  m s = (Raise e, s1) -> (m ≫= f) s = (Raise e, s1).
Proof. unfold mbind, M_bind. intros ->. reflexivity. Qed.

Lemma bind_lift {A B} (a : A) (f : A -> M B) s : (lift (Ok a) ≫= f) s = f a s.
Proof. reflexivity. Qed.

Lemma bind_lift_raise {A B} e (f : A -> M B) s : (lift (Raise e) ≫= f) s = (Raise e, s).
Proof. reflexivity. Qed.

Lemma bind_mret {A B} (a : A) (f : A -> M B) s : (mret a ≫= f) s = f a s.
Proof. reflexivity. Qed.

Lemma lift_ok {A} (r : result A) s a s' :
  lift r s = (Ok a, s') -> r = Ok a /\ s' = s.
Proof. unfold lift. intros [= -> ->]. auto. Qed.

Lemma mret_ok {A} (x : A) s a s' :
  (mret x : M A) s = (Ok a, s') -> a = x /\ s' = s.
Proof. unfold mret, M_ret. intros [= -> ->]. auto. Qed.

Lemma load_ok l s a s' :
  load l s = (Ok a, s') -> heap s !! l = Some a /\ s' = s.
Proof.
  unfold load. destruct (heap s !! l) eqn:E; intros [= <- <-]; auto.
Qed.

Lemma alloc_ok a s l s' :
  alloc a s = (Ok l, s') ->
  l = length (heap s) /\ heap s' = heap s ++ [a] /\ warnings s' = warnings s.
Proof. unfold alloc. intros [= <- <-]. auto. Qed.

Lemma store_ok l a s u s' :
  store l a s = (Ok u, s') ->
  l < length (heap s) /\ heap s' = <[l := a]> (heap s) /\ warnings s' = warnings s.
Proof.
  unfold store. destruct (heap s !! l) eqn:E; intros H; inversion H; subst; cbn.
  split; [|auto]. eapply lookup_lt_Some; eauto.
Qed.

End MonadLemmas.

(** Takes a successful chain of binds apart. *)
Ltac inv_ok H :=
  lazymatch type of H with
  | (_ ≫= _) _ = (Ok _, _) =>
      let a := fresh "a" in let s := fresh "s" in
      let H1 := fresh "H" in let H2 := fresh "H" in
      apply bind_ok in H; destruct H as (a & s & H1 & H2);
      inv_ok H1; inv_ok H2
  | lift _ _ = (Ok _, _) =>
      let E := fresh "E" in apply lift_ok in H; destruct H as [H E]; subst
  | mret _ _ = (Ok _, _) =>
      let E := fresh "E" in apply mret_ok in H; destruct H as [H E]; subst
  | load _ _ = (Ok _, _) =>
      let E := fresh "E" in apply load_ok in H; destruct H as [H E]; subst
  | (let '(_, _) := ?p in _) _ = (Ok _, _) => destruct p; inv_ok H
  | _ => idtac
  end.

(* ===================================================================== *)
(** * The square root image *)
(* ===================================================================== *)

(** [sign(ts) * sqrt(abs(ts))] *)
Definition sqrt_ts_formula (t : float) : float := np_sign t * sqrt (abs t).

Lemma sqrt_ts_pixel t :
  let r := np_where (0 <? t) (sqrt t) (- sqrt (- t)) in
  (r = sqrt_ts_formula t \/ (t = (-0) /\ r = (-0) /\ sqrt_ts_formula t = 0))
  /\ (t = nan -> r = nan).
Proof.
  cbv zeta. unfold sqrt_ts_formula, np_sign, np_where.
  destruct (IEEE.float_cases t) as [-> | [-> | [-> | [H | H]]]].
  - split; [left|]; reflexivity.
  - split; [left; reflexivity | discriminate].
  - split; [right; repeat split; reflexivity | discriminate].
  - rewrite H. split.
    + left. rewrite IEEE.mul_one_l, (IEEE.abs_of_pos _ H). reflexivity.
    + intros ->. discriminate H.
  - rewrite (IEEE.ltb_asym' _ H), H. split.
    + left. rewrite IEEE.mul_neg_one_l, (IEEE.abs_of_neg _ H). reflexivity.
    + intros ->. discriminate H.
Qed.

Lemma lookup_map {A B} (f : A -> B) (l : list A) i :
  map f l !! i = f <$> l !! i.
Proof.
  revert i. induction l as [|x l IH]; intros [|i]; cbn; auto.
Qed.

Lemma get2_np_map {A B} (f : A -> B) (a : array2 A) j i :
  get2 (np_map f a) j i = f <$> get2 a j i.
Proof.
  unfold get2, np_map. rewrite lookup_map.
  destruct (a !! j) as [r|]; cbn; [|reflexivity].
  apply lookup_map.
Qed.

Lemma assoc_set_same {V} name (v : V) l : assoc name (assoc_set name v l) = Some v.
Proof.
  induction l as [|[k w] l IH]; cbn.
  - rewrite String.eqb_refl. reflexivity.
  - destruct (String.eqb k name) eqn:E; cbn; rewrite E; auto.
Qed.

Lemma assoc_set_other {V} name name' (v : V) l :
  name <> name' -> assoc name' (assoc_set name v l) = assoc name' l.
Proof.
  intros Hne. induction l as [|[k w] l IH]; cbn.
  - destruct (String.eqb name name') eqn:E; [|reflexivity].
    apply String.eqb_eq in E. contradiction.
  - destruct (String.eqb k name) eqn:E; cbn.
    + apply String.eqb_eq in E. subst k.
      destruct (String.eqb name name') eqn:E'; [|reflexivity].
      apply String.eqb_eq in E'. contradiction.
    + rewrite IH. reflexivity.
Qed.

(** C10.  Whenever [run] succeeds and [sqrt_ts] was asked for, every pixel
    of the [sqrt_ts] image is computed from the pixel of the final [ts]
    image: it is [sign(ts) * sqrt(abs(ts))], a not-a-number [ts] gives a
    not-a-number [sqrt_ts], and the only value where the two expressions
    differ in representation is the negative zero ([-0.0] against [0.0],
    which compare equal). *)
Theorem sqrt_ts_identity ext py self images which s res s' :
  run ext py self images which s = (Ok res, s') ->
  existsb (String.eqb "sqrt_ts") (which_list which) = true ->
  exists img_ts img_sq ts sq,
    getitem res "ts" = Ok img_ts /\ getitem res "sqrt_ts" = Ok img_sq /\
    heap s' !! sky_data img_ts = Some ts /\ heap s' !! sky_data img_sq = Some sq /\
    forall j i t, get2 ts j i = Some t ->
      exists r, get2 sq j i = Some r /\
        (r = sqrt_ts_formula t \/ (t = (-0) /\ r = (-0) /\ sqrt_ts_formula t = 0)) /\
        (t = nan -> r = nan).
Proof.
  intros Hrun Hw. unfold run in Hrun.
  cbv beta zeta in Hrun.
  inv_ok Hrun.
  match goal with H : (if existsb _ _ then _ else _) _ = _ |- _ =>
    rewrite Hw in H; inv_ok H end.
  match goal with H : alloc _ _ = _ |- _ =>
    apply alloc_ok in H; destruct H as (-> & Hh & _) end.
  match goal with
  | Hts : getitem ?res "ts" = Ok ?img, Hl : heap ?s0 !! sky_data ?img = Some ?ts,
    Hsq : getitem ?res "sqrt_ts" = Ok ?target |- _ =>
      exists img, {| sky_data := length (heap s0); sky_cdelt := sky_cdelt target |},
             ts, (sqrt_ts_image ts);
      repeat split;
      [ unfold getitem, setitem in *; cbn [sky_images];
        rewrite assoc_set_other by discriminate; exact Hts
      | unfold getitem, setitem; cbn [sky_images]; rewrite assoc_set_same; reflexivity
      | rewrite Hh; apply lookup_app_l_Some; exact Hl
      | rewrite Hh; cbn [sky_data]; rewrite lookup_app_r by lia;
        rewrite Nat.sub_diag; reflexivity
      | ]
  end.
  intros j i t Ht. exists (np_where (0 <? t) (sqrt t) (- sqrt (- t))).
  split; [|apply sqrt_ts_pixel].
  unfold sqrt_ts_image. rewrite get2_np_map, Ht. reflexivity.
Qed.

(** A worked example: three by three images and a one-pixel kernel. *)
Module Example.

Definition counts : ndarray := [[1; 2; 0]; [0; 5; 1]; [3; 0; 0]].
Definition background : ndarray := [[1; 1; 1]; [1; 1; 0]; [1; 1; 1]].
Definition exposure : ndarray :=
  [[1e12; 1e12; 1e12]; [1e12; 1e12; 1e12]; [1e12; 0; 1e12]].

Definition point_kernel : Kernel2D := {| kernel_array := [[1]] |}.

Definition estimator (method : string) (parallel : bool) (threshold : option float)
  : TSImageEstimator :=
  {| kernel := point_kernel; downsample := None; method := method;
     parallel := parallel; threshold := threshold |}.

Definition start : state := Reference.state_of counts background exposure.

End Example.

Lemma sqrt_ts_identity_witness :
  exists res s',
    run Reference.ext Python3 (Example.estimator "root brentq" true None)
        Reference.images_of None Example.start = (Ok res, s') /\
    exists img_ts img_sq ts sq,
      getitem res "ts" = Ok img_ts /\ getitem res "sqrt_ts" = Ok img_sq /\
      heap s' !! sky_data img_ts = Some ts /\ heap s' !! sky_data img_sq = Some sq /\
      forall j i t, get2 ts j i = Some t ->
        exists r, get2 sq j i = Some r /\
          (r = sqrt_ts_formula t \/ (t = (-0) /\ r = (-0) /\ sqrt_ts_formula t = 0)) /\
          (t = nan -> r = nan).
Proof.
  assert (H : { p | run Reference.ext Python3 (Example.estimator "root brentq" true None)
                        Reference.images_of None Example.start = (Ok (fst p), snd p) }).
  { eexists (_, _). vm_compute. reflexivity. }
  destruct H as [[res s'] H]. exists res, s'. split; [exact H|].
  exact (sqrt_ts_identity _ _ _ _ _ _ _ _ H eq_refl).
Defined.

(* ===================================================================== *)
(** * The mask and the candidate positions *)
(* ===================================================================== *)

Section Arrays.

#[local] Open Scope nat_scope.

Lemma rect_ncols {A} h w (a : array2 A) : rect h w a -> h <> 0 -> ncols a = w.
Proof.
  intros [Hl Hf] Hh. destruct a as [|r a]; cbn in *; [congruence|].
  inversion Hf; auto.
Qed.

Lemma rect_same_shape {A B} h w (a : array2 A) (b : array2 B) :
  rect h w a -> rect h w b -> same_shape a b = true.
Proof.
  intros Ha Hb. unfold same_shape, nrows.
  destruct Ha as [Hla Hfa], Hb as [Hlb Hfb].
  rewrite Hla, Hlb, Nat.eqb_refl. cbn.
  destruct a as [|ra a], b as [|rb b]; cbn in *; try lia.
  inversion Hfa; inversion Hfb; subst. apply Nat.eqb_eq. congruence.
Qed.

Lemma expand_list_id {A} n (l : list A) : length l = n -> expand_list n l = l.
Proof.
  intros <-. destruct l as [|x [|y l]]; reflexivity.
Qed.

Lemma expand_id {A} h w (a : array2 A) : rect h w a -> expand h w a = a.
Proof.
  intros [Hl Hf]. unfold expand. rewrite (expand_list_id _ _ Hl).
  clear Hl. induction Hf as [|r a Hr Hf IH]; cbn; [reflexivity|].
  rewrite (expand_list_id _ _ Hr), IH. reflexivity.
Qed.

Lemma bdim_same n : bdim n n = Some n.
Proof. unfold bdim. rewrite Nat.eqb_refl. reflexivity. Qed.

(** On arrays of one shape a binary operation works element by element. *)
Lemma np_binop_rect {A B C} (f : A -> B -> C) h w (a : array2 A) (b : array2 B) :
  rect h w a -> rect h w b ->
  np_binop f a b = Ok (zip_with (zip_with f) a b).
Proof.
  intros Ha Hb. unfold np_binop.
  assert (Hr : nrows a = nrows b) by (destruct Ha, Hb; unfold nrows; congruence).
  assert (Hc : ncols a = ncols b).
  { pose proof (rect_same_shape _ _ _ _ Ha Hb) as Hs. unfold same_shape in Hs.
    apply andb_prop in Hs. destruct Hs as [_ Hs]. apply Nat.eqb_eq in Hs. exact Hs. }
  rewrite Hr, Hc, !bdim_same.
  assert (Hh : nrows b = h) by (destruct Hb; assumption).
  destruct (Nat.eq_dec h 0) as [-> | Hne].
  - destruct Ha as [Ha _], Hb as [Hb' _].
    apply nil_length_inv in Ha, Hb'. subst. reflexivity.
  - rewrite Hh, (rect_ncols _ _ _ Hb Hne), (expand_id _ _ _ Ha), (expand_id _ _ _ Hb).
    reflexivity.
Qed.

Lemma rect_np_map {A B} (f : A -> B) h w (a : array2 A) :
  rect h w a -> rect h w (np_map f a).
Proof.
  intros [Hl Hf]. split; unfold np_map.
  - rewrite length_map. exact Hl.
  - apply Forall_map. eapply Forall_impl; [exact Hf|].
    intros r Hr. cbn. rewrite length_map. exact Hr.
Qed.

Lemma rect_zip_with {A B C} (f : A -> B -> C) h w (a : array2 A) (b : array2 B) :
  rect h w a -> rect h w b -> rect h w (zip_with (zip_with f) a b).
Proof.
  intros [Hla Hfa] [Hlb Hfb]. split.
  - rewrite length_zip_with. lia.
  - clear Hla Hlb. revert b Hfb.
    induction Hfa as [|ra a Hra Hfa IH]; intros b Hfb; [constructor|].
    destruct Hfb as [|rb b Hrb Hfb]; cbn; constructor; auto.
    rewrite length_zip_with. lia.
Qed.

Lemma get2_zip_with {A B C} (f : A -> B -> C) (a : array2 A) (b : array2 B) j i x y :
  get2 a j i = Some x -> get2 b j i = Some y ->
  get2 (zip_with (zip_with f) a b) j i = Some (f x y).
Proof.
  unfold get2. intros Ha Hb. rewrite lookup_zip_with.
  destruct (a !! j) as [ra|]; [|discriminate]. destruct (b !! j) as [rb|]; [|discriminate].
  cbn in *. rewrite lookup_zip_with, Ha, Hb. reflexivity.
Qed.

Lemma get2_rect {A} h w (a : array2 A) j i :
  rect h w a -> j < h -> i < w -> exists x, get2 a j i = Some x.
Proof.
  intros [Hl Hf] Hj Hi. unfold get2.
  destruct (lookup_lt_is_Some_2 a j) as [r Hr]; [lia|]. rewrite Hr. cbn.
  apply lookup_lt_is_Some_2.
  rewrite Forall_forall in Hf.
  rewrite (Hf r); [exact Hi|]. eapply list_elem_of_lookup_2; eauto.
Qed.

Lemma get2_bounds {A} h w (a : array2 A) j i x :
  rect h w a -> get2 a j i = Some x -> j < h /\ i < w.
Proof.
  intros [Hl Hf] H. unfold get2 in H.
  destruct (a !! j) as [r|] eqn:Hr; [|discriminate]. cbn in H.
  split.
  - rewrite <- Hl. eapply lookup_lt_Some; eauto.
  - rewrite Forall_forall in Hf. rewrite <- (Hf r).
    + eapply lookup_lt_Some; eauto.
    + eapply list_elem_of_lookup_2; eauto.
Qed.

(** Two arrays of one shape with the same elements are equal. *)
Lemma array2_ext {A} h w (a b : array2 A) :
  rect h w a -> rect h w b ->
  (forall j i, get2 a j i = get2 b j i) -> a = b.
Proof.
  intros Ha Hb H. apply list_eq. intros j.
  destruct (a !! j) as [ra|] eqn:Era, (b !! j) as [rb|] eqn:Erb.
  - f_equal. apply list_eq. intros i. specialize (H j i). unfold get2 in H.
    rewrite Era, Erb in H. exact H.
  - apply lookup_lt_Some in Era. apply lookup_ge_None in Erb.
    destruct Ha, Hb. lia.
  - apply lookup_lt_Some in Erb. apply lookup_ge_None in Era.
    destruct Ha, Hb. lia.
  - reflexivity.
Qed.

Lemma np_any_false (m : array2 bool) j i x :
  np_any m = false -> get2 m j i = Some x -> x = false.
Proof.
  unfold np_any, get2. intros Hn H.
  destruct (m !! j) as [r|] eqn:Hr; [|discriminate]. cbn in H.
  destruct x; [|reflexivity]. exfalso.
  assert (Hex : existsb (existsb id) m = true).
  { apply existsb_exists. exists r. split.
    - apply list_elem_of_In. eapply list_elem_of_lookup_2; eauto.
    - apply existsb_exists. exists true. split; [|reflexivity].
      apply list_elem_of_In. eapply list_elem_of_lookup_2; eauto. }
  congruence.
Qed.

End Arrays.

Section Positions.

#[local] Open Scope Z_scope.

Lemma in_py_range lo hi x : In x (py_range lo hi) <-> lo <= x < hi.
Proof.
  unfold py_range. rewrite in_map_iff. split.
  - intros (k & <- & Hk). apply in_seq in Hk. lia.
  - intros Hx. exists (Z.to_nat (x - lo)). split; [lia|]. apply in_seq. lia.
Qed.

Lemma py_range_sorted lo hi : StronglySorted Z.lt (py_range lo hi).
Proof.
  unfold py_range. generalize (Z.to_nat (hi - lo)) as n. intros n.
  assert (H : forall k, StronglySorted Z.lt (map (fun k => lo + Z.of_nat k) (seq k n))).
  { induction n as [|n IH]; intros k; cbn; constructor; [apply IH|].
    apply Forall_forall. intros y Hy. apply list_elem_of_In, in_map_iff in Hy.
    destruct Hy as (k' & <- & Hk'). apply in_seq in Hk'. lia. }
  apply H.
Qed.

(** Row-major order on pixel coordinates. *)
Definition row_major_lt (p q : Z * Z) : Prop :=
  fst p < fst q \/ (fst p = fst q /\ snd p < snd q).

Lemma product_sorted (a b : list Z) :
  StronglySorted Z.lt a -> StronglySorted Z.lt b ->
  StronglySorted row_major_lt (product a b).
Proof.
  intros Ha Hb. unfold product. induction Ha as [|x a Ha IH Hx]; cbn; [constructor|].
  assert (Hrow : StronglySorted row_major_lt (map (fun y => (x, y)) b)).
  { clear -Hb. induction Hb as [|y b Hb IH Hy]; cbn; constructor; [exact IH|].
    apply Forall_forall. intros q Hq. apply list_elem_of_In, in_map_iff in Hq.
    destruct Hq as (y' & <- & Hy'). right. cbn. split; [reflexivity|].
    rewrite Forall_forall in Hy. apply Hy. apply list_elem_of_In. exact Hy'. }
  assert (Hcross : forall p q, In p (map (fun y => (x, y)) b) -> In q (list_prod a b) ->
                               row_major_lt p q).
  { intros p [q1 q2] Hp Hq. apply in_map_iff in Hp. destruct Hp as (y & <- & _).
    apply in_prod_iff in Hq. destruct Hq as [Hq _]. left. cbn.
    rewrite Forall_forall in Hx. apply Hx. apply list_elem_of_In. exact Hq. }
  revert Hrow Hcross. generalize (map (fun y => (x, y)) b) as row.
  induction row as [|p row IHrow]; intros Hrow Hcross; cbn; [exact IH|].
  inversion Hrow as [|? ? Hrow' Hp]; subst. constructor.
  - apply IHrow; [exact Hrow'|]. intros p' q Hp' Hq. apply Hcross; [right; exact Hp'|exact Hq].
  - apply Forall_forall. intros q Hq. apply list_elem_of_In, in_app_or in Hq.
    destruct Hq as [Hq|Hq].
    + rewrite Forall_forall in Hp. apply Hp. apply list_elem_of_In. exact Hq.
    + apply Hcross; [left; reflexivity|exact Hq].
Qed.

Lemma filter_sorted {A} (R : A -> A -> Prop) (f : A -> bool) l :
  StronglySorted R l -> StronglySorted R (List.filter f l).
Proof.
  induction 1 as [|x l Hl IH Hx]; cbn; [constructor|].
  destruct (f x); [|exact IH]. constructor; [exact IH|].
  apply Forall_forall. intros y Hy. apply list_elem_of_In, filter_In in Hy.
  rewrite Forall_forall in Hx. apply Hx. apply list_elem_of_In. tauto.
Qed.

End Positions.

Section MaskTheorem.

Lemma load_eq l s a : heap s !! l = Some a -> load l s = (Ok a, s).
Proof. unfold load. intros ->. reflexivity. Qed.

Lemma store_eq l a s a0 :
  heap s !! l = Some a0 ->
  store l a s = (Ok tt, {| heap := <[l := a]> (heap s); warnings := warnings s |}).
Proof. unfold store. intros ->. reflexivity. Qed.

(** The exposure after the correction of [_get_mask]. *)
Definition corrected_exposure (e b : ndarray) : ndarray :=
  zip_with (zip_with (fun (m : bool) x => if m then 0 else x))
           (zip_with (zip_with andb) (np_map (fun x => x =? 0) b) (np_map (fun x => 0 <? x) e))
           e.

Lemma corrected_exposure_get (h w : nat) e b j i ej bj :
  rect h w e -> rect h w b ->
  get2 e j i = Some ej -> get2 b j i = Some bj ->
  get2 (corrected_exposure e b) j i = Some (if (bj =? 0) && (0 <? ej) then 0 else ej).
Proof.
  intros He Hb Hej Hbj. unfold corrected_exposure.
  erewrite get2_zip_with; [reflexivity| |exact Hej].
  erewrite get2_zip_with; [reflexivity| |].
  - rewrite get2_np_map, Hbj. reflexivity.
  - rewrite get2_np_map, Hej. reflexivity.
Qed.

Lemma rect_corrected (h w : nat) e b :
  rect h w e -> rect h w b -> rect h w (corrected_exposure e b).
Proof.
  intros He Hb. unfold corrected_exposure.
  apply rect_zip_with; [|exact He].
  apply rect_zip_with; apply rect_np_map; assumption.
Qed.

(** What [_get_mask] does on two arrays of one shape. *)
Lemma _get_mask_spec s exposure background e b (h w : nat) :
  heap s !! exposure = Some e -> heap s !! background = Some b ->
  rect h w e -> rect h w b ->
  let anomaly :=
    np_any (zip_with (zip_with andb) (np_map (fun x => x =? 0) b) (np_map (fun x => 0 <? x) e)) in
  _get_mask exposure background s =
    (Ok (np_map (fun x => 0 <? x) (corrected_exposure e b)),
     if anomaly
     then {| heap := <[exposure := corrected_exposure e b]> (heap s);
             warnings := warnings s ++ [mask_warning] |}
     else s).
Proof.
  intros He Hb Re Rb. cbv zeta. unfold _get_mask.
  rewrite (bind_eq _ _ _ _ _ (load_eq _ _ _ Hb)).
  rewrite (bind_eq _ _ _ _ _ (load_eq _ _ _ He)).
  rewrite (np_binop_rect andb h w) by (apply rect_np_map; assumption).
  rewrite bind_lift.
  destruct (np_any _) eqn:Ea.
  - unfold mask_assign.
    rewrite (rect_same_shape h w)
      by (try exact Re; apply rect_zip_with; apply rect_np_map; assumption).
    unfold mbind, M_bind, log_warning, lift, store, load. cbn [heap warnings].
    rewrite He. cbn [heap warnings].
    rewrite list_lookup_insert_eq by (eapply lookup_lt_Some; eauto).
    reflexivity.
  - rewrite bind_mret, (bind_eq _ _ _ _ _ (load_eq _ _ _ He)). unfold mret, M_ret.
    f_equal. f_equal. f_equal.
    apply (array2_ext h w); [exact Re | apply rect_corrected; assumption|].
    intros j i. destruct (get2 e j i) as [ej|] eqn:Hej.
    + destruct (get2_bounds _ _ _ _ _ _ Re Hej) as [Hj Hi].
      destruct (get2_rect h w b j i Rb Hj Hi) as [bj Hbj].
      rewrite (corrected_exposure_get h w e b j i ej bj Re Rb Hej Hbj).
      assert (Hm : (bj =? 0) && (0 <? ej) = false).
      { eapply (np_any_false _ j i); [exact Ea|].
        erewrite get2_zip_with; [reflexivity| |].
        - rewrite get2_np_map, Hbj. reflexivity.
        - rewrite get2_np_map, Hej. reflexivity. }
      rewrite Hm. reflexivity.
    + destruct (get2 (corrected_exposure e b) j i) as [x|] eqn:Hx; [|reflexivity].
      destruct (get2_bounds _ _ _ _ _ _ (rect_corrected h w e b Re Rb) Hx) as [Hj Hi].
      destruct (get2_rect h w e j i Re Hj Hi) as [y Hy]. congruence.
Qed.

End MaskTheorem.

Section CandidateTheorem.

#[local] Open Scope Z_scope.

Lemma np_any_true (m : array2 bool) j i :
  get2 m j i = Some true -> np_any m = true.
Proof.
  intros H. destruct (np_any m) eqn:E; [reflexivity|].
  pose proof (np_any_false m j i true E H). discriminate.
Qed.

Lemma positions_spec (self : TSImageEstimator) (mask : array2 bool) (h w : nat) p :
  rect h w mask ->
  In p (_get_positions self mask) <->
  floordiv2 (fst (kernel_shape (kernel self))) <= fst p
    < Z.of_nat h - floordiv2 (fst (kernel_shape (kernel self))) /\
  floordiv2 (snd (kernel_shape (kernel self))) <= snd p
    < Z.of_nat w - floordiv2 (snd (kernel_shape (kernel self))) /\
  get2 mask (Z.to_nat (fst p)) (Z.to_nat (snd p)) = Some true.
Proof.
  intros Rm. unfold _get_positions. cbv zeta.
  rewrite filter_In. unfold product. destruct p as [j i].
  rewrite in_prod_iff, !in_py_range. cbn [fst snd].
  assert (Hh : nrows mask = h) by (destruct Rm; assumption).
  assert (Hk : 0 <= floordiv2 (fst (kernel_shape (kernel self)))).
  { unfold floordiv2, kernel_shape. cbn [fst]. apply Z.div_pos; lia. }
  rewrite Hh.
  assert (Hm : mask_at mask (j, i) = true <->
               get2 mask (Z.to_nat j) (Z.to_nat i) = Some true).
  { unfold mask_at. cbn [fst snd].
    destruct (get2 mask (Z.to_nat j) (Z.to_nat i)) as [[|]|]; split; congruence. }
  rewrite Hm.
  destruct (Nat.eq_dec h 0%nat) as [-> | Hne].
  - split; intros; lia.
  - rewrite (rect_ncols h w mask Rm Hne). tauto.
Qed.

Lemma positions_sorted (self : TSImageEstimator) (mask : array2 bool) :
  StronglySorted row_major_lt (_get_positions self mask).
Proof.
  unfold _get_positions. cbv zeta.
  apply filter_sorted, product_sorted; apply py_range_sorted.
Qed.

(** C7.  On an exposure and a background array of one shape, [_get_mask]
    never raises: it puts zero into the exposure array it was given
    wherever the exposure is positive and the background is zero, leaves
    every other array alone, and logs the warning when there is such a
    pixel.  The positions that [_get_positions] then yields are exactly the
    pixels whose corrected exposure is positive, whose row is in
    [[kernel height // 2, image height - kernel height // 2)] and whose
    column is in [[kernel width // 2, image width - kernel width // 2)], in
    row-major order. *)
Theorem candidate_positions (self : TSImageEstimator) s exposure background
    (e b : ndarray) (h w : nat) :
  heap s !! exposure = Some e -> heap s !! background = Some b ->
  rect h w e -> rect h w b ->
  exists mask s' e',
    _get_mask exposure background s = (Ok mask, s') /\
    heap s' !! exposure = Some e' /\
    (forall j i ej bj, get2 e j i = Some ej -> get2 b j i = Some bj ->
       get2 e' j i = Some (if (bj =? 0)%float && (0 <? ej)%float then 0%float else ej)) /\
    (forall l, l <> exposure -> heap s' !! l = heap s !! l) /\
    ((exists j i ej bj, get2 e j i = Some ej /\ get2 b j i = Some bj /\
                        (bj =? 0)%float && (0 <? ej)%float = true) ->
     warnings s' = warnings s ++ [mask_warning]) /\
    (forall p, In p (_get_positions self mask) <->
       floordiv2 (fst (kernel_shape (kernel self))) <= fst p
         < Z.of_nat h - floordiv2 (fst (kernel_shape (kernel self))) /\
       floordiv2 (snd (kernel_shape (kernel self))) <= snd p
         < Z.of_nat w - floordiv2 (snd (kernel_shape (kernel self))) /\
       exists v, get2 e' (Z.to_nat (fst p)) (Z.to_nat (snd p)) = Some v /\
                 (0 <? v)%float = true) /\
    StronglySorted row_major_lt (_get_positions self mask).
Proof.
  intros He Hb Re Rb.
  pose proof (_get_mask_spec s exposure background e b h w He Hb Re Rb) as Hspec.
  cbv zeta in Hspec.
  eexists _, _, (corrected_exposure e b). split; [exact Hspec|].
  assert (Rc : rect h w (corrected_exposure e b)) by (apply rect_corrected; assumption).
  split; [|split; [|split; [|split; [|split]]]].
  - destruct (np_any _) eqn:Ea; cbn [heap].
    + apply list_lookup_insert_eq. eapply lookup_lt_Some; eauto.
    + rewrite He. f_equal.
      apply (array2_ext h w); [exact Re | exact Rc |].
      intros j i. destruct (get2 e j i) as [ej|] eqn:Hej.
      * destruct (get2_bounds _ _ _ _ _ _ Re Hej) as [Hj Hi].
        destruct (get2_rect h w b j i Rb Hj Hi) as [bj Hbj].
        rewrite (corrected_exposure_get h w e b j i ej bj Re Rb Hej Hbj).
        assert (Hm : ((bj =? 0) && (0 <? ej))%float = false).
        { eapply (np_any_false _ j i); [exact Ea|].
          erewrite get2_zip_with; [reflexivity| |].
          - rewrite get2_np_map, Hbj. reflexivity.
          - rewrite get2_np_map, Hej. reflexivity. }
        rewrite Hm. reflexivity.
      * destruct (get2 (corrected_exposure e b) j i) as [x|] eqn:Hx; [|reflexivity].
        destruct (get2_bounds _ _ _ _ _ _ Rc Hx) as [Hj Hi].
        destruct (get2_rect h w e j i Re Hj Hi) as [y Hy]. congruence.
  - intros j i ej bj Hej Hbj. apply (corrected_exposure_get h w); assumption.
  - intros l Hl. destruct (np_any _); cbn [heap]; [|reflexivity].
    apply list_lookup_insert_ne. congruence.
  - intros (j & i & ej & bj & Hej & Hbj & Han).
    rewrite (np_any_true _ j i); [reflexivity|].
    erewrite get2_zip_with; [f_equal; exact Han| |].
    + rewrite get2_np_map, Hbj. reflexivity.
    + rewrite get2_np_map, Hej. reflexivity.
  - intros p. rewrite (positions_spec self _ h w p) by (apply rect_np_map; exact Rc).
    rewrite get2_np_map.
    destruct (get2 (corrected_exposure e b) (Z.to_nat (fst p)) (Z.to_nat (snd p))) as [v|];
      cbn; split.
    + intros (H1 & H2 & [= H3]). eauto.
    + intros (H1 & H2 & v' & [= <-] & H3). rewrite H3. auto.
    + intros (_ & _ & H3). discriminate.
    + intros (_ & _ & v' & H3 & _). discriminate.
  - apply positions_sorted.
Qed.

End CandidateTheorem.

Lemma candidate_positions_witness :
  exists mask s' e',
    _get_mask 2%nat 1%nat Example.start = (Ok mask, s') /\
    heap s' !! 2%nat = Some e' /\
    In (1, 1)%Z (_get_positions (Example.estimator "root brentq" true None) mask) /\
    ~ In (1, 2)%Z (_get_positions (Example.estimator "root brentq" true None) mask) /\
    warnings s' = [mask_warning].
Proof.
  destruct (candidate_positions (Example.estimator "root brentq" true None)
              Example.start 2%nat 1%nat Example.exposure Example.background 3 3
              eq_refl eq_refl)
    as (mask & s' & e' & Hm & He & Hpix & _ & Hw & Hpos & _).
  - split; [reflexivity | repeat constructor].
  - split; [reflexivity | repeat constructor].
  - exists mask, s', e'. split; [exact Hm|]. split; [exact He|].
    split; [|split].
    + apply Hpos.
      split; [split; [vm_compute; discriminate | vm_compute; reflexivity]|].
      split; [split; [vm_compute; discriminate | vm_compute; reflexivity]|].
      eexists. split; [apply (Hpix 1%nat 1%nat); reflexivity | reflexivity].
    + intros Hin. apply Hpos in Hin. destruct Hin as (_ & _ & v & Hv & Hpos').
      pose proof (eq_trans (eq_sym Hv) (Hpix 1%nat 2%nat _ _ eq_refl eq_refl)) as Heq.
      injection Heq as ->. discriminate Hpos'.
    + apply Hw. exists 1%nat, 2%nat. eexists _, _.
      split; [reflexivity|]. split; reflexivity.
Defined.

(* ===================================================================== *)
(** * The amplitude solvers *)
(* ===================================================================== *)

Section ZeroCounts.

Variable ext : externals.

(** The floor [amplitude_min_total] of the bounds. *)
Definition amplitude_floor (counts background model : ndarray) : float :=
  snd (_amplitude_bounds_cython ext counts background model).

Lemma brentq_zero_counts counts background model :
  (np_sum counts =? 0) = true ->
  _root_amplitude_brentq ext counts background model
  = Ok (amplitude_floor counts background model, 0%Z).
Proof.
  intros H. unfold _root_amplitude_brentq, amplitude_floor.
  destruct (_amplitude_bounds_cython ext counts background model) as [[lo hi] floor].
  rewrite (IEEE.eqb_zero_not_pos _ H). reflexivity.
Qed.

Lemma leastsq_zero_counts counts background model maxiter rtol :
  (np_sum counts =? 0) = true ->
  _leastsq_iter_amplitude ext counts background model maxiter rtol
  = Ok (amplitude_floor counts background model, 0%Z).
Proof.
  intros H. unfold _leastsq_iter_amplitude, amplitude_floor.
  destruct (_amplitude_bounds_cython ext counts background model) as [[lo hi] floor].
  rewrite (IEEE.eqb_zero_not_pos _ H). reflexivity.
Qed.

(** C1, amended.  On a slice whose counts sum to zero the strategies
    ['root brentq'] and ['leastsq iter'] return the floor
    [amplitude_min_total] of the bounds with iteration count 0, without a
    search.  ['root newton'] computes no bounds and does not look at the
    counts: it returns what the Newton iteration returns from the seed,
    with iteration count 0 when the iteration converges. *)
Theorem zero_count_floor counts background model flux position :
  (np_sum counts =? 0) = true ->
  fit_amplitude ext "root brentq" counts background model flux position
    = Ok (amplitude_floor counts background model, 0%Z) /\
  fit_amplitude ext "leastsq iter" counts background model flux position
    = Ok (amplitude_floor counts background model, 0%Z) /\
  (forall seed root iterations,
     flux_at flux position = Ok seed ->
     newton ext (fun x => Ok (_f_cash_root_cython ext x counts background model))
            seed MAX_NITER 1e-2 = Converged root iterations ->
     fit_amplitude ext "root newton" counts background model flux position
       = Ok (root, 0%Z)).
Proof.
  intros H. unfold fit_amplitude. cbn [String.eqb Ascii.eqb Bool.eqb].
  split; [apply brentq_zero_counts; exact H|].
  split; [apply leastsq_zero_counts; exact H|].
  intros seed root iterations Hseed Hnewton. rewrite Hseed. cbn.
  unfold _root_amplitude. rewrite Hnewton. reflexivity.
Qed.

End ZeroCounts.

Lemma zero_count_floor_witness :
  fit_amplitude Reference.ext "root brentq" [[0; 0]] [[1; 2]] [[1e12; 1e12]] None (0, 0)%Z
    = Ok (amplitude_floor Reference.ext [[0; 0]] [[1; 2]] [[1e12; 1e12]], 0%Z) /\
  fit_amplitude Reference.ext "leastsq iter" [[0; 0]] [[1; 2]] [[1e12; 1e12]] None (0, 0)%Z
    = Ok (amplitude_floor Reference.ext [[0; 0]] [[1; 2]] [[1e12; 1e12]], 0%Z).
Proof.
  destruct (zero_count_floor Reference.ext [[0; 0]] [[1; 2]] [[1e12; 1e12]] None (0, 0)%Z
              eq_refl) as (H1 & H2 & _).
  split; assumption.
Defined.

(** C1 as stated fails for ['root newton']: on the one-pixel slice with
    zero counts, background 1 and model [1e12], and the seed 0, the floor
    is -1, but the fit returns the midpoint of the first secant step,
    which is positive. *)
Lemma zero_count_newton_counterexample :
  (np_sum [[0]] =? 0) = true /\
  amplitude_floor Reference.ext [[0]] [[1]] [[1e12]] = (-1) /\
  exists amplitude,
    fit_amplitude Reference.ext "root newton" [[0]] [[1]] [[1e12]] (Some [[0]]) (0, 0)%Z
      = Ok (amplitude, 0%Z) /\
    (0 <? amplitude) = true /\
    fit_amplitude Reference.ext "root newton" [[0]] [[1]] [[1e12]] (Some [[0]]) (0, 0)%Z
      <> Ok (amplitude_floor Reference.ext [[0]] [[1]] [[1e12]], 0%Z).
Proof.
  split; [reflexivity|]. split; [vm_compute; reflexivity|].
  eexists. split; [vm_compute; reflexivity|]. split; [reflexivity|].
  intros H.
  apply (f_equal (fun r => match r with Ok (a, _) => 0 <? a | Raise _ => false end)) in H.
  vm_compute in H. discriminate H.
Qed.

(* ===================================================================== *)
(** * The sign of the test statistic *)
(* ===================================================================== *)

Section SignConvention.

Variable ext : externals.

(** The sign of [gap * sign(amplitude)] for a positive gap. *)
Lemma signed_gap gap amplitude :
  (0 <? gap) = true ->
  (gap * np_sign amplitude <? 0) = (amplitude <? 0) /\
  (0 <? gap * np_sign amplitude) = (0 <? amplitude).
Proof.
  intros Hg. unfold np_sign.
  destruct (IEEE.float_cases amplitude) as [-> | [-> | [-> | [H | H]]]].
  - change (0 <? nan) with false. change (nan <? 0) with false.
    change (nan =? 0) with false. cbv iota. rewrite IEEE.mul_nan_r.
    split; reflexivity.
  - change (0 <? 0) with false. change (0 =? 0) with true. cbv iota.
    apply (IEEE.mul_zero_of_pos gap 0 Hg). left; reflexivity.
  - change (0 <? -0) with false. change (-0 <? 0) with false.
    change (-0 =? 0) with true. cbv iota.
    apply (IEEE.mul_zero_of_pos gap 0 Hg). left; reflexivity.
  - rewrite H, (IEEE.ltb_asym _ H), IEEE.mul_one_r, Hg, (IEEE.ltb_asym _ Hg).
    split; reflexivity.
  - rewrite (IEEE.ltb_asym' _ H), H, IEEE.mul_neg_one_r.
    destruct (IEEE.opp_neg_of_pos gap Hg) as [-> ->]. split; reflexivity.
Qed.

Lemma ts_fit_dict method counts_ background_ model c_0 flux position r :
  ts_fit ext method counts_ background_ model c_0 flux position = Ok r ->
  exists amplitude niter c_1 flux_err err_profile,
    fit_amplitude ext method counts_ background_ model flux position = Ok (amplitude, niter) /\
    f_cash ext amplitude counts_ background_ model = Ok c_1 /\
    _compute_amplitude_err amplitude counts_ background_ model = Ok flux_err /\
    _compute_amplitude_err_profile ext amplitude counts_ background_ model c_1
      = Ok err_profile /\
    r = TsDict {| d_ts := (c_0 - c_1) * np_sign amplitude;
                  d_flux := amplitude * FLUX_FACTOR;
                  d_niter := niter;
                  d_flux_err := flux_err;
                  d_flux_err_profile := FLUX_FACTOR * err_profile |}.
Proof.
  unfold ts_fit. intros H.
  apply rbind_ok in H. destruct H as ([amplitude niter] & Hfit & H).
  apply rbind_ok in H. destruct H as (c_1 & Hc & H).
  apply rbind_ok in H. destruct H as (flux_err & He & H).
  apply rbind_ok in H. destruct H as (err_profile & Hp & H).
  exists amplitude, niter, c_1, flux_err, err_profile.
  repeat split; try assumption. congruence.
Qed.

(** A dictionary comes out of the fit only. *)
Lemma _ts_value_dict position counts exposure background c_0_image kernel flux method
    threshold d :
  _ts_value ext position counts exposure background c_0_image kernel flux method threshold
    = Ok (TsDict d) ->
  exists model,
    np_binop mul (_extract_array exposure (kernel_shape kernel) position)
             (kernel_array kernel) = Ok model /\
    ts_fit ext method
           (_extract_array counts (kernel_shape kernel) position)
           (_extract_array background (kernel_shape kernel) position)
           model
           (np_sum (_extract_array c_0_image (kernel_shape kernel) position))
           flux position = Ok (TsDict d).
Proof.
  unfold _ts_value. intros H.
  apply rbind_ok in H. destruct H as (model & Hm & H).
  exists model. split; [exact Hm|].
  destruct threshold as [t|]; [|exact H].
  apply rbind_ok in H. destruct H as (seed & Hs & H).
  apply rbind_ok in H. destruct H as (c_1 & Hc & H).
  destruct (_ <? t); [|exact H].
  apply rbind_ok in H. destruct H as (seed' & _ & H). discriminate H.
Qed.

(** C4, amended.  Whenever [_ts_value] returns the dictionary of a fit
    (the pixel was not cut short by the threshold), its [ts] is
    [(c_0 - c_1) * sign(amplitude)], with [c_0] the sum of the null
    statistic over the slice and [c_1] the Cash statistic at the fitted
    amplitude.  When [c_0 - c_1] is positive, [ts] is negative exactly when
    the amplitude is negative and positive exactly when the amplitude is
    positive. *)
Theorem ts_sign_convention position counts exposure background c_0_image kernel flux
    method threshold d :
  _ts_value ext position counts exposure background c_0_image kernel flux method threshold
    = Ok (TsDict d) ->
  exists model amplitude c_1,
    let counts_ := _extract_array counts (kernel_shape kernel) position in
    let background_ := _extract_array background (kernel_shape kernel) position in
    let c_0 := np_sum (_extract_array c_0_image (kernel_shape kernel) position) in
    np_binop mul (_extract_array exposure (kernel_shape kernel) position)
             (kernel_array kernel) = Ok model /\
    fit_amplitude ext method counts_ background_ model flux position
      = Ok (amplitude, d_niter d) /\
    f_cash ext amplitude counts_ background_ model = Ok c_1 /\
    d_ts d = (c_0 - c_1) * np_sign amplitude /\
    d_flux d = amplitude * FLUX_FACTOR /\
    ((0 <? c_0 - c_1) = true ->
     (d_ts d <? 0) = (amplitude <? 0) /\ (0 <? d_ts d) = (0 <? amplitude)).
Proof.
  intros H. apply _ts_value_dict in H. destruct H as (model & Hm & H).
  apply ts_fit_dict in H.
  destruct H as (amplitude & niter & c_1 & flux_err & err_profile & Hfit & Hc & _ & _ & Hd).
  exists model, amplitude, c_1. cbv zeta.
  assert (Ed : d = {| d_ts := (np_sum (_extract_array c_0_image (kernel_shape kernel) position)
                              - c_1) * np_sign amplitude;
                      d_flux := amplitude * FLUX_FACTOR;
                      d_niter := niter;
                      d_flux_err := flux_err;
                      d_flux_err_profile := FLUX_FACTOR * err_profile |}) by congruence.
  subst d. cbn [d_ts d_flux d_niter].
  repeat split; try assumption; try reflexivity; apply signed_gap; assumption.
Qed.

End SignConvention.

Lemma ts_sign_convention_witness :
  exists d,
    _ts_value Reference.ext (0, 0)%Z [[5]] [[1e12]] [[1]]
              (Reference.cash_cython [[5]] [[1]]) Example.point_kernel None
              "root brentq" None = Ok (TsDict d) /\
    exists model amplitude c_1,
      let counts_ := _extract_array [[5]] (kernel_shape Example.point_kernel) (0, 0)%Z in
      let background_ := _extract_array [[1]] (kernel_shape Example.point_kernel) (0, 0)%Z in
      let c_0 := np_sum (_extract_array (Reference.cash_cython [[5]] [[1]])
                                        (kernel_shape Example.point_kernel) (0, 0)%Z) in
      np_binop mul (_extract_array [[1e12]] (kernel_shape Example.point_kernel) (0, 0)%Z)
               (kernel_array Example.point_kernel) = Ok model /\
      fit_amplitude Reference.ext "root brentq" counts_ background_ model None (0, 0)%Z
        = Ok (amplitude, d_niter d) /\
      f_cash Reference.ext amplitude counts_ background_ model = Ok c_1 /\
      d_ts d = (c_0 - c_1) * np_sign amplitude /\
      d_flux d = amplitude * FLUX_FACTOR /\
      ((0 <? c_0 - c_1) = true ->
       (d_ts d <? 0) = (amplitude <? 0) /\ (0 <? d_ts d) = (0 <? amplitude)).
Proof.
  assert (H : { d | _ts_value Reference.ext (0, 0)%Z [[5]] [[1e12]] [[1]]
                      (Reference.cash_cython [[5]] [[1]]) Example.point_kernel None
                      "root brentq" None = Ok (TsDict d) }).
  { eexists. vm_compute. reflexivity. }
  destruct H as [d H]. exists d. split; [exact H|].
  exact (ts_sign_convention Reference.ext _ _ _ _ _ _ _ _ _ _ H).
Defined.

(** C4 as stated fails where the fit finds no excess: on the one-pixel
    slice with counts 1, background 1 and exposure [1e12] the bracketed
    search converges to the amplitude 0, which is not negative, and the
    test statistic is [0 * sign(0) = 0], which is not positive. *)
Lemma ts_sign_counterexample :
  exists d,
    _ts_value Reference.ext (0, 0)%Z [[1]] [[1e12]] [[1]]
              (Reference.cash_cython [[1]] [[1]]) Example.point_kernel None
              "root brentq" None = Ok (TsDict d) /\
    fit_amplitude Reference.ext "root brentq" [[1]] [[1]] [[1e12]] None (0, 0)%Z
      = Ok (0, 0%Z) /\
    d_flux d = 0 /\ d_ts d = 0 /\
    (0 <? 0) = false /\ (0 <? d_ts d) = false /\ (d_ts d <? 0) = false.
Proof.
  eexists. split; [vm_compute; reflexivity|].
  split; [vm_compute; reflexivity|].
  repeat split; reflexivity.
Qed.

(* ===================================================================== *)
(** * Runs that cannot complete *)
(* ===================================================================== *)

Section Aborts.

Variable ext : externals.

Lemma mapR_raises {A B} (f : A -> result B) (l : list A) :
  (forall x, exists e, f x = Raise e) -> l <> [] -> exists e, mapR f l = Raise e.
Proof.
  intros Hf Hl. destruct l as [|x l]; [contradiction|].
  destruct (Hf x) as [e He]. exists e. cbn. rewrite He. reflexivity.
Qed.

Lemma unzip_positions_ok positions j i :
  unzip_positions positions = Ok (j, i) ->
  positions <> [] /\ j = map fst positions /\ i = map snd positions.
Proof.
  destruct positions as [|p ps]; cbn; [discriminate|].
  intros H. split; [discriminate|]. split; congruence.
Qed.

(** [_estimate_flux] cannot find the first name it reads. *)
Lemma _estimate_flux_raises self images :
  _estimate_flux ext self images = Raise (NameError "counts").
Proof. reflexivity. Qed.

(** A computation ends with a value or with an exception. *)
Lemma not_ok_raises {A} (m : M A) s :
  (forall a s', m s <> (Ok a, s')) -> exists e s', m s = (Raise e, s').
Proof.
  intros H. destruct (m s) as [[a|e] s'] eqn:E; [|eauto].
  exfalso. apply (H a s'). reflexivity.
Qed.

(** C5.  With the method ['root newton'], [run] never returns: it calls
    [_estimate_flux], whose body reads the names [counts], [background],
    [exposure] and [kernel], which are bound neither in the function nor in
    the module.  No seed flux image is computed. *)
Theorem newton_run_raises py k d par t images which s :
  let self := {| kernel := k; downsample := d; method := "root newton";
                 parallel := par; threshold := t |} in
  _estimate_flux ext self images = Raise (NameError "counts") /\
  exists e s', run ext py self images which s = (Raise e, s').
Proof.
  cbv zeta. split; [reflexivity|].
  apply not_ok_raises. intros res s' Hrun.
  unfold run in Hrun. cbv beta zeta in Hrun. inv_ok Hrun.
  match goal with H : (if (method _ =? "root newton")%string then _ else _) _ = _ |- _ =>
    cbn in H; discriminate H end.
Qed.

(** With a threshold, [_ts_value] fails at every pixel when no flux image
    was computed: it subscripts [None]. *)
Lemma _ts_value_threshold_raises position counts exposure background c_0_image k m t :
  exists e,
    _ts_value ext position counts exposure background c_0_image k None m (Some t)
    = Raise e.
Proof.
  unfold _ts_value. destruct (np_binop _ _ _) as [model|e]; cbn; eauto.
Qed.

Lemma threshold_list_raises positions counts exposure background c_0_image k m t l :
  positions <> [] ->
  mapR (fun position =>
          _ts_value ext position counts exposure background c_0_image k None m (Some t))
       positions <> Ok l.
Proof.
  intros Hne H.
  destruct (mapR_raises
              (fun position =>
                 _ts_value ext position counts exposure background c_0_image k None m (Some t))
              positions
              (fun p => _ts_value_threshold_raises p _ _ _ _ k m t) Hne) as [e He].
  congruence.
Qed.

Lemma threshold_iter_raises positions counts exposure background c_0_image k m t name l :
  positions <> [] ->
  mapR (fun p =>
          r ← _ts_value ext p counts exposure background c_0_image k None m (Some t);
          ts_getitem name r)
       positions <> Ok l.
Proof.
  intros Hne H.
  destruct (mapR_raises
              (fun p =>
                 r ← _ts_value ext p counts exposure background c_0_image k None m (Some t);
                 ts_getitem name r)
              positions) as [e He]; [|exact Hne|congruence].
  intros p. destruct (_ts_value_threshold_raises p counts exposure background c_0_image k m t)
    as [e He].
  exists e. rewrite He. reflexivity.
Qed.

(** C2.  With a threshold configured, [run] never returns.  With
    ['root newton'] it stops in [_estimate_flux]; with the other methods
    the flux image is [None], which [_ts_value] subscripts at the first
    pixel ([TypeError]); and with no candidate pixel the unpacking of the
    positions fails. *)
Theorem threshold_run_raises py k d m par t images which s :
  exists e s',
    run ext py {| kernel := k; downsample := d; method := m;
                  parallel := par; threshold := Some t |} images which s
    = (Raise e, s').
Proof.
  apply not_ok_raises. intros res s' Hrun.
  unfold run in Hrun. cbv beta zeta in Hrun. inv_ok Hrun.
  cbn [method threshold parallel kernel] in *.
  match goal with H : unzip_positions _ = Ok _ |- _ =>
    apply unzip_positions_ok in H; destruct H as (Hne & -> & ->) end.
  match goal with H : (if (m =? "root newton")%string then _ else _) _ = _ |- _ =>
    destruct (m =? "root newton")%string;
      [cbn in H; discriminate H | inv_ok H] end.
  match goal with H : (if par then _ else _) _ = (Ok ?r, _) |- _ =>
    assert (Hres : r = ResIter);
      [destruct par; [|destruct py]; inv_ok H; try reflexivity;
       exfalso; eapply threshold_list_raises; eassumption
      | subst r] end.
  match goal with H : foldM _ gathered_images _ _ = _ |- _ =>
    cbn [foldM gathered_images] in H; inv_ok H end.
  match goal with H : gather _ _ ResIter _ _ _ false "ts" _ = _ |- _ =>
    unfold gather in H; inv_ok H end.
  match goal with H : comprehension _ _ ResIter false _ = Ok _ |- _ =>
    cbn [comprehension] in H; apply rbind_ok in H; destruct H as (vs & Hm & _) end.
  eapply threshold_iter_raises; eassumption.
Qed.

(** Were a flux image at hand, the threshold branch would return a tuple,
    which the loop of [run] cannot index by a name. *)
Lemma threshold_tuple_unreadable position counts exposure background c_0_image k flux m t
    gap f n name :
  _ts_value ext position counts exposure background c_0_image k flux m (Some t)
    = Ok (TsTuple gap f n) ->
  (r ← _ts_value ext position counts exposure background c_0_image k flux m (Some t);
   ts_getitem name r) = Raise TypeError.
Proof. intros ->. reflexivity. Qed.

Lemma fancy_assign_nothing a j i :
  j <> [] -> fancy_assign a j i [] = Raise ValueError.
Proof. destruct j; [contradiction|]. reflexivity. Qed.

(** C3.  Without [parallel], under Python 3 [run] never returns: [results]
    is the iterator of [map], the first round of the loop that writes the
    images uses it up, and the second round has no value to write at the
    positions ([ValueError]); with no candidate pixel the unpacking of the
    positions fails before.  The two modes give the same images only
    where [map] returns a list. *)
Theorem serial_python3_raises k d m t images which s :
  exists e s',
    run ext Python3 {| kernel := k; downsample := d; method := m;
                       parallel := false; threshold := t |} images which s
    = (Raise e, s').
Proof.
  apply not_ok_raises. intros res s' Hrun.
  unfold run in Hrun. cbv beta zeta in Hrun. inv_ok Hrun.
  cbn [method threshold parallel kernel] in *.
  match goal with H : unzip_positions _ = Ok _ |- _ =>
    apply unzip_positions_ok in H; destruct H as (Hne & -> & ->) end.
  match goal with H : mret ResIter _ = (Ok ?r, _) |- _ => inv_ok H end.
  match goal with H : foldM _ gathered_images _ _ = _ |- _ =>
    cbn [foldM gathered_images] in H; inv_ok H end.
  match goal with H : gather _ _ ResIter _ _ _ false "ts" _ = (Ok ?c, _) |- _ =>
    assert (Hc : c = true);
      [unfold gather in H; inv_ok H;
       match goal with Hm : comprehension _ _ ResIter false _ = Ok _ |- _ =>
         cbn [comprehension] in Hm; apply rbind_ok in Hm;
         destruct Hm as (vs & _ & Hm); congruence end
      | subst c] end.
  match goal with H : gather _ _ ResIter _ _ _ true "flux" _ = _ |- _ =>
    unfold gather in H; inv_ok H end.
  match goal with H : comprehension _ _ ResIter true _ = Ok (?vs, _) |- _ =>
    cbn [comprehension] in H; assert (vs = []) by congruence; subst vs end.
  match goal with H : fancy_assign _ _ _ [] = Ok _ |- _ =>
    rewrite fancy_assign_nothing in H; [discriminate H|] end.
  destruct (_get_positions _ _); [contradiction|discriminate].
Qed.

(** Under Python 2 the two modes are the same computation. *)
Lemma serial_python2_same k d m t images which s :
  run ext Python2 {| kernel := k; downsample := d; method := m;
                     parallel := false; threshold := t |} images which s
  = run ext Python2 {| kernel := k; downsample := d; method := m;
                       parallel := true; threshold := t |} images which s.
Proof. reflexivity. Qed.

End Aborts.

(* ===================================================================== *)
(** * Order of binary64 numbers *)
(* ===================================================================== *)

Module Order.

Lemma compare_cont_Eq p q : Pos.compare_cont Eq p q = (p ?= q)%positive.
Proof. reflexivity. Qed.

Lemma SFcompare_refl x : x <> S754_nan -> SFcompare x x = Some Eq.
Proof.
  destruct x as [[]|[]| |[] m e]; intros H; try reflexivity; try congruence; cbn;
    rewrite Z.compare_refl, compare_cont_Eq, Pos.compare_refl; reflexivity.
Qed.

Lemma SFcompare_nan x y :
  SFcompare x y = None <-> x = S754_nan \/ y = S754_nan.
Proof.
  destruct x as [[]|[]| |[] m e], y as [[]|[]| |[] m' e']; cbn;
    split; intros H; try discriminate H; try (destruct H; congruence); auto.
Qed.

Ltac cases_compare :=
  repeat match goal with
  | H : context [(?a ?= ?b)%Z] |- _ => destruct (Z.compare_spec a b); cbn in H
  | |- context [(?a ?= ?b)%Z] => destruct (Z.compare_spec a b); cbn
  | H : context [Pos.compare_cont Eq ?p ?q] |- _ =>
      rewrite compare_cont_Eq in H; destruct (Pos.compare_spec p q); cbn in H
  | |- context [Pos.compare_cont Eq ?p ?q] =>
      rewrite compare_cont_Eq; destruct (Pos.compare_spec p q); cbn
  end.

Lemma SFleb_total x y :
  x <> S754_nan -> y <> S754_nan -> SFleb y x = false -> SFleb x y = true.
Proof.
  unfold SFleb.
  destruct x as [[]|[]| |[] m e], y as [[]|[]| |[] m' e']; cbn;
    intros Hx Hy H; try reflexivity; try discriminate H; try congruence;
    cases_compare; subst; try reflexivity; try discriminate H; exfalso; lia.
Qed.

Lemma SFleb_trans x y z : SFleb x y = true -> SFleb y z = true -> SFleb x z = true.
Proof.
  unfold SFleb.
  destruct x as [[]|[]| |[] m1 e1], y as [[]|[]| |[] m2 e2], z as [[]|[]| |[] m3 e3]; cbn;
    intros H1 H2; try reflexivity; try discriminate H1; try discriminate H2;
    cases_compare; subst; try reflexivity; try discriminate H1; try discriminate H2;
    exfalso; lia.
Qed.

Lemma is_nan_spec x : is_nan x = true <-> x = nan.
Proof.
  unfold is_nan. rewrite FloatAxioms.eqb_spec. unfold SFeqb. split.
  - intros H. destruct (SFcompare (Prim2SF x) (Prim2SF x)) as [c|] eqn:E.
    + destruct (Prim2SF x) as [[]|[]| |[] m e] eqn:Ex; try discriminate E;
        try (rewrite SFcompare_refl in E by discriminate; injection E as <-; discriminate H).
    + apply SFcompare_nan in E. change nan with (SF2Prim S754_nan).
      apply IEEE.of_SF. destruct E; assumption.
  - intros ->. reflexivity.
Qed.

Lemma not_nan_SF x : is_nan x = false -> Prim2SF x <> S754_nan.
Proof.
  intros H E. apply IEEE.of_SF in E. change (SF2Prim S754_nan) with nan in E.
  subst x. discriminate H.
Qed.

Lemma leb_total a b :
  is_nan a = false -> is_nan b = false -> (b <=? a) = false -> (a <=? b) = true.
Proof.
  rewrite !FloatAxioms.leb_spec. intros Ha Hb.
  apply SFleb_total; apply not_nan_SF; assumption.
Qed.

Lemma leb_trans a b c : (a <=? b) = true -> (b <=? c) = true -> (a <=? c) = true.
Proof. rewrite !FloatAxioms.leb_spec. apply SFleb_trans. Qed.

Lemma leb_refl a : is_nan a = false -> (a <=? a) = true.
Proof.
  intros H. rewrite FloatAxioms.leb_spec. unfold SFleb.
  rewrite SFcompare_refl by (apply not_nan_SF; exact H). reflexivity.
Qed.

Lemma eqb_refl a : is_nan a = false -> (a =? a) = true.
Proof. unfold is_nan. destruct (a =? a); [reflexivity|discriminate]. Qed.

End Order.

(* ===================================================================== *)
(** * The maximum over the scales *)
(* ===================================================================== *)

Section PixelMax.

(** The maximum of the values of one pixel, as [np.max] folds it. *)
Definition pixel_max (t : float) (ts : list float) : float := fold_left np_maximum ts t.

Lemma np_maximum_nan_l x : np_maximum nan x = nan.
Proof. unfold np_maximum. rewrite IEEE.leb_nan_r. reflexivity. Qed.

Lemma pixel_max_nan ts : pixel_max nan ts = nan.
Proof.
  induction ts as [|x ts IH]; [reflexivity|].
  cbn. rewrite np_maximum_nan_l. exact IH.
Qed.

Lemma np_maximum_nan_r t : is_nan t = false -> np_maximum t nan = nan.
Proof.
  intros H. unfold np_maximum. rewrite IEEE.leb_nan_l, H. reflexivity.
Qed.

Lemma pixel_max_has_nan t ts :
  is_nan t = true \/ In nan ts -> pixel_max t ts = nan.
Proof.
  revert t. induction ts as [|x ts IH]; intros t [H|H].
  - apply Order.is_nan_spec in H. exact H.
  - destruct H.
  - apply Order.is_nan_spec in H. subst t. apply pixel_max_nan.
  - cbn. destruct H as [-> | H].
    + destruct (is_nan t) eqn:Et.
      * apply Order.is_nan_spec in Et. subst t. apply pixel_max_nan.
      * unfold pixel_max in IH. rewrite (np_maximum_nan_r t Et). apply pixel_max_nan.
    + apply IH. right. exact H.
Qed.

Lemma pixel_max_upper t ts :
  is_nan t = false -> Forall (fun x => is_nan x = false) ts ->
  is_nan (pixel_max t ts) = false /\
  (t <=? pixel_max t ts) = true /\
  Forall (fun x => (x <=? pixel_max t ts) = true) ts /\
  (pixel_max t ts = t \/ In (pixel_max t ts) ts).
Proof.
  intros Ht Hts. revert t Ht. induction Hts as [|x ts Hx Hts IH]; intros t Ht.
  - cbn. repeat split; auto. apply Order.leb_refl. exact Ht.
  - cbn [pixel_max fold_left]. fold (pixel_max (np_maximum t x) ts).
    unfold np_maximum at 1 2 3 4 5. rewrite Ht, orb_false_r.
    destruct (x <=? t) eqn:E.
    + destruct (IH t Ht) as (Hn & Hle & Hall & Hin).
      repeat split; auto.
      * constructor; [|exact Hall]. eapply Order.leb_trans; eauto.
      * destruct Hin; [left | right; right]; assumption.
    + destruct (IH x Hx) as (Hn & Hle & Hall & Hin).
      pose proof (Order.leb_total t x Ht Hx E) as Htx.
      repeat split; auto.
      * eapply Order.leb_trans; eauto.
      * destruct Hin as [Hin|Hin]; right; [left; congruence | right; exact Hin].
Qed.

(** The value kept by the loop over the scales: that of the last
    candidate whose [ts] equals the maximum, or the initial one. *)
Definition select_last {A} (M : float) (cands : list (float * A)) (init : A) : A :=
  fold_left (fun acc c => if fst c =? M then snd c else acc) cands init.

Lemma select_last_none {A} M (cands : list (float * A)) init :
  (forall c, In c cands -> (fst c =? M) = false) -> select_last M cands init = init.
Proof.
  revert init. induction cands as [|c cands IH]; intros init H; [reflexivity|].
  cbn. rewrite (H c) by (left; reflexivity). apply IH.
  intros c' Hc'. apply H. right. exact Hc'.
Qed.

Lemma select_last_at {A} M (cands : list (float * A)) init k t v :
  cands !! k = Some (t, v) -> (t =? M) = true ->
  (forall k' c, (k < k')%nat -> cands !! k' = Some c -> (fst c =? M) = false) ->
  select_last M cands init = v.
Proof.
  revert init k. induction cands as [|c cands IH]; intros init k Hk Ht Hlast;
    [discriminate Hk|].
  destruct k as [|k]; cbn in Hk |- *.
  - injection Hk as ->. cbn. rewrite Ht. apply select_last_none.
    intros c Hc. apply list_elem_of_In, list_elem_of_lookup in Hc.
    destruct Hc as [k' Hk']. apply (Hlast (S k')); [lia | exact Hk'].
  - apply (IH _ k); [exact Hk | exact Ht |].
    intros k' c' Hlt Hk'. apply (Hlast (S k')); [lia | exact Hk'].
Qed.

Lemma last_match {A} M (cands : list (float * A)) :
  (exists c, In c cands /\ (fst c =? M) = true) ->
  exists k t v, cands !! k = Some (t, v) /\ (t =? M) = true /\
    forall k' c, (k < k')%nat -> cands !! k' = Some c -> (fst c =? M) = false.
Proof.
  induction cands as [|c cands IH]; intros (c0 & Hin & Hc0); [destruct Hin|].
  destruct (existsb (fun c => fst c =? M) cands) eqn:E.
  - apply existsb_exists in E. destruct (IH E) as (k & t & v & Hk & Ht & Hlast).
    exists (S k), t, v. repeat split; auto.
    intros [|k'] c' Hlt Hk'; [lia|]. apply (Hlast k'); [lia | exact Hk'].
  - assert (Hnone : forall c', In c' cands -> (fst c' =? M) = false).
    { intros c' Hc'. destruct (fst c' =? M) eqn:E'; [|reflexivity].
      assert (existsb (fun c => fst c =? M) cands = true)
        by (apply existsb_exists; eauto).
      congruence. }
    destruct Hin as [-> | Hin]; [|rewrite (Hnone c0 Hin) in Hc0; discriminate].
    destruct c0 as [t v]. exists 0%nat, t, v. repeat split; auto.
    intros [|k'] c' Hlt Hk'; [lia|]. apply Hnone.
    apply list_elem_of_In. eapply list_elem_of_lookup_2. exact Hk'.
Qed.

End PixelMax.

Section MaxArrays.

#[local] Open Scope nat_scope.

Lemma mapR_map {A B} (f : A -> result B) (g : A -> B) (l : list A) :
  (forall x, In x l -> f x = Ok (g x)) -> mapR f l = Ok (map g l).
Proof.
  induction l as [|x l IH]; intros H; [reflexivity|].
  cbn. rewrite (H x) by (left; reflexivity). cbn.
  rewrite IH by (intros y Hy; apply H; right; exact Hy). reflexivity.
Qed.

Lemma lookup_zip_seq {A} (l : list A) k x :
  l !! k = Some x -> zip (seq 0 (length l)) l !! k = Some (k, x).
Proof.
  intros H. rewrite lookup_zip_with.
  rewrite lookup_seq_lt by (eapply lookup_lt_Some; eauto).
  rewrite H. reflexivity.
Qed.

Lemma in_zip_seq {A} (l : list A) k x :
  In (k, x) (zip (seq 0 (length l)) l) -> l !! k = Some x.
Proof.
  intros H. apply list_elem_of_In, list_elem_of_lookup in H. destruct H as [n Hn].
  rewrite lookup_zip_with in Hn.
  destruct (seq 0 (length l) !! n) as [k'|] eqn:Ek; [|discriminate Hn].
  destruct (l !! n) as [x'|] eqn:El; [|discriminate Hn].
  cbn in Hn. injection Hn as <- <-.
  apply lookup_seq in Ek. destruct Ek as [-> _]. exact El.
Qed.

(** The element that [dst[index] = src[index]] leaves at one place. *)
Definition assigned {A} (c : bool) (src dst : A) : A := if c then src else dst.

Lemma assign_where_rect {A} h w (cond : array2 bool) (src dst : array2 A) :
  rect h w cond -> rect h w src -> rect h w dst ->
  exists dst', assign_where cond src dst = Ok dst' /\ rect h w dst' /\
    forall j i c x d, get2 cond j i = Some c -> get2 src j i = Some x ->
      get2 dst j i = Some d -> get2 dst' j i = Some (assigned c x d).
Proof.
  intros Rc Rs Rd.
  set (g_in := fun (j : nat) (ix : nat * A) =>
                 match get2 cond j (fst ix) with
                 | Some true => match get2 src j (fst ix) with
                                | Some v => v | None => snd ix end
                 | _ => snd ix
                 end).
  set (g_row := fun (jr : nat * list A) =>
                  map (g_in (fst jr)) (zip (seq 0 (length (snd jr))) (snd jr))).
  assert (Hrow : forall j r, dst !! j = Some r -> length r = w).
  { intros j r Hr. destruct Rd as [_ Hf]. rewrite Forall_forall in Hf.
    apply Hf. eapply list_elem_of_lookup_2; eauto. }
  assert (E : assign_where cond src dst = Ok (map g_row (zip (seq 0 (length dst)) dst))).
  { unfold assign_where. apply mapR_map. intros [j r] Hjr. cbn [fst snd].
    apply in_zip_seq in Hjr. unfold g_row. cbn [fst snd].
    apply mapR_map. intros [i d] Hid. cbn [fst snd].
    apply in_zip_seq in Hid. unfold g_in. cbn [fst snd].
    destruct (get2 cond j i) as [[|]|]; try reflexivity.
    assert (Hj : j < h) by (destruct Rd as [<- _]; eapply lookup_lt_Some; eauto).
    assert (Hi : i < w) by (rewrite <- (Hrow j r Hjr); eapply lookup_lt_Some; eauto).
    destruct (get2_rect h w src j i Rs Hj Hi) as [v ->]. reflexivity. }
  eexists. split; [exact E|]. split.
  - split.
    + rewrite length_map, length_zip_with, length_seq. destruct Rd. lia.
    + apply Forall_forall. intros r Hr. apply list_elem_of_In, in_map_iff in Hr.
      destruct Hr as ([j r0] & <- & Hin). apply in_zip_seq in Hin.
      unfold g_row. cbn [fst snd].
      rewrite length_map, length_zip_with, length_seq, (Hrow j r0 Hin). lia.
  - intros j i c x d Hc Hx Hd. unfold get2 in Hd |- *.
    destruct (dst !! j) as [r|] eqn:Er; [|discriminate Hd]. cbn in Hd.
    rewrite lookup_map, (lookup_zip_seq dst j r Er). cbn.
    unfold g_row. cbn [fst snd].
    rewrite lookup_map, (lookup_zip_seq r i d Hd). cbn.
    unfold g_in. cbn [fst snd]. rewrite Hc, Hx. destruct c; reflexivity.
Qed.

Lemma rect_np_full {A} h w (v : A) : rect h w (np_full h w v).
Proof.
  unfold np_full. split.
  - apply length_replicate.
  - apply Forall_forall. intros r Hr. apply elem_of_replicate in Hr.
    destruct Hr as [-> _]. apply length_replicate.
Qed.

Lemma get2_np_full {A} h w (v : A) j i :
  j < h -> i < w -> get2 (np_full h w v) j i = Some v.
Proof.
  intros Hj Hi. unfold get2, np_full.
  rewrite lookup_replicate_2 by exact Hj. cbn.
  apply lookup_replicate_2. exact Hi.
Qed.

End MaxArrays.

Section MaxTheorem.

#[local] Open Scope nat_scope.

(** The arrays of a result have the shape [h] by [w]. *)
Definition wf_result (h w : nat) (r : scale_result) : Prop :=
  rect h w (r_ts r) /\ rect h w (r_niter r) /\ rect h w (r_amplitude r).

(** The values of one result at a pixel: [ts], then scale, [niter] and
    amplitude. *)
Definition pix (j i : nat) (r : scale_result) (c : float * (float * float * float)) : Prop :=
  get2 (r_ts r) j i = Some (fst c) /\
  r_scale r = fst (fst (snd c)) /\
  get2 (r_niter r) j i = Some (snd (fst (snd c))) /\
  get2 (r_amplitude r) j i = Some (snd (snd c)).

Lemma pix_exists h w results j i :
  Forall (wf_result h w) results -> j < h -> i < w ->
  exists cands, Forall2 (pix j i) results cands.
Proof.
  intros Hwf Hj Hi. induction Hwf as [|r results (Rt & Rn & Ra) _ [cands IH]].
  - exists []. constructor.
  - destruct (get2_rect h w _ j i Rt Hj Hi) as [t Ht].
    destruct (get2_rect h w _ j i Rn Hj Hi) as [n Hn].
    destruct (get2_rect h w _ j i Ra Hj Hi) as [a Ha].
    exists ((t, (r_scale r, n, a)) :: cands). constructor; [|exact IH].
    repeat split; assumption.
Qed.

Lemma max_axis2_get h w first rest j i t0 ts :
  rect h w first -> Forall (rect h w) rest ->
  get2 first j i = Some t0 ->
  Forall2 (fun a t => get2 a j i = Some t) rest ts ->
  rect h w (max_axis2 first rest) /\
  get2 (max_axis2 first rest) j i = Some (pixel_max t0 ts).
Proof.
  intros Rf Rr. revert first Rf t0 ts.
  induction Rr as [|a rest Ra Rr IH]; intros first Rf t0 ts H0 Hts.
  - inversion Hts; subst. split; [exact Rf | exact H0].
  - inversion Hts as [|? t ? ts' Ht Hts']; subst.
    change (pixel_max t0 (t :: ts')) with (pixel_max (np_maximum t0 t) ts').
    cbn [max_axis2 fold_left]. apply IH.
    + apply rect_zip_with; assumption.
    + apply get2_zip_with; assumption.
    + exact Hts'.
Qed.

Lemma max_step_get h w ts_max st r j i M c s0 n0 a0 :
  rect h w ts_max -> wf_result h w r ->
  rect h w (scale_max st) -> rect h w (niter_max st) -> rect h w (amplitude_max st) ->
  get2 ts_max j i = Some M -> pix j i r c ->
  get2 (scale_max st) j i = Some s0 -> get2 (niter_max st) j i = Some n0 ->
  get2 (amplitude_max st) j i = Some a0 ->
  exists st', max_step ts_max st r = Ok st' /\
    rect h w (scale_max st') /\ rect h w (niter_max st') /\ rect h w (amplitude_max st') /\
    get2 (scale_max st') j i = Some (assigned (fst c =? M)%float (fst (fst (snd c))) s0) /\
    get2 (niter_max st') j i = Some (assigned (fst c =? M)%float (snd (fst (snd c))) n0) /\
    get2 (amplitude_max st') j i = Some (assigned (fst c =? M)%float (snd (snd c)) a0).
Proof.
  intros Rm (Rt & Rn & Ra) Rs0 Rn0 Ra0 HM (Ht & Hs & Hn & Ha) Hs0 Hn0 Ha0.
  unfold max_step.
  assert (Rc : rect h w (zip_with (zip_with PrimFloat.eqb) (r_ts r) ts_max))
    by (apply rect_zip_with; assumption).
  assert (Hc : get2 (zip_with (zip_with PrimFloat.eqb) (r_ts r) ts_max) j i
               = Some (fst c =? M)%float) by (apply get2_zip_with; assumption).
  destruct (assign_where_rect h w _ (np_map (fun _ => r_scale r) (r_ts r)) _ Rc
              (rect_np_map _ h w _ Rt) Rs0) as (s' & -> & Rs' & Hs').
  destruct (assign_where_rect h w _ (r_niter r) _ Rc Rn Rn0) as (n' & -> & Rn' & Hn').
  destruct (assign_where_rect h w _ (r_amplitude r) _ Rc Ra Ra0) as (a' & -> & Ra' & Ha').
  eexists. split; [reflexivity|]. cbn [scale_max niter_max amplitude_max].
  split; [exact Rs'|]. split; [exact Rn'|]. split; [exact Ra'|].
  split; [|split].
  - apply Hs'; try assumption. rewrite get2_np_map, Ht, Hs. reflexivity.
  - apply Hn'; assumption.
  - apply Ha'; assumption.
Qed.

Lemma max_fold_get h w ts_max results j i M cands :
  rect h w ts_max -> Forall (wf_result h w) results ->
  get2 ts_max j i = Some M -> Forall2 (pix j i) results cands ->
  forall st s0 n0 a0,
  rect h w (scale_max st) -> rect h w (niter_max st) -> rect h w (amplitude_max st) ->
  get2 (scale_max st) j i = Some s0 -> get2 (niter_max st) j i = Some n0 ->
  get2 (amplitude_max st) j i = Some a0 ->
  exists st', max_fold ts_max results st = Ok st' /\
    get2 (scale_max st') j i
      = Some (select_last M (map (fun c => (fst c, fst (fst (snd c)))) cands) s0) /\
    get2 (niter_max st') j i
      = Some (select_last M (map (fun c => (fst c, snd (fst (snd c)))) cands) n0) /\
    get2 (amplitude_max st') j i
      = Some (select_last M (map (fun c => (fst c, snd (snd c))) cands) a0).
Proof.
  intros Rm Hwf HM Hc. revert Hwf.
  induction Hc as [|r c results cands Hrc Hc IH]; intros Hwf st s0 n0 a0 Rs Rn Ra Hs Hn Ha.
  - exists st. cbn. auto.
  - inversion Hwf as [|? ? Hr Hwf']; subst.
    destruct (max_step_get h w ts_max st r j i M c s0 n0 a0 Rm Hr Rs Rn Ra HM Hrc Hs Hn Ha)
      as (st1 & E1 & Rs1 & Rn1 & Ra1 & Hs1 & Hn1 & Ha1).
    destruct (IH Hwf' st1 _ _ _ Rs1 Rn1 Ra1 Hs1 Hn1 Ha1) as (st' & E' & Hs' & Hn' & Ha').
    exists st'. cbn [max_fold]. rewrite E1. cbn. split; [exact E'|].
    cbn [map select_last fold_left fst snd]. auto.
Qed.

End MaxTheorem.

Section MaxFinal.

#[local] Open Scope nat_scope.

Lemma stackable_wf h w results (f : scale_result -> ndarray) :
  results <> [] -> Forall (fun r => rect h w (f r)) results -> stackable results f = true.
Proof.
  intros Hne Hwf. destruct results as [|r rest]; [contradiction|].
  cbn. inversion Hwf as [|? ? Hr Hrest]; subst.
  apply forallb_forall. intros r' Hr'. rewrite Forall_forall in Hrest.
  apply (rect_same_shape h w); [apply Hrest, list_elem_of_In; exact Hr' | exact Hr].
Qed.

Lemma Forall2_lookup_pix j i results cands k c :
  Forall2 (pix j i) results cands -> cands !! k = Some c ->
  exists r, results !! k = Some r /\ pix j i r c.
Proof.
  intros H. revert k. induction H as [|r c' results cands Hrc H IH]; intros k Hk;
    [discriminate Hk|].
  destruct k as [|k]; cbn in Hk |- *.
  - injection Hk as ->. eauto.
  - apply IH. exact Hk.
Qed.

Lemma Forall2_pix_in j i results cands r t :
  Forall2 (pix j i) results cands -> In r results -> get2 (r_ts r) j i = Some t ->
  In t (map fst cands).
Proof.
  intros H. induction H as [|r' c results cands (Ht & _) H IH]; intros Hin Hrt;
    [destruct Hin|].
  destruct Hin as [-> | Hin].
  - left. congruence.
  - right. apply IH; assumption.
Qed.

Lemma Forall2_pix_ts j i results cands c :
  Forall2 (pix j i) results cands -> In c cands ->
  exists r, In r results /\ get2 (r_ts r) j i = Some (fst c).
Proof.
  intros H. induction H as [|r' c' results cands (Ht & _) H IH]; intros Hin;
    [destruct Hin|].
  destruct Hin as [-> | Hin].
  - exists r'. split; [left; reflexivity | exact Ht].
  - destruct (IH Hin) as (r & Hr & Hrt). exists r. split; [right; exact Hr | exact Hrt].
Qed.

Lemma max_fold_ok h w ts_max results :
  rect h w ts_max -> Forall (wf_result h w) results ->
  forall st,
  rect h w (scale_max st) -> rect h w (niter_max st) -> rect h w (amplitude_max st) ->
  exists st', max_fold ts_max results st = Ok st'.
Proof.
  intros Rm Hwf. induction Hwf as [|r results (Rt & Rn & Ra) Hwf IH]; intros st Rs0 Rn0 Ra0.
  - exists st. reflexivity.
  - cbn [max_fold]. unfold max_step.
    assert (Rc : rect h w (zip_with (zip_with PrimFloat.eqb) (r_ts r) ts_max))
      by (apply rect_zip_with; assumption).
    destruct (assign_where_rect h w _ (np_map (fun _ => r_scale r) (r_ts r)) _ Rc
                (rect_np_map _ h w _ Rt) Rs0) as (s' & -> & Rs' & _).
    destruct (assign_where_rect h w _ (r_niter r) _ Rc Rn Rn0) as (n' & -> & Rn' & _).
    destruct (assign_where_rect h w _ (r_amplitude r) _ Rc Ra Ra0) as (a' & -> & Ra' & _).
    cbn. apply IH; assumption.
Qed.

Lemma rect_max_axis2 h w first rest :
  rect h w first -> Forall (rect h w) rest -> rect h w (max_axis2 first rest).
Proof.
  intros Rf Rr. revert first Rf.
  induction Rr as [|a l Ra Rl IH]; intros f Rf; [exact Rf|].
  cbn. apply IH. apply rect_zip_with; assumption.
Qed.

Lemma rect_shape {A} h w (a : array2 A) :
  rect h w a -> np_full (nrows a) (ncols a) 0%float = np_full h (if h =? 0 then 0 else w) 0%float.
Proof.
  intros R. destruct (Nat.eq_dec h 0) as [-> | Hh].
  - destruct R as [Hl _]. apply nil_length_inv in Hl. subst a. reflexivity.
  - rewrite (rect_ncols h w a R Hh). unfold nrows. destruct R as [Hl _]. rewrite Hl.
    destruct h; [contradiction|]. reflexivity.
Qed.

(** C8, amended.  For a list of results that is not empty, all images of
    one shape, [compute_maximum_ts_image] returns images such that at every
    pixel: [ts] is the maximum [M] that [np.max] finds over the scales,
    rounded to binary32.  Where no scale has a not-a-number [ts], [M] is at
    least the [ts] of every scale, and [niter] (cast to int16) and
    [amplitude] (rounded to binary32) are those of the last scale of the
    list whose [ts] equals [M]; so is the scale, which the loop keeps in
    [scale_max] but the function does not return.  Where a scale has a
    not-a-number [ts], [M] is not a number, and [niter], [amplitude] and
    [scale_max] stay 0. *)
Theorem maximum_ts_image (results : list scale_result) (h w : nat) :
  results <> [] -> Forall (wf_result h w) results ->
  exists out st ts_max,
    compute_maximum_ts_image results = Ok out /\
    max_loop ts_max results = Ok st /\
    max_ts out = np_map astype_float32 ts_max /\
    (forall first, head results = Some first -> max_morph out = r_morphology first) /\
    forall j i, j < h -> i < w ->
      exists M, get2 ts_max j i = Some M /\
        get2 (max_ts out) j i = Some (astype_float32 M) /\
        ((forall r t, In r results -> get2 (r_ts r) j i = Some t -> is_nan t = false) ->
         (forall r t, In r results -> get2 (r_ts r) j i = Some t -> (t <=? M)%float = true) /\
         exists k r t n a,
           results !! k = Some r /\ get2 (r_ts r) j i = Some t /\ (t =? M)%float = true /\
           (forall k' r' t', k < k' -> results !! k' = Some r' ->
              get2 (r_ts r') j i = Some t' -> (t' =? M)%float = false) /\
           get2 (r_niter r) j i = Some n /\ get2 (r_amplitude r) j i = Some a /\
           get2 (max_niter out) j i = Some (astype_int16 n) /\
           get2 (max_amplitude out) j i = Some (astype_float32 a) /\
           get2 (scale_max st) j i = Some (r_scale r)) /\
        ((exists r, In r results /\ get2 (r_ts r) j i = Some nan) ->
         M = nan /\ get2 (max_niter out) j i = Some 0%Z /\
         get2 (max_amplitude out) j i = Some 0%float /\
         get2 (scale_max st) j i = Some 0%float).
Proof.
  intros Hne Hwf.
  assert (Hst : stackable results r_ts && stackable results r_niter
                && stackable results r_amplitude = true).
  { rewrite !(stackable_wf h w); try assumption; try reflexivity;
      eapply Forall_impl; try exact Hwf; intros r (Rt & Rn & Ra); assumption. }
  destruct results as [|first rest] eqn:Eres; [contradiction|].
  set (ts_max := max_axis2 (r_ts first) (map r_ts rest)).
  inversion Hwf as [|? ? (Rt & Rn & Ra) Hwf']; subst.
  assert (Rrest : Forall (rect h w) (map r_ts rest)).
  { apply Forall_map. eapply Forall_impl; [exact Hwf'|]. intros r (R & _); exact R. }
  assert (Rm : rect h w ts_max) by (apply rect_max_axis2; assumption).
  assert (Rz : rect h w (np_full (nrows ts_max) (ncols ts_max) 0%float)).
  { rewrite (rect_shape h w ts_max Rm). destruct (Nat.eq_dec h 0) as [-> | Hh].
    - split; [reflexivity | constructor].
    - destruct h; [contradiction|]. cbn [Nat.eqb]. apply rect_np_full. }
  destruct (max_fold_ok h w ts_max (first :: rest) Rm Hwf
              {| scale_max := np_full (nrows ts_max) (ncols ts_max) 0%float;
                 niter_max := np_full (nrows ts_max) (ncols ts_max) 0%float;
                 amplitude_max := np_full (nrows ts_max) (ncols ts_max) 0%float |} Rz Rz Rz)
    as [st Est].
  exists {| max_ts := np_map astype_float32 ts_max;
            max_niter := np_map astype_int16 (niter_max st);
            max_amplitude := np_map astype_float32 (amplitude_max st);
            max_morph := r_morphology first |}, st, ts_max.
  split.
  { unfold compute_maximum_ts_image. rewrite Hst. cbn [negb].
    fold ts_max. unfold max_loop at 1. rewrite Est. reflexivity. }
  split; [exact Est|]. split; [reflexivity|].
  split; [intros f [= <-]; reflexivity|].
  intros j i Hj Hi. cbn [max_ts max_niter max_amplitude].
  destruct (pix_exists h w (first :: rest) j i Hwf Hj Hi) as [cands Hc].
  inversion Hc as [|? c0 ? crest Hc0 Hcrest]; subst.
  assert (Hts : Forall2 (fun a t => get2 a j i = Some t) (map r_ts rest) (map fst crest)).
  { clear -Hcrest. induction Hcrest as [|r c rs cs (Ht & _) _ IH]; cbn; constructor; auto. }
  destruct Hc0 as (Ht0 & Hs0 & Hn0 & Ha0).
  destruct (max_axis2_get h w (r_ts first) (map r_ts rest) j i (fst c0) (map fst crest)
              Rt Rrest Ht0 Hts) as [_ HM].
  fold ts_max in HM. set (M := pixel_max (fst c0) (map fst crest)) in *.
  assert (Hz : get2 (np_full (nrows ts_max) (ncols ts_max) 0%float) j i = Some 0%float).
  { rewrite (rect_shape h w ts_max Rm). destruct h; [lia|]. cbn [Nat.eqb].
    apply get2_np_full; lia. }
  destruct (max_fold_get h w ts_max (first :: rest) j i M (c0 :: crest) Rm Hwf HM Hc
              {| scale_max := np_full (nrows ts_max) (ncols ts_max) 0%float;
                 niter_max := np_full (nrows ts_max) (ncols ts_max) 0%float;
                 amplitude_max := np_full (nrows ts_max) (ncols ts_max) 0%float |}
              0%float 0%float 0%float Rz Rz Rz Hz Hz Hz) as (st' & Est' & Hsc & Hni & Ham).
  unfold max_loop in Est. rewrite Est in Est'.
  assert (st' = st) by congruence. subst st'. clear Est'.
  exists M. split; [exact HM|]. split; [rewrite get2_np_map, HM; reflexivity|].
  rewrite !get2_np_map, Hni, Ham, Hsc. cbn [fmap option_fmap option_map].
  split.
  - intros Hnn.
    assert (Hall : Forall (fun x => is_nan x = false) (map fst (c0 :: crest))).
    { apply Forall_forall. intros t Ht. apply list_elem_of_In, in_map_iff in Ht.
      destruct Ht as (c & <- & Hin).
      destruct (Forall2_pix_ts j i _ _ c Hc Hin) as (r & Hr & Hrt). eapply Hnn; eauto. }
    cbn [map] in Hall. inversion Hall as [|? ? Hn0' Hrest']; subst.
    destruct (pixel_max_upper (fst c0) (map fst crest) Hn0' Hrest')
      as (HnM & Hle0 & Hle & Hin).
    fold M in HnM, Hle0, Hle, Hin.
    split.
    + intros r t Hr Hrt.
      pose proof (Forall2_pix_in j i _ _ r t Hc Hr Hrt) as Hin'.
      cbn [map] in Hin'. destruct Hin' as [<- | Hin']; [exact Hle0|].
      rewrite Forall_forall in Hle. apply Hle, list_elem_of_In. exact Hin'.
    + assert (Hex : exists c, In c (c0 :: crest) /\ (fst c =? M)%float = true).
      { destruct Hin as [Hin | Hin].
        - exists c0. split; [left; reflexivity|]. rewrite <- Hin.
          apply Order.eqb_refl. exact HnM.
        - apply in_map_iff in Hin. destruct Hin as (c & Hc' & Hin).
          exists c. split; [right; exact Hin|]. rewrite Hc'. apply Order.eqb_refl. exact HnM. }
      destruct (last_match M (c0 :: crest) Hex) as (k & t & v & Hk & Ht & Hlast).
      destruct (Forall2_lookup_pix j i _ _ k _ Hc Hk) as (r & Hr & Hrt & Hrs & Hrn & Hra).
      cbn [fst snd] in *.
      exists k, r, t, (snd (fst v)), (snd v).
      split; [exact Hr|]. split; [exact Hrt|]. split; [exact Ht|].
      split.
      { intros k' r' t' Hlt Hr' Hrt'.
        assert (Hlen : k' < length (c0 :: crest)).
        { rewrite <- (Forall2_length _ _ _ Hc). eapply lookup_lt_Some; eauto. }
        destruct (lookup_lt_is_Some_2 _ _ Hlen) as [c' Hc'].
        destruct (Forall2_lookup_pix j i _ _ k' _ Hc Hc') as (r'' & Hr'' & Hrt'' & _).
        assert (r'' = r') by congruence. subst r''.
        assert (t' = fst c') by congruence. subst t'.
        eapply Hlast; eauto. }
      split; [exact Hrn|]. split; [exact Hra|].
      split; [|split].
      * f_equal. f_equal.
        apply (select_last_at M _ _ k t (snd (fst v))); [|exact Ht|].
        -- rewrite lookup_map, Hk. reflexivity.
        -- intros k' c' Hlt Hk'. rewrite lookup_map in Hk'.
           destruct ((c0 :: crest) !! k') as [c''|] eqn:E; [|discriminate Hk'].
           injection Hk' as <-. cbn [fst]. eapply Hlast; eauto.
      * f_equal. f_equal.
        apply (select_last_at M _ _ k t (snd v)); [|exact Ht|].
        -- rewrite lookup_map, Hk. reflexivity.
        -- intros k' c' Hlt Hk'. rewrite lookup_map in Hk'.
           destruct ((c0 :: crest) !! k') as [c''|] eqn:E; [|discriminate Hk'].
           injection Hk' as <-. cbn [fst]. eapply Hlast; eauto.
      * f_equal. rewrite Hrs.
        apply (select_last_at M _ _ k t (fst (fst v))); [|exact Ht|].
        -- rewrite lookup_map, Hk. reflexivity.
        -- intros k' c' Hlt Hk'. rewrite lookup_map in Hk'.
           destruct ((c0 :: crest) !! k') as [c''|] eqn:E; [|discriminate Hk'].
           injection Hk' as <-. cbn [fst]. eapply Hlast; eauto.
  - intros (r & Hr & Hrt).
    assert (HMn : M = nan).
    { unfold M. apply pixel_max_has_nan.
      pose proof (Forall2_pix_in j i _ _ r nan Hc Hr Hrt) as Hin.
      cbn [map] in Hin.
      destruct Hin as [Hin | Hin]; [left; rewrite Hin; reflexivity | right; exact Hin]. }
    split; [exact HMn|].
    assert (Hnone : forall A (f : float * (float * float * float) -> A) (init : A),
               select_last M (map (fun c => (fst c, f c)) (c0 :: crest)) init = init).
    { intros A f init. apply select_last_none. intros c Hin.
      rewrite HMn. apply IEEE.eqb_nan_r. }
    rewrite (Hnone _ (fun c => snd (fst (snd c)))), (Hnone _ (fun c => snd (snd c))),
            (Hnone _ (fun c => fst (fst (snd c)))).
    repeat split; reflexivity.
Qed.

End MaxFinal.

Module MaxExample.

(** Two scales on an image of one row and two pixels.  At the first pixel
    the first scale has the larger [ts]; at the second pixel neither scale
    has a [ts] (a pixel that was not fitted). *)
Definition scale_a : scale_result :=
  {| r_ts := [[0.1; nan]]; r_niter := [[3; 4]]; r_amplitude := [[2.5; 1.5]];
     r_scale := 0.1; r_morphology := "Gaussian2D" |}.

Definition scale_b : scale_result :=
  {| r_ts := [[0.05; nan]]; r_niter := [[5; 6]]; r_amplitude := [[3.5; 4.5]];
     r_scale := 0.2; r_morphology := "Gaussian2D" |}.

End MaxExample.

Lemma maximum_ts_image_witness :
  exists out,
    compute_maximum_ts_image [MaxExample.scale_a; MaxExample.scale_b] = Ok out /\
    max_morph out = "Gaussian2D"%string /\
    get2 (max_niter out) 0 0 = Some 3%Z.
Proof.
  destruct (maximum_ts_image [MaxExample.scale_a; MaxExample.scale_b] 1 2)
    as (out & st & ts_max & Hc & _ & _ & Hm & _).
  - discriminate.
  - repeat constructor.
  - exists out. split; [exact Hc|]. split; [exact (Hm MaxExample.scale_a eq_refl)|].
    revert Hc. vm_compute. intros H.
    apply (f_equal (fun r => match r with
                             | Ok o => get2 (max_niter o) 0 0
                             | Raise _ => None end)) in H.
    cbn in H. symmetry. exact H.
Defined.

(** C8 as stated fails at both pixels of the example.  At the first, the
    composite [ts] is the maximum [0.1] rounded to binary32, which is not
    [0.1].  At the second, where both scales have a not-a-number [ts], the
    composite [niter] and [amplitude] are 0, which is the value of neither
    scale. *)
Lemma maximum_ts_counterexample :
  exists out,
    compute_maximum_ts_image [MaxExample.scale_a; MaxExample.scale_b] = Ok out /\
    get2 (max_ts out) 0 0 = Some (astype_float32 0.1) /\
    (astype_float32 0.1 =? 0.1) = false /\
    get2 (max_amplitude out) 0 1 = Some 0 /\
    get2 (max_niter out) 0 1 = Some 0%Z /\
    get2 (r_amplitude MaxExample.scale_a) 0 1 = Some 1.5 /\
    get2 (r_amplitude MaxExample.scale_b) 0 1 = Some 4.5 /\
    get2 (r_niter MaxExample.scale_a) 0 1 = Some 4 /\
    get2 (r_niter MaxExample.scale_b) 0 1 = Some 6.
Proof.
  eexists. split; [vm_compute; reflexivity|].
  repeat split; reflexivity.
Qed.

(* ===================================================================== *)
(** * Slices around a pixel *)
(* ===================================================================== *)

Section Slices.

#[local] Open Scope Z_scope.

Lemma py_slice_length {A} (lo hi : Z) (l : list A) :
  0 <= lo <= hi -> hi <= Z.of_nat (length l) ->
  length (py_slice lo hi l) = Z.to_nat (hi - lo).
Proof.
  intros Hlo Hhi. unfold py_slice, slice_index.
  destruct (Z.ltb_spec lo 0); [lia|]. destruct (Z.ltb_spec hi 0); [lia|].
  rewrite length_take, length_drop. lia.
Qed.

Lemma py_slice_lookup {A} (lo hi : Z) (l : list A) (n : nat) :
  0 <= lo <= hi -> hi <= Z.of_nat (length l) -> (n < Z.to_nat (hi - lo))%nat ->
  py_slice lo hi l !! n = l !! (Z.to_nat lo + n)%nat.
Proof.
  intros Hlo Hhi Hn. unfold py_slice, slice_index.
  destruct (Z.ltb_spec lo 0); [lia|]. destruct (Z.ltb_spec hi 0); [lia|].
  rewrite lookup_take_lt by lia. rewrite lookup_drop. f_equal. lia.
Qed.

(** The slice around an interior position of an image has the size of an
    odd square kernel. *)
Lemma _extract_array_rect {A} (h w : nat) (k : nat) (a : array2 A) (kw : Z) (p : Z * Z) :
  rect h w a ->
  Z.of_nat k <= fst p -> fst p + Z.of_nat k < Z.of_nat h ->
  Z.of_nat k <= snd p -> snd p + Z.of_nat k < Z.of_nat w ->
  rect (2 * k + 1) (2 * k + 1) (_extract_array a (Z.of_nat (2 * k + 1), kw) p).
Proof.
  intros [Hl Hf] Hy1 Hy2 Hx1 Hx2. unfold _extract_array, slice2, floordiv2. cbn [fst snd].
  replace (Z.of_nat (2 * k + 1) / 2) with (Z.of_nat k)
    by (apply Z.div_unique with (r := 1); lia).
  split.
  - rewrite length_map, py_slice_length; lia.
  - apply Forall_map. apply Forall_forall. intros r Hr. cbn.
    assert (Hrw : length r = w).
    { rewrite Forall_forall in Hf. apply Hf.
      unfold py_slice in Hr. apply subseteq_take, subseteq_drop in Hr. exact Hr. }
    rewrite py_slice_length; lia.
Qed.

Lemma _extract_array_get {A} (h w : nat) (k : nat) (a : array2 A) (kw : Z) (p : Z * Z)
    (j i : nat) :
  rect h w a ->
  Z.of_nat k <= fst p -> fst p + Z.of_nat k < Z.of_nat h ->
  Z.of_nat k <= snd p -> snd p + Z.of_nat k < Z.of_nat w ->
  (j < 2 * k + 1)%nat -> (i < 2 * k + 1)%nat ->
  get2 (_extract_array a (Z.of_nat (2 * k + 1), kw) p) j i
  = get2 a (Z.to_nat (fst p) - k + j) (Z.to_nat (snd p) - k + i).
Proof.
  intros [Hl Hf] Hy1 Hy2 Hx1 Hx2 Hj Hi.
  unfold _extract_array, slice2, floordiv2, get2. cbn [fst snd].
  replace (Z.of_nat (2 * k + 1) / 2) with (Z.of_nat k)
    by (apply Z.div_unique with (r := 1); lia).
  rewrite lookup_map, py_slice_lookup by lia.
  replace (Z.to_nat (fst p - Z.of_nat k) + j)%nat with (Z.to_nat (fst p) - k + j)%nat by lia.
  destruct (a !! (Z.to_nat (fst p) - k + j)%nat) as [r|] eqn:Er; [|reflexivity].
  cbn. assert (Hrw : length r = w).
  { rewrite Forall_forall in Hf. apply Hf. eapply list_elem_of_lookup_2; eauto. }
  rewrite py_slice_lookup by lia. f_equal. lia.
Qed.

End Slices.

(* ===================================================================== *)
(** * The fit at a pixel never raises, and a failed search gives NaN *)
(* ===================================================================== *)

(** What scipy documents of [brentq]: it raises [ValueError] on a bad
    bracket and [RuntimeError] when it does not converge, and otherwise
    only what the function it is given raises. *)
Definition brentq_raises_as_documented (ext : externals) : Prop :=
  forall f a b n r e,
    (forall x e', f x = Raise e' -> e' = ValueError) ->
    brentq ext f a b n r = Failed e -> e = RuntimeError \/ e = ValueError.

Section PixelFit.

#[local] Open Scope nat_scope.

Variable ext : externals.
Hypothesis Hbrentq : brentq_raises_as_documented ext.

Lemma np_binop_raises {A B C} (f : A -> B -> C) a b e :
  np_binop f a b = Raise e -> e = ValueError.
Proof.
  unfold np_binop. destruct (bdim (nrows a) (nrows b)), (bdim (ncols a) (ncols b)); congruence.
Qed.

Lemma f_cash_raises x counts background model e :
  f_cash ext x counts background model = Raise e -> e = ValueError.
Proof.
  unfold f_cash. destruct (np_binop _ _ _) eqn:E; cbn; [discriminate|].
  intros [= <-]. eapply np_binop_raises; eauto.
Qed.

Lemma f_cash_ok h w x counts background model :
  rect h w background -> rect h w model ->
  f_cash ext x counts background model
  = Ok (_cash_sum_cython ext counts
          (zip_with (zip_with add) background (np_map (mul (x * FLUX_FACTOR)) model))).
Proof.
  intros Rb Rm. unfold f_cash.
  rewrite (np_binop_rect add h w) by (try apply rect_np_map; assumption).
  reflexivity.
Qed.

Lemma all_nan_full h w (a : ndarray) :
  rect h w a -> (forall j i x, get2 a j i = Some x -> x = nan) -> a = np_full h w nan.
Proof.
  intros R H. apply (array2_ext h w); [exact R | apply rect_np_full|].
  intros j i. destruct (get2 a j i) as [x|] eqn:E.
  - destruct (get2_bounds _ _ _ _ _ _ R E) as [Hj Hi].
    rewrite (H _ _ _ E), get2_np_full by assumption. reflexivity.
  - destruct (get2 (np_full h w nan) j i) as [y|] eqn:E'; [|reflexivity].
    destruct (get2_bounds _ _ _ _ _ _ (rect_np_full h w nan) E') as [Hj Hi].
    destruct (get2_rect h w a j i R Hj Hi) as [x Hx]. congruence.
Qed.

Lemma fold_add_nan l : fold_left add l nan = nan.
Proof.
  induction l as [|x l IH]; [reflexivity|]. cbn. rewrite IEEE.add_nan_l. exact IH.
Qed.

Lemma np_sum_full_nan h w : 0 < h -> 0 < w -> np_sum (np_full h w nan) = nan.
Proof.
  intros Hh Hw. unfold np_sum, np_full.
  destruct h as [|h]; [lia|]. destruct w as [|w]; [lia|].
  cbn. rewrite ?IEEE.add_nan_r. apply fold_add_nan.
Qed.

Lemma get2_zip_with_inv {A B C} (f : A -> B -> C) (a : array2 A) (b : array2 B) j i z :
  get2 (zip_with (zip_with f) a b) j i = Some z ->
  exists x y, get2 a j i = Some x /\ get2 b j i = Some y /\ z = f x y.
Proof.
  unfold get2. rewrite lookup_zip_with.
  destruct (a !! j) as [ra|]; [|discriminate]. destruct (b !! j) as [rb|]; [|discriminate].
  cbn. rewrite lookup_zip_with.
  destruct (ra !! i) as [x|]; [|discriminate]. destruct (rb !! i) as [y|]; [|discriminate].
  cbn. intros [= <-]. eauto.
Qed.

(** The variance estimate at a not-a-number amplitude. *)
Lemma _compute_amplitude_err_nan h w counts background model :
  0 < h -> 0 < w -> rect h w counts -> rect h w background -> rect h w model ->
  _compute_amplitude_err nan counts background model = Ok nan.
Proof.
  intros Hh Hw Rc Rb Rm. unfold _compute_amplitude_err.
  rewrite (np_binop_rect mul h w) by (try apply rect_np_map; assumption).
  rewrite (np_binop_rect add h w) by (try apply rect_np_map; assumption).
  cbn [mbind result_bind].
  rewrite (np_binop_rect div h w)
    by (try apply rect_np_map; apply rect_zip_with; try apply rect_np_map; assumption).
  cbn [mbind result_bind]. f_equal.
  rewrite (all_nan_full h w (zip_with (zip_with div) _ _)).
  - rewrite np_sum_full_nan by assumption. reflexivity.
  - apply rect_zip_with; [|apply rect_np_map]; apply rect_zip_with;
      try apply rect_np_map; assumption.
  - intros j i x Hx. apply get2_zip_with_inv in Hx. destruct Hx as (n & d & _ & Hd & ->).
    rewrite get2_np_map in Hd.
    destruct (get2 (zip_with _ _ _) j i) as [d0|] eqn:Ed; [|discriminate Hd].
    cbn in Hd. injection Hd as <-.
    apply get2_zip_with_inv in Ed. destruct Ed as (b & m & _ & Hm & ->).
    rewrite get2_np_map in Hm. destruct (get2 model j i) as [m0|]; [|discriminate Hm].
    cbn in Hm. injection Hm as <-.
    change (nan * FLUX_FACTOR)%float with nan.
    rewrite IEEE.mul_nan_l, IEEE.add_nan_r, IEEE.mul_nan_l, IEEE.div_nan_r. reflexivity.
Qed.

Lemma _compute_amplitude_err_ok h w x counts background model :
  rect h w counts -> rect h w background -> rect h w model ->
  exists v, _compute_amplitude_err x counts background model = Ok v.
Proof.
  intros Rc Rb Rm. unfold _compute_amplitude_err.
  rewrite (np_binop_rect mul h w) by (try apply rect_np_map; assumption).
  rewrite (np_binop_rect add h w) by (try apply rect_np_map; assumption).
  cbn [mbind result_bind].
  rewrite (np_binop_rect div h w)
    by (try apply rect_np_map; apply rect_zip_with; try apply rect_np_map; assumption).
  eexists. reflexivity.
Qed.

Lemma _compute_amplitude_err_profile_ok amplitude counts background model c_1 :
  exists v, _compute_amplitude_err_profile ext amplitude counts background model c_1 = Ok v
            /\ (amplitude = nan -> v = nan).
Proof.
  unfold _compute_amplitude_err_profile.
  destruct (brentq ext _ _ _ _ _) as [root it|e] eqn:E.
  - eexists. split; [reflexivity|]. intros ->. apply IEEE.sub_nan_r.
  - apply Hbrentq in E.
    + destruct E as [-> | ->]; eexists; split; try reflexivity; auto.
    + intros x e' He'. destruct (f_cash ext x counts background model) eqn:Ec;
        cbn in He'; [discriminate|]. injection He' as <-.
      eapply f_cash_raises; eauto.
Qed.

Lemma _root_amplitude_brentq_ok counts background model :
  exists amplitude niter,
    _root_amplitude_brentq ext counts background model = Ok (amplitude, niter).
Proof.
  unfold _root_amplitude_brentq.
  destruct (_amplitude_bounds_cython ext counts background model) as [[lo hi] floor].
  destruct (negb _); [eauto|].
  destruct (brentq ext _ _ _ _ _) as [root it|e] eqn:E; [eauto|].
  apply Hbrentq in E; [destruct E as [-> | ->]; eauto|].
  intros x e' He'. discriminate He'.
Qed.

(** The bracketed search of [_root_amplitude_brentq]. *)
Definition root_search (counts background model : ndarray) : solver_outcome :=
  let '(amplitude_min, amplitude_max, _) :=
    _amplitude_bounds_cython ext counts background model in
  brentq ext (fun x => Ok (_f_cash_root_cython ext x counts background model))
         amplitude_min amplitude_max MAX_NITER 1e-3.

Lemma _root_amplitude_brentq_fails counts background model e :
  (0 <? np_sum counts)%float = true -> root_search counts background model = Failed e ->
  _root_amplitude_brentq ext counts background model = Ok (nan, MAX_NITER).
Proof.
  unfold root_search, _root_amplitude_brentq.
  destruct (_amplitude_bounds_cython ext counts background model) as [[lo hi] floor].
  intros -> E. cbn [negb]. rewrite E.
  apply Hbrentq in E; [destruct E as [-> | ->]; reflexivity|].
  intros x e' He'. discriminate He'.
Qed.

(** The fit with ['root brentq'] on slices of one shape returns a
    dictionary. *)
Lemma ts_fit_brentq_ok h w counts_ background_ model c_0 flux position :
  rect h w counts_ -> rect h w background_ -> rect h w model ->
  exists d, ts_fit ext "root brentq" counts_ background_ model c_0 flux position
            = Ok (TsDict d).
Proof.
  intros Rc Rb Rm. unfold ts_fit, fit_amplitude. cbn [String.eqb Ascii.eqb Bool.eqb].
  destruct (_root_amplitude_brentq_ok counts_ background_ model) as (a & n & ->).
  cbn [mbind result_bind]. rewrite (f_cash_ok h w) by assumption. cbn [mbind result_bind].
  destruct (_compute_amplitude_err_ok h w a counts_ background_ model Rc Rb Rm) as [v ->].
  cbn [mbind result_bind].
  destruct (_compute_amplitude_err_profile_ok a counts_ background_ model
              (_cash_sum_cython ext counts_
                 (zip_with (zip_with add) background_
                    (np_map (mul (a * FLUX_FACTOR)) model)))) as (p & -> & _).
  eexists. reflexivity.
Qed.

(** When the search fails, every derived value is not a number and the
    iteration count is the cap. *)
Lemma ts_fit_brentq_fails h w counts_ background_ model c_0 flux position e :
  0 < h -> 0 < w ->
  rect h w counts_ -> rect h w background_ -> rect h w model ->
  (0 <? np_sum counts_)%float = true -> root_search counts_ background_ model = Failed e ->
  ts_fit ext "root brentq" counts_ background_ model c_0 flux position
  = Ok (TsDict {| d_ts := nan; d_flux := nan; d_niter := MAX_NITER;
                  d_flux_err := nan; d_flux_err_profile := nan |}).
Proof.
  intros Hh Hw Rc Rb Rm Hpos Hfail. unfold ts_fit, fit_amplitude.
  cbn [String.eqb Ascii.eqb Bool.eqb].
  rewrite (_root_amplitude_brentq_fails _ _ _ e Hpos Hfail). cbn [mbind result_bind].
  rewrite (f_cash_ok h w) by assumption. cbn [mbind result_bind].
  rewrite (_compute_amplitude_err_nan h w) by assumption. cbn [mbind result_bind].
  destruct (_compute_amplitude_err_profile_ok nan counts_ background_ model
              (_cash_sum_cython ext counts_
                 (zip_with (zip_with add) background_
                    (np_map (mul (nan * FLUX_FACTOR)) model)))) as (p & -> & Hp).
  rewrite (Hp eq_refl). cbn [mbind result_bind].
  change (np_sign nan) with nan. rewrite IEEE.mul_nan_r.
  reflexivity.
Qed.

End PixelFit.

(* ===================================================================== *)
(** * Writing the values at the positions *)
(* ===================================================================== *)

Section Assign.

#[local] Open Scope nat_scope.

Lemma rect_set2 {A} h w (a : array2 A) j i v : rect h w a -> rect h w (set2 a j i v).
Proof.
  intros [Hl Hf]. unfold set2. destruct (a !! j) as [r|] eqn:Er; [|split; assumption].
  split.
  - rewrite length_insert. exact Hl.
  - apply Forall_insert; [exact Hf|]. rewrite length_insert.
    rewrite Forall_forall in Hf. apply Hf. eapply list_elem_of_lookup_2; eauto.
Qed.

Lemma get2_set2_eq {A} (a : array2 A) j i v x :
  get2 a j i = Some x -> get2 (set2 a j i v) j i = Some v.
Proof.
  unfold get2, set2. destruct (a !! j) as [r|] eqn:Er; [|discriminate]. cbn.
  intros Hx. rewrite list_lookup_insert_eq by (eapply lookup_lt_Some; eauto). cbn.
  apply list_lookup_insert_eq. eapply lookup_lt_Some; eauto.
Qed.

Lemma get2_set2_ne {A} (a : array2 A) j i v j' i' :
  (j, i) <> (j', i') -> get2 (set2 a j i v) j' i' = get2 a j' i'.
Proof.
  intros Hne. unfold get2, set2. destruct (a !! j) as [r|] eqn:Er; [|reflexivity].
  destruct (Nat.eq_dec j j') as [<- | Hj].
  - rewrite list_lookup_insert_eq by (eapply lookup_lt_Some; eauto). rewrite Er. cbn.
    apply list_lookup_insert_ne. congruence.
  - rewrite list_lookup_insert_ne by assumption. reflexivity.
Qed.

Lemma axis_index_ok n k :
  (0 <= k < Z.of_nat n)%Z -> axis_index n k = Ok (Z.to_nat k).
Proof.
  intros Hk. unfold axis_index.
  destruct (Z.ltb_spec k 0); [lia|].
  destruct (Z.leb_spec 0 k); [|lia]. destruct (Z.ltb_spec k (Z.of_nat n)); [|lia].
  reflexivity.
Qed.

(** Distinct positions inside the array: every position receives its own
    value, and every other pixel keeps what it had. *)
Lemma assign_each_spec h w ps :
  forall (a : ndarray) vs,
    rect h w a -> NoDup ps ->
    Forall (fun p => (0 <= fst p < Z.of_nat h)%Z /\ (0 <= snd p < Z.of_nat w)%Z) ps ->
    length vs = length ps ->
    exists a', assign_each a ps vs = Ok a' /\ rect h w a' /\
      (forall n p v, ps !! n = Some p -> vs !! n = Some v ->
         get2 a' (Z.to_nat (fst p)) (Z.to_nat (snd p)) = Some v) /\
      (forall j i, ~ In (Z.of_nat j, Z.of_nat i) ps -> get2 a' j i = get2 a j i).
Proof.
  induction ps as [|p ps IH]; intros a vs Ra Hnd Hin Hlen.
  - exists a. cbn. repeat split; try assumption; [apply Ra|apply Ra|].
    intros n p v Hp. destruct n; discriminate Hp.
  - destruct vs as [|v vs]; [discriminate Hlen|].
    apply NoDup_cons in Hnd. destruct Hnd as [Hp Hnd].
    apply Forall_cons in Hin. destruct Hin as [[Hj Hi] Hin].
    assert (Hh : h <> 0) by lia.
    assert (Hr : nrows a = h) by apply Ra.
    cbn [assign_each]. rewrite Hr, (rect_ncols h w a Ra Hh).
    rewrite (axis_index_ok h) by assumption. rewrite (axis_index_ok w) by assumption.
    cbn [mbind result_bind].
    destruct (IH (set2 a (Z.to_nat (fst p)) (Z.to_nat (snd p)) v) vs)
      as (a' & Ha' & Ra' & Hset & Hkeep);
      [apply rect_set2; exact Ra | exact Hnd | exact Hin | cbn in Hlen; lia |].
    exists a'. split; [exact Ha'|]. split; [exact Ra'|]. split.
    + intros [|n] q u Hq Hu; cbn in Hq, Hu.
      * injection Hq as <-. injection Hu as <-.
        rewrite Hkeep.
        -- destruct (get2_rect h w a (Z.to_nat (fst p)) (Z.to_nat (snd p)) Ra) as [x Hx];
             [lia | lia |].
           eapply get2_set2_eq; eauto.
        -- rewrite !Z2Nat.id by lia. destruct p. cbn [fst snd].
           intros Hc. apply Hp. apply list_elem_of_In. exact Hc.
      * eapply Hset; eauto.
    + intros j i Hni. rewrite Hkeep.
      * apply get2_set2_ne. intros [= <- <-]. apply Hni. left.
        rewrite !Z2Nat.id by lia. destruct p; reflexivity.
      * intros Hc. apply Hni. right. exact Hc.
Qed.

Lemma zip_fst_snd {A B} (l : list (A * B)) : zip (map fst l) (map snd l) = l.
Proof.
  induction l as [|[a b] l IH]; cbn; [reflexivity|]. rewrite IH. reflexivity.
Qed.

Lemma mapR_Forall2 {A B} (f : A -> result B) (l : list A) ys :
  mapR f l = Ok ys <-> Forall2 (fun x y => f x = Ok y) l ys.
Proof.
  revert ys. induction l as [|x l IH]; intros ys; cbn.
  - split.
    + intros [= <-]. constructor.
    + intros H. inversion H. reflexivity.
  - split.
    + destruct (f x) as [y|e] eqn:Ef; cbn; [|discriminate].
      destruct (mapR f l) as [ys'|e] eqn:Em; cbn; [|discriminate].
      intros [= <-]. constructor; [exact Ef|]. apply IH. reflexivity.
    + intros H. inversion H as [|? y ? ys' Hf Hr]; subst.
      rewrite Hf. cbn. apply IH in Hr. rewrite Hr. reflexivity.
Qed.

Lemma mapR_total {A B} (f : A -> result B) (l : list A) :
  (forall x, In x l -> exists y, f x = Ok y) -> exists ys, mapR f l = Ok ys.
Proof.
  induction l as [|x l IH]; intros H; cbn; [eauto|].
  destruct (H x) as [y ->]; [left; reflexivity|].
  destruct IH as [ys ->]; [intros; apply H; right; assumption|].
  cbn. eauto.
Qed.

Lemma sorted_NoDup (ps : list (Z * Z)) : StronglySorted row_major_lt ps -> NoDup ps.
Proof.
  induction 1 as [|p ps Hs IH Hp]; constructor; [|exact IH].
  intros Hin. rewrite Forall_forall in Hp. specialize (Hp p Hin).
  unfold row_major_lt in Hp. lia.
Qed.

End Assign.

(* ===================================================================== *)
(** * A failed search at one pixel of a run *)
(* ===================================================================== *)

(** The search at a pixel fails: the counts of the slice are positive and
    [brentq] raises on the slices of the pixel. *)
Definition search_fails (ext : externals) (kernel : Kernel2D)
    (counts exposure background : ndarray) (position : Z * Z) : Prop :=
  let counts_ := _extract_array counts (kernel_shape kernel) position in
  let background_ := _extract_array background (kernel_shape kernel) position in
  let exposure_ := _extract_array exposure (kernel_shape kernel) position in
  exists model e,
    np_binop mul exposure_ (kernel_array kernel) = Ok model /\
    (0 <? np_sum counts_) = true /\
    root_search ext counts_ background_ model = Failed e.

Definition nan_dict : ts_dict :=
  {| d_ts := nan; d_flux := nan; d_niter := MAX_NITER;
     d_flux_err := nan; d_flux_err_profile := nan |}.

Section PixelOfRun.

#[local] Open Scope Z_scope.

Variable ext : externals.
Hypothesis Hbrentq : brentq_raises_as_documented ext.

Lemma floordiv2_odd (k : nat) : floordiv2 (Z.of_nat (2 * k + 1)) = Z.of_nat k.
Proof.
  unfold floordiv2. symmetry. apply (Z.div_unique _ _ _ 1); lia.
Qed.

Lemma _ts_value_brentq (h w k : nat) (kernel : Kernel2D)
    (counts exposure background c_0_image : ndarray) (p : Z * Z) :
  rect (2 * k + 1) (2 * k + 1) (kernel_array kernel) ->
  rect h w counts -> rect h w exposure -> rect h w background ->
  Z.of_nat k <= fst p -> fst p + Z.of_nat k < Z.of_nat h ->
  Z.of_nat k <= snd p -> snd p + Z.of_nat k < Z.of_nat w ->
  exists d,
    _ts_value ext p counts exposure background c_0_image kernel None "root brentq" None
    = Ok (TsDict d) /\
    (search_fails ext kernel counts exposure background p -> d = nan_dict).
Proof.
  intros Rk Rc Re Rb H1 H2 H3 H4.
  assert (Hshape : kernel_shape kernel
                   = (Z.of_nat (2 * k + 1), Z.of_nat (ncols (kernel_array kernel)))).
  { unfold kernel_shape. f_equal. f_equal. apply Rk. }
  unfold _ts_value, search_fails. cbv zeta. rewrite Hshape.
  set (kw := Z.of_nat (ncols (kernel_array kernel))).
  pose proof (_extract_array_rect h w k counts kw p Rc H1 H2 H3 H4) as Rc'.
  pose proof (_extract_array_rect h w k exposure kw p Re H1 H2 H3 H4) as Re'.
  pose proof (_extract_array_rect h w k background kw p Rb H1 H2 H3 H4) as Rb'.
  rewrite (np_binop_rect mul _ _ _ _ Re' Rk). cbn [mbind result_bind].
  pose proof (rect_zip_with mul _ _ _ _ Re' Rk) as Rm.
  destruct (ts_fit_brentq_ok ext Hbrentq _ _ _ _ _
              (np_sum (_extract_array c_0_image (Z.of_nat (2 * k + 1), kw) p))
              None p Rc' Rb' Rm) as [d Hd].
  exists d. split; [exact Hd|].
  intros (model & e & [= <-] & Hpos & Hfail).
  rewrite (ts_fit_brentq_fails ext Hbrentq (2 * k + 1) (2 * k + 1) _ _ _ _ _ _ e) in Hd;
    try assumption; try lia.
  injection Hd as <-. reflexivity.
Qed.

End PixelOfRun.

(* ===================================================================== *)
(** * A run with ['root brentq'], step by step *)
(* ===================================================================== *)

(** The value of the image [name] of a result at a pixel. *)
Definition pixel_value (res : SkyImageList) (s : state) (name : string) (p : Z * Z)
  : option float :=
  match assoc name (sky_images res) with
  | Some img =>
      match heap s !! sky_data img with
      | Some a => get2 a (Z.to_nat (fst p)) (Z.to_nat (snd p))
      | None => None
      end
  | None => None
  end.

Section Store.

#[local] Open Scope nat_scope.

Variables (h0 L : list ndarray) (ws : list string).

Lemma load_base l a :
  h0 !! l = Some a ->
  load l {| heap := h0 ++ L; warnings := ws |}
  = (Ok a, {| heap := h0 ++ L; warnings := ws |}).
Proof.
  intros H. apply load_eq. cbn [heap]. apply lookup_app_l_Some. exact H.
Qed.

Lemma lookup_new k : (h0 ++ L) !! (length h0 + k) = L !! k.
Proof.
  rewrite lookup_app_r by lia. f_equal. lia.
Qed.

Lemma load_new k a :
  L !! k = Some a ->
  load (length h0 + k) {| heap := h0 ++ L; warnings := ws |}
  = (Ok a, {| heap := h0 ++ L; warnings := ws |}).
Proof.
  intros H. apply load_eq. cbn [heap]. rewrite lookup_new. exact H.
Qed.

Lemma alloc_new a :
  alloc a {| heap := h0 ++ L; warnings := ws |}
  = (Ok (length h0 + length L), {| heap := h0 ++ (L ++ [a]); warnings := ws |}).
Proof.
  unfold alloc. cbn [heap warnings]. rewrite length_app, app_assoc. reflexivity.
Qed.

Lemma store_new k a a0 :
  L !! k = Some a0 ->
  store (length h0 + k) a {| heap := h0 ++ L; warnings := ws |}
  = (Ok tt, {| heap := h0 ++ <[k := a]> L; warnings := ws |}).
Proof.
  intros H. erewrite store_eq by (cbn [heap]; rewrite lookup_new; exact H).
  cbn [heap warnings]. rewrite insert_app_r. reflexivity.
Qed.

Lemma empty_like_new img fill a :
  h0 !! sky_data img = Some a ->
  empty_like img fill {| heap := h0 ++ L; warnings := ws |}
  = (Ok {| sky_data := length h0 + length L; sky_cdelt := sky_cdelt img |},
     {| heap := h0 ++ (L ++ [np_full (nrows a) (ncols a) fill]); warnings := ws |}).
Proof.
  intros H. unfold empty_like.
  rewrite (bind_eq _ _ _ _ _ (load_base _ _ H)).
  rewrite (bind_eq _ _ _ _ _ (alloc_new _)). reflexivity.
Qed.

Lemma new_image images result name ic c :
  getitem images "counts" = Ok ic -> h0 !! sky_data ic = Some c ->
  (like ← lift (getitem images "counts");
   img ← empty_like like nan;
   mret (setitem result name img)) {| heap := h0 ++ L; warnings := ws |}
  = (Ok (setitem result name
           {| sky_data := length h0 + length L; sky_cdelt := sky_cdelt ic |}),
     {| heap := h0 ++ (L ++ [np_full (nrows c) (ncols c) nan]); warnings := ws |}).
Proof.
  intros Hi Hc. rewrite Hi, bind_lift.
  rewrite (bind_eq _ _ _ _ _ (empty_like_new _ _ _ Hc)). reflexivity.
Qed.

Lemma astype_float_new img a :
  h0 !! sky_data img = Some a ->
  astype_float img {| heap := h0 ++ L; warnings := ws |}
  = (Ok (length h0 + length L), {| heap := h0 ++ (L ++ [a]); warnings := ws |}).
Proof.
  intros H. unfold astype_float.
  rewrite (bind_eq _ _ _ _ _ (load_base _ _ H)). apply alloc_new.
Qed.

End Store.

Section StoreSteps.

#[local] Open Scope nat_scope.

Lemma _parse_image_data_new h0 L ws images ic ib ie c b e (h w : nat) :
  getitem images "counts" = Ok ic -> getitem images "background" = Ok ib ->
  getitem images "exposure" = Ok ie ->
  h0 !! sky_data ic = Some c -> h0 !! sky_data ib = Some b -> h0 !! sky_data ie = Some e ->
  rect h w c -> rect h w b -> rect h w e ->
  _parse_image_data images {| heap := h0 ++ L; warnings := ws |}
  = (Ok (length h0 + length L, length h0 + (length L + 2), length h0 + (length L + 1)),
     {| heap := h0 ++ (L ++ [c; b; e]); warnings := ws |}).
Proof.
  intros Hic Hib Hie Hc Hb He Rc Rb Re. unfold _parse_image_data.
  rewrite Hic, bind_lift, (bind_eq _ _ _ _ _ (astype_float_new _ _ _ _ _ Hc)).
  rewrite Hib, bind_lift, (bind_eq _ _ _ _ _ (astype_float_new _ _ _ _ _ Hb)).
  rewrite Hie, bind_lift, (bind_eq _ _ _ _ _ (astype_float_new _ _ _ _ _ He)).
  rewrite !length_app. cbn [length].
  replace (((L ++ [c]) ++ [b]) ++ [e]) with (L ++ [c; b; e])
    by (rewrite <- !app_assoc; reflexivity).
  assert (H0 : (L ++ [c; b; e]) !! length L = Some c)
    by (rewrite lookup_app_r by lia; rewrite Nat.sub_diag; reflexivity).
  assert (H1 : (L ++ [c; b; e]) !! (length L + 1) = Some b)
    by (rewrite lookup_app_r by lia;
        replace (length L + 1 - length L) with 1 by lia; reflexivity).
  assert (H2 : (L ++ [c; b; e]) !! (length L + 1 + 1) = Some e)
    by (rewrite lookup_app_r by lia;
        replace (length L + 1 + 1 - length L) with 2 by lia; reflexivity).
  rewrite (bind_eq _ _ _ _ _ (load_new _ _ _ _ _ H0)).
  rewrite (bind_eq _ _ _ _ _ (load_new _ _ _ _ _ H1)).
  rewrite (bind_eq _ _ _ _ _ (load_new _ _ _ _ _ H2)).
  unfold shape_eq.
  rewrite (rect_same_shape h w c b Rc Rb), (rect_same_shape h w c e Rc Re).
  cbn [negb]. unfold mret, M_ret.
  replace (length L + 1 + 1) with (length L + 2) by lia. reflexivity.
Qed.

Lemma corrected_exposure_id (h w : nat) (e b : ndarray) :
  rect h w e -> rect h w b ->
  np_any (zip_with (zip_with andb) (np_map (fun x => x =? 0)%float b)
                   (np_map (fun x => 0 <? x)%float e)) = false ->
  corrected_exposure e b = e.
Proof.
  intros Re Rb Ea. symmetry.
  apply (array2_ext h w); [exact Re | apply rect_corrected; assumption|].
  intros j i. destruct (get2 e j i) as [ej|] eqn:Hej.
  - destruct (get2_bounds _ _ _ _ _ _ Re Hej) as [Hj Hi].
    destruct (get2_rect h w b j i Rb Hj Hi) as [bj Hbj].
    rewrite (corrected_exposure_get h w e b j i ej bj Re Rb Hej Hbj).
    assert (Hm : ((bj =? 0) && (0 <? ej))%float = false).
    { eapply (np_any_false _ j i); [exact Ea|].
      erewrite get2_zip_with; [reflexivity| |].
      - rewrite get2_np_map, Hbj. reflexivity.
      - rewrite get2_np_map, Hej. reflexivity. }
    rewrite Hm. reflexivity.
  - destruct (get2 (corrected_exposure e b) j i) as [x|] eqn:Hx; [|reflexivity].
    destruct (get2_bounds _ _ _ _ _ _ (rect_corrected h w e b Re Rb) Hx) as [Hj Hi].
    destruct (get2_rect h w e j i Re Hj Hi) as [y Hy]. congruence.
Qed.

(** After [_get_mask] the exposure array holds the corrected exposure,
    whether or not there was a pixel to correct. *)
Lemma _get_mask_new h0 L ws k kb (e b : ndarray) (h w : nat) :
  L !! k = Some e -> L !! kb = Some b -> rect h w e -> rect h w b ->
  exists ws',
    _get_mask (length h0 + k) (length h0 + kb) {| heap := h0 ++ L; warnings := ws |}
    = (Ok (np_map (fun x => 0 <? x)%float (corrected_exposure e b)),
       {| heap := h0 ++ <[k := corrected_exposure e b]> L; warnings := ws' |}).
Proof.
  intros He Hb Re Rb.
  rewrite (_get_mask_spec _ _ _ e b h w)
    by (cbn [heap]; try rewrite lookup_new; assumption).
  destruct (np_any _) eqn:Ea; cbn [heap warnings].
  - rewrite insert_app_r. eauto.
  - rewrite (corrected_exposure_id h w e b Re Rb Ea).
    rewrite (list_insert_id L k e He). eauto.
Qed.

Lemma mapR_dicts {A} (wrap : A -> result ts_return) (ps : list A) :
  (forall p, In p ps -> exists d, wrap p = Ok (TsDict d)) ->
  exists ds, mapR wrap ps = Ok (map TsDict ds) /\
             Forall2 (fun p d => wrap p = Ok (TsDict d)) ps ds.
Proof.
  induction ps as [|p ps IH]; intros H.
  - exists []. split; [reflexivity | constructor].
  - destruct (H p) as [d Hd]; [left; reflexivity|].
    destruct IH as (ds & Hds & Hf); [intros; apply H; right; assumption|].
    exists (d :: ds). split; [|constructor; assumption].
    cbn. rewrite Hd. cbn. rewrite Hds. reflexivity.
Qed.

Lemma mapR_getitem name (field : ts_dict -> float) ds :
  (forall d, ts_getitem name (TsDict d) = Ok (field d)) ->
  mapR (ts_getitem name) (map TsDict ds) = Ok (map field ds).
Proof.
  intros H. induction ds as [|d ds IH]; cbn [map mapR]; [reflexivity|].
  rewrite H. cbn [mbind result_bind]. rewrite IH. reflexivity.
Qed.


Lemma gather_new wrap positions l result j i consumed name img h0 L ws k a vs a' :
  mapR (ts_getitem name) l = Ok vs ->
  getitem result name = Ok img -> sky_data img = length h0 + k ->
  L !! k = Some a -> fancy_assign a j i vs = Ok a' ->
  gather wrap positions (ResList l) result j i consumed name
         {| heap := h0 ++ L; warnings := ws |}
  = (Ok consumed, {| heap := h0 ++ <[k := a']> L; warnings := ws |}).
Proof.
  intros Hvs Hi Hk Ha Hf. unfold gather, comprehension.
  rewrite Hvs. cbn [mbind result_bind]. rewrite bind_lift.
  rewrite Hi, bind_lift, Hk.
  rewrite (bind_eq _ _ _ _ _ (load_new _ _ _ _ _ Ha)).
  rewrite Hf, bind_lift.
  rewrite (bind_eq _ _ _ _ _ (store_new _ _ _ _ _ _ Ha)). reflexivity.
Qed.

End StoreSteps.

Section RunCompletes.

#[local] Open Scope nat_scope.

Variable ext : externals.
Hypothesis Hbrentq : brentq_raises_as_documented ext.

Lemma check_required_ok images ic ib ie :
  getitem images "counts" = Ok ic -> getitem images "background" = Ok ib ->
  getitem images "exposure" = Ok ie ->
  check_required images ["counts"; "background"; "exposure"]%string = Ok tt.
Proof.
  intros H1 H2 H3. cbn [check_required]. rewrite H1, H2, H3. reflexivity.
Qed.

(** The six result images of [which='all'], each a new array. *)
Definition new_result (n : nat) (cdelt : float) : SkyImageList :=
  {| sky_images :=
       [("ts", {| sky_data := n + 0; sky_cdelt := cdelt |});
        ("sqrt_ts", {| sky_data := n + 1; sky_cdelt := cdelt |});
        ("flux", {| sky_data := n + 2; sky_cdelt := cdelt |});
        ("flux_err", {| sky_data := n + 3; sky_cdelt := cdelt |});
        ("flux_err_profile", {| sky_data := n + 4; sky_cdelt := cdelt |});
        ("niter", {| sky_data := n + 5; sky_cdelt := cdelt |})]%string;
     sky_meta := [] |}.

Lemma new_images h0 ws images ic (c : ndarray) :
  getitem images "counts" = Ok ic -> h0 !! sky_data ic = Some c ->
  let F := np_full (nrows c) (ncols c) nan in
  foldM (fun result name =>
           like ← lift (getitem images "counts");
           img ← empty_like like nan;
           mret (setitem result name img))
        all_images empty_list {| heap := h0 ++ []; warnings := ws |}
  = (Ok (new_result (length h0) (sky_cdelt ic)),
     {| heap := h0 ++ [F; F; F; F; F; F]; warnings := ws |}).
Proof.
  intros Hic Hc F. cbn [all_images foldM].
  do 6 (rewrite (bind_eq _ _ _ _ _ (new_image _ _ _ _ _ _ _ _ Hic Hc)); cbn [app length]).
  reflexivity.
Qed.

Lemma candidate_bounds (self : TSImageEstimator) (mask : array2 bool) (h w k : nat) p :
  rect (2 * k + 1) (2 * k + 1) (kernel_array (kernel self)) -> rect h w mask ->
  In p (_get_positions self mask) ->
  (Z.of_nat k <= fst p /\ fst p + Z.of_nat k < Z.of_nat h /\
   Z.of_nat k <= snd p /\ snd p + Z.of_nat k < Z.of_nat w)%Z.
Proof.
  intros Rk Rm Hin. apply (positions_spec self mask h w p Rm) in Hin.
  unfold kernel_shape in Hin. cbn [fst snd] in Hin.
  assert (Hr : nrows (kernel_array (kernel self)) = 2 * k + 1) by apply Rk.
  rewrite Hr, (rect_ncols _ _ _ Rk) in Hin by lia.
  rewrite floordiv2_odd in Hin. lia.
Qed.

Lemma bind_assoc {A B C} (m : M A) (f : A -> M B) (g : B -> M C) s :
  ((m ≫= f) ≫= g) s = (m ≫= fun a => f a ≫= g) s.
Proof.
  unfold mbind, M_bind. destruct (m s) as [[a|e] s1]; reflexivity.
Qed.

Lemma unzip_positions_nonempty positions :
  positions <> [] -> unzip_positions positions = Ok (map fst positions, map snd positions).
Proof.
  destruct positions; [congruence | reflexivity].
Qed.

Lemma pixel_value_at res s name p img a :
  assoc name (sky_images res) = Some img -> heap s !! sky_data img = Some a ->
  pixel_value res s name p = get2 a (Z.to_nat (fst p)) (Z.to_nat (snd p)).
Proof.
  intros H1 H2. unfold pixel_value. rewrite H1, H2. reflexivity.
Qed.

End RunCompletes.

Section ReferenceBrentq.

Lemma brent_loop_raises f xtol rtol n :
  (forall x e', f x = Raise e' -> e' = ValueError) ->
  forall it st e,
    Reference.brent_loop f xtol rtol n it st = Failed e ->
    e = RuntimeError \/ e = ValueError.
Proof.
  intros Hf. induction n as [|n IH]; intros it st e.
  - cbn. intros [= <-]. left. reflexivity.
  - cbn [Reference.brent_loop]. cbv zeta.
    destruct (_ || _); [discriminate|].
    match goal with |- context [let '(_, _) := ?X in _] => destruct X as [spre' scur'] end.
    unfold Reference.callback.
    match goal with |- context [f ?x] => destruct (f x) as [v|e'] eqn:Ef end.
    + apply IH.
    + intros [= <-]. right. eapply Hf; eauto.
Qed.

Lemma reference_brentq_documented : brentq_raises_as_documented Reference.ext.
Proof.
  intros f a b n r e Hf. cbn [brentq Reference.ext].
  unfold Reference.scipy_brentq, Reference.callback.
  destruct (f a) as [fa|e'] eqn:Ea; [|intros [= <-]; right; eapply Hf; eauto].
  destruct (f b) as [fb|e'] eqn:Eb; [|intros [= <-]; right; eapply Hf; eauto].
  destruct (0 <? fa * fb); [intros [= <-]; right; reflexivity|].
  destruct (fa =? 0); [discriminate|].
  destruct (fb =? 0); [discriminate|].
  apply brent_loop_raises. exact Hf.
Qed.

End ReferenceBrentq.

(* ===================================================================== *)
(** * [compute_ts_image_multiscale] *)
(* ===================================================================== *)

(** The functions handed to [downsample]: [np.nansum] and [np.mean]. *)
Inductive reducer : Type := np_nansum | np_mean.

Definition crop_pad_width : Type := ((nat * nat) * (nat * nat))%type.

(** What the driver calls outside the sources: the operations of
    [SkyImage] that resample an image (each returns an image and may
    allocate arrays), the helpers for the padding, and the kernel
    constructors of [gammapy.irf] and [astropy.convolution], which may
    raise.  [Model2DKernel_Shell2D sigma outer x_size] stands for
    [Model2DKernel(Shell2D(1, 0, 0, sigma, outer), x_size=x_size)]. *)
Record library (psf_parameters : Type) : Type := {
  symmetric_crop_pad_width : nat * nat -> nat * nat -> crop_pad_width;
  shape_2N : nat * nat -> nat * nat;
  sky_pad : SkyImage -> crop_pad_width -> M SkyImage;
  sky_downsample : SkyImage -> float -> reducer -> M SkyImage;
  sky_upsample : SkyImage -> float -> Z -> M SkyImage;
  sky_crop : SkyImage -> crop_pad_width -> M SkyImage;
  multi_gauss_psf_kernel : psf_parameters -> float -> float -> result Kernel2D;
  Gaussian2DKernel : float -> result Kernel2D;
  _round_up_to_odd_integer : float -> Z;
  Model2DKernel_Shell2D : float -> float -> Z -> result Kernel2D;
  convolve : Kernel2D -> Kernel2D -> result Kernel2D;
  normalize : Kernel2D -> Kernel2D
}.

Arguments symmetric_crop_pad_width {_} _ _ _.
Arguments shape_2N {_} _ _.
Arguments sky_pad {_} _ _ _.
Arguments sky_downsample {_} _ _ _ _.
Arguments sky_upsample {_} _ _ _ _.
Arguments sky_crop {_} _ _ _.
Arguments multi_gauss_psf_kernel {_} _ _ _ _.
Arguments Gaussian2DKernel {_} _ _.
Arguments _round_up_to_odd_integer {_} _ _.
Arguments Model2DKernel_Shell2D {_} _ _ _ _.
Arguments convolve {_} _ _ _.
Arguments normalize {_} _ _.

(** A function that computes the images for one kernel. *)
Definition ts_image_function : Type :=
  SkyImage -> SkyImage -> SkyImage -> Kernel2D -> M SkyImageList.

Section Multiscale.

Context {psf_parameters : Type}.
Variable lib : library psf_parameters.

(** [int(np.select([scale < 5 * BINSZ, ...], [1, 2, 4, 4], 8))], or
    [int(downsample)]. *)
Definition downsampling_factor (downsample : option Z) (scale BINSZ : float) : Z :=
  match downsample with
  | None =>
      if scale <? 5 * BINSZ then 1%Z
      else if scale <? 10 * BINSZ then 2%Z
      else if scale <? 20 * BINSZ then 4%Z
      else if scale <? 40 * BINSZ then 4%Z
      else 8%Z
  | Some d => d
  end.

Definition funcs : list reducer := [np_nansum; np_mean; np_nansum; np_nansum; np_nansum].

(** One round of the loop over [zip(images.names, funcs)]: without down
    sampling [images2[name]] is the image object of [images] itself. *)
Definition resample (images : SkyImageList) (shape : nat * nat) (downsampled : bool)
    (factor : float) (acc : SkyImageList * option crop_pad_width) (nf : string * reducer)
  : M (SkyImageList * option crop_pad_width) :=
  let '(images2, pad_width) := acc in
  let '(name, func) := nf in
  if downsampled then
    let pad_width := symmetric_crop_pad_width lib shape (shape_2N lib shape) in
    img ← lift (getitem images name);
    padded ← sky_pad lib img pad_width;
    let images2 := setitem images2 name padded in
    img2 ← lift (getitem images2 name);
    small ← sky_downsample lib img2 factor func;
    mret (setitem images2 name small, Some pad_width)
  else
    img ← lift (getitem images name);
    mret (setitem images2 name img, pad_width).

(** The PSF kernel, convolved with the source kernel when [scale > 0]. *)
Definition source_kernel (psf : psf_parameters) (scale BINSZ factor : float)
    (morphology : string) (width : option float) : result Kernel2D :=
  kernel ← multi_gauss_psf_kernel lib psf BINSZ (BINSZ * factor);
  if 0 <? scale then
    let sigma := scale / (BINSZ * factor) in
    source ←
      (if String.eqb morphology "Gaussian2D" then Gaussian2DKernel lib sigma
       else if String.eqb morphology "Shell2D" then
         match width with
         | None => Raise TypeError
         | Some width =>
             let x_size :=
               _round_up_to_odd_integer lib
                 (2 * sigma * (1 + width) + float_of_int (fst (kernel_shape kernel)) / 2) in
             Model2DKernel_Shell2D lib sigma (sigma * width) x_size
         end
       else Raise ValueError);
    kernel ← convolve lib source kernel;
    Ok (normalize lib kernel)
  else Ok kernel.

(** [target += source] on arrays: the sum is written into the array object
    of [target]; [source] must broadcast to the shape of [target]. *)
Definition iadd (target source : loc) : M unit :=
  a ← load target;
  m ← load source;
  r ← lift (np_binop add a m);
  if same_shape r a then store target r else lift (Raise ValueError).

Definition upsampled_images : list (string * Z) :=
  [("ts", 1%Z); ("sqrt_ts", 1%Z); ("amplitude", 1%Z); ("niter", 0%Z)]%string.

(** The body of the loop over the scales.  [compute_ts_image] is a name
    that is bound neither in the function nor in the module.  The log
    messages are left out. *)
Definition scale_step (images : SkyImageList) (psf : psf_parameters)
    (downsample : option Z) (residual : bool) (morphology : string) (width : option float)
    (BINSZ : float) (shape : nat * nat)
    (multiscale_result : list SkyImageList) (scale : float) : M (list SkyImageList) :=
  let factor := downsampling_factor downsample scale BINSZ in
  let downsampled := negb (factor =? 1)%Z in
  let factor :=
    if downsampled && String.eqb morphology "Shell2D"
    then float_of_int factor / 2 else float_of_int factor in
  '(images2, pad_width) ←
    foldM (resample images shape downsampled factor) (zip (names images) funcs)
          (empty_list, None);
  kernel ← lift (source_kernel psf scale BINSZ factor morphology width);
  _ ← (if residual
       then
         background ← lift (getitem images2 "background");
         model ← lift (getitem images2 "model");
         iadd (sky_data background) (sky_data model)
       else mret tt);
  compute_ts_image ←
    lift (read_name ([] : list (string * ts_image_function)) "compute_ts_image");
  counts ← lift (getitem images2 "counts");
  background ← lift (getitem images2 "background");
  exposure ← lift (getitem images2 "exposure");
  ts_results ← compute_ts_image counts background exposure kernel;
  let ts_results :=
    {| sky_images := sky_images ts_results;
       sky_meta := assoc_set "SCALE" (MetaFloat scale)
                     (assoc_set "MORPH" (MetaString morphology) (sky_meta ts_results)) |} in
  ts_results ←
    (if downsampled
     then foldM (fun (r : SkyImageList) (no : string * Z) =>
                   img ← lift (getitem r (fst no));
                   up ← sky_upsample lib img factor (snd no);
                   let r := setitem r (fst no) up in
                   img ← lift (getitem r (fst no));
                   pw ← lift (match pad_width with
                              | Some pw => Ok pw
                              | None => Raise (NameError "pad_width")
                              end);
                   cropped ← sky_crop lib img pw;
                   mret (setitem r (fst no) cropped))
                upsampled_images ts_results
     else mret ts_results);
  mret (multiscale_result ++ [ts_results]).

Definition compute_ts_image_multiscale (images : SkyImageList) (psf : psf_parameters)
    (scales : list float) (downsample : option Z) (residual : bool)
    (morphology : string) (width : option float) : M (list SkyImageList) :=
  counts ← lift (getitem images "counts");
  let BINSZ := abs (sky_cdelt counts) in
  data ← load (sky_data counts);
  let shape := (nrows data, ncols data) in
  foldM (scale_step images psf downsample residual morphology width BINSZ shape) scales [].

End Multiscale.

Section MultiscaleAliasing.

#[local] Open Scope nat_scope.

Context {psf_parameters : Type}.
Variable lib : library psf_parameters.

Lemma getitem_setitem_same images name img :
  getitem (setitem images name img) name = Ok img.
Proof.
  unfold getitem, setitem. cbn [sky_images]. rewrite assoc_set_same. reflexivity.
Qed.

Lemma getitem_setitem_other images name name' img :
  name <> name' -> getitem (setitem images name img) name' = getitem images name'.
Proof.
  intros Hne. unfold getitem, setitem. cbn [sky_images].
  rewrite assoc_set_other by exact Hne. reflexivity.
Qed.

Lemma getitem_names images name :
  In name (names images) -> exists img, getitem images name = Ok img.
Proof.
  unfold names, getitem. induction (sky_images images) as [|[k v] l IH]; cbn; [tauto|].
  intros [<- | Hin].
  - rewrite String.eqb_refl. eauto.
  - destruct (String.eqb k name); eauto.
Qed.

(** Without down sampling the loop puts the image objects of [images]
    under their names, and touches no array. *)
Lemma resample_aliases images shape factor (nfs : list (string * reducer)) :
  forall acc pw s,
    (forall nf, In nf nfs -> In (fst nf) (names images)) ->
    exists images2,
      foldM (resample lib images shape false factor) nfs (acc, pw) s = (Ok (images2, pw), s) /\
      (forall name, In name (map fst nfs) -> getitem images2 name = getitem images name) /\
      (forall name, ~ In name (map fst nfs) -> getitem images2 name = getitem acc name).
Proof.
  induction nfs as [|[name func] nfs IH]; intros acc pw s Hin.
  - exists acc. cbn. repeat split; tauto.
  - destruct (getitem_names images name) as [img Himg];
      [apply (Hin (name, func)); left; reflexivity|].
    cbn [foldM resample]. rewrite bind_assoc, Himg, bind_lift, bind_mret.
    destruct (IH (setitem acc name img) pw s) as (images2 & Hrun & Hnew & Hold);
      [intros nf Hnf; apply Hin; right; exact Hnf|].
    exists images2. split; [exact Hrun|]. split.
    + intros name' Hn. destruct (in_dec string_dec name' (map fst nfs)) as [Hi|Hni].
      * apply Hnew. exact Hi.
      * rewrite (Hold name' Hni). destruct Hn as [<- | Hn]; [|contradiction].
        cbn [fst]. rewrite getitem_setitem_same. symmetry. exact Himg.
    + intros name' Hn. rewrite Hold by (intros Hc; apply Hn; right; exact Hc).
      apply getitem_setitem_other. intros ->. apply Hn. left. reflexivity.
Qed.

Lemma zip_names_funcs (ns : list string) :
  map fst (zip ns funcs) = take 5 ns /\ forall nf, In nf (zip ns funcs) -> In (fst nf) ns.
Proof.
  split.
  - destruct ns as [|n1 [|n2 [|n3 [|n4 [|n5 [|n6 ns]]]]]]; reflexivity.
  - intros [n f] Hin. apply list_elem_of_In, elem_of_zip_l in Hin.
    apply list_elem_of_In. exact Hin.
Qed.

Lemma iadd_rect (h w : nat) target source (a m : ndarray) s :
  heap s !! target = Some a -> heap s !! source = Some m ->
  rect h w a -> rect h w m ->
  iadd target source s
  = (Ok tt, {| heap := <[target := zip_with (zip_with add) a m]> (heap s);
               warnings := warnings s |}).
Proof.
  intros Ha Hm Ra Rm. unfold iadd.
  rewrite (bind_eq _ _ _ _ _ (load_eq _ _ _ Ha)).
  rewrite (bind_eq _ _ _ _ _ (load_eq _ _ _ Hm)).
  rewrite (np_binop_rect add h w a m Ra Rm), bind_lift.
  rewrite (rect_same_shape h w _ a (rect_zip_with add h w a m Ra Rm) Ra).
  apply (store_eq _ _ _ a Ha).
Qed.

Lemma float_of_int_one : float_of_int 1 = 1%float.
Proof. vm_compute. reflexivity. Qed.

Lemma scale_step_residual images psf scale downsample morphology width s ib im
    (b m : ndarray) k (h w : nat) BINSZ shape acc :
  getitem images "background" = Ok ib -> getitem images "model" = Ok im ->
  In "background"%string (take 5 (names images)) ->
  In "model"%string (take 5 (names images)) ->
  heap s !! sky_data ib = Some b -> heap s !! sky_data im = Some m ->
  rect h w b -> rect h w m ->
  downsampling_factor downsample scale BINSZ = 1%Z ->
  source_kernel lib psf scale BINSZ 1 morphology width = Ok k ->
  scale_step lib images psf downsample true morphology width BINSZ shape acc scale s
  = (Raise (NameError "compute_ts_image"),
     {| heap := <[sky_data ib := zip_with (zip_with add) b m]> (heap s);
        warnings := warnings s |}).
Proof.
  intros Hib Him Hnb Hnm Hb Hm Rb Rm Hf Hk.
  unfold scale_step. cbv zeta. rewrite Hf.
  change (negb (1 =? 1)%Z) with false. cbn [andb]. rewrite float_of_int_one.
  destruct (zip_names_funcs (names images)) as [Hfst Hsub].
  destruct (resample_aliases images shape 1 (zip (names images) funcs)
              empty_list None s Hsub) as (images2 & Hloop & Hnew & _).
  rewrite Hfst in Hnew.
  rewrite (bind_eq _ _ _ _ _ Hloop). cbv beta iota.
  rewrite Hk, bind_lift.
  rewrite bind_assoc.
  rewrite (Hnew _ Hnb), Hib, bind_lift.
  rewrite bind_assoc, (Hnew _ Hnm), Him, bind_lift.
  rewrite (bind_eq _ _ _ _ _ (iadd_rect h w _ _ b m s Hb Hm Rb Rm)).
  reflexivity.
Qed.

(** C9.  The multiscale driver in residual mode, at a scale that is not
    down sampled: [images2] holds the image objects of the caller, the
    model is added into the array of the caller's background image, and
    the call then stops at the unbound name [compute_ts_image].  The
    caller's background array holds [background + model] afterwards. *)
Theorem multiscale_residual_adds_in_place images psf scale scales downsample morphology
    width s ic ib im (c b m : ndarray) k (h w : nat) :
  getitem images "counts" = Ok ic -> heap s !! sky_data ic = Some c ->
  getitem images "background" = Ok ib -> getitem images "model" = Ok im ->
  In "background"%string (take 5 (names images)) ->
  In "model"%string (take 5 (names images)) ->
  heap s !! sky_data ib = Some b -> heap s !! sky_data im = Some m ->
  rect h w b -> rect h w m ->
  downsampling_factor downsample scale (abs (sky_cdelt ic)) = 1%Z ->
  source_kernel lib psf scale (abs (sky_cdelt ic)) 1 morphology width = Ok k ->
  compute_ts_image_multiscale lib images psf (scale :: scales) downsample true
                              morphology width s
  = (Raise (NameError "compute_ts_image"),
     {| heap := <[sky_data ib := zip_with (zip_with add) b m]> (heap s);
        warnings := warnings s |}).
Proof.
  intros Hic Hc Hib Him Hnb Hnm Hb Hm Rb Rm Hf Hk.
  unfold compute_ts_image_multiscale. rewrite Hic, bind_lift.
  rewrite (bind_eq _ _ _ _ _ (load_eq _ _ _ Hc)). cbv zeta.
  cbn [foldM].
  apply bind_raise.
  eapply scale_step_residual; eauto.
Qed.

End MultiscaleAliasing.

(** An instance for the examples: a one-pixel PSF kernel, and none of the
    resampling operations or source kernels, which a scale of zero without
    down sampling does not use. *)
Module MultiscaleExample.

Definition unavailable {A} : M A := lift (Raise Stuck).

Definition lib : library unit := {|
  symmetric_crop_pad_width := fun _ _ => ((0, 0), (0, 0))%nat;
  shape_2N := fun shape => shape;
  sky_pad := fun _ _ => unavailable;
  sky_downsample := fun _ _ _ => unavailable;
  sky_upsample := fun _ _ _ => unavailable;
  sky_crop := fun _ _ => unavailable;
  multi_gauss_psf_kernel := fun _ _ _ => Ok Example.point_kernel;
  Gaussian2DKernel := fun _ => Raise Stuck;
  _round_up_to_odd_integer := fun _ => 1%Z;
  Model2DKernel_Shell2D := fun _ _ _ => Raise Stuck;
  convolve := fun _ _ => Raise Stuck;
  normalize := fun k => k
|}.

Definition model : ndarray := [[1; 0; 0]; [0; 2; 0]; [0; 0; 0]].

Definition images : SkyImageList :=
  {| sky_images := [("counts", {| sky_data := 0%nat; sky_cdelt := 0.01 |});
                    ("background", {| sky_data := 1%nat; sky_cdelt := 0.01 |});
                    ("exposure", {| sky_data := 2%nat; sky_cdelt := 0.01 |});
                    ("model", {| sky_data := 3%nat; sky_cdelt := 0.01 |})]%string;
     sky_meta := [] |}.

Definition start : state :=
  {| heap := [Example.counts; Example.background; Example.exposure; model];
     warnings := [] |}.

End MultiscaleExample.

Lemma multiscale_residual_adds_in_place_witness :
  exists s',
    compute_ts_image_multiscale MultiscaleExample.lib MultiscaleExample.images tt
                                [0] None true "Gaussian2D" None MultiscaleExample.start
    = (Raise (NameError "compute_ts_image"), s') /\
    heap MultiscaleExample.start !! 1%nat = Some [[1; 1; 1]; [1; 1; 0]; [1; 1; 1]] /\
    heap s' !! 1%nat = Some [[2; 1; 1]; [1; 3; 0]; [1; 1; 1]].
Proof.
  eexists. split; [|split].
  - apply (multiscale_residual_adds_in_place MultiscaleExample.lib MultiscaleExample.images
             tt 0 [] None "Gaussian2D" None MultiscaleExample.start
             {| sky_data := 0%nat; sky_cdelt := 0.01 |}
             {| sky_data := 1%nat; sky_cdelt := 0.01 |}
             {| sky_data := 3%nat; sky_cdelt := 0.01 |}
             Example.counts Example.background MultiscaleExample.model
             Example.point_kernel 3 3);
      try reflexivity;
      try (split; [reflexivity | repeat constructor]).
    + right. left. reflexivity.
    + right. right. right. left. reflexivity.
  - reflexivity.
  - vm_compute. reflexivity.
Defined.

(* ===================================================================== *)
(** * What a run leaves alone *)
(* ===================================================================== *)

(** The store [s] still holds every array of [s0], unchanged. *)
Definition frame (s0 s : state) : Prop :=
  (length (heap s0) <= length (heap s))%nat /\
  forall l, (l < length (heap s0))%nat -> heap s !! l = heap s0 !! l.

(** A computation that keeps the arrays of [s0] whatever its outcome, and
    whose result, when there is one, satisfies [Q]. *)
Definition keeps {A} (s0 : state) (m : M A) (Q : A -> Prop) : Prop :=
  forall s, frame s0 s ->
    match m s with
    | (Ok a, s') => frame s0 s' /\ Q a
    | (Raise _, s') => frame s0 s'
    end.

(** The arrays of the images of a list were allocated after [s0]. *)
Definition fresh_images (s0 : state) (images : SkyImageList) : Prop :=
  forall name img, getitem images name = Ok img -> (length (heap s0) <= sky_data img)%nat.

Section Keeps.

#[local] Open Scope nat_scope.

Variable s0 : state.

Lemma frame_refl : frame s0 s0.
Proof. split; [lia | reflexivity]. Qed.

Lemma keeps_bind {A B} (m : M A) (f : A -> M B) (Q : A -> Prop) (R : B -> Prop) :
  keeps s0 m Q -> (forall a, Q a -> keeps s0 (f a) R) -> keeps s0 (m ≫= f) R.
Proof.
  intros Hm Hf s Hs. specialize (Hm s Hs). unfold mbind, M_bind.
  destruct (m s) as [[a|e] s1]; [|exact Hm].
  destruct Hm as [Hs1 Ha]. apply (Hf a Ha s1 Hs1).
Qed.

Lemma keeps_weaken {A} (m : M A) (Q Q' : A -> Prop) :
  keeps s0 m Q -> (forall a, Q a -> Q' a) -> keeps s0 m Q'.
Proof.
  intros Hm HQ s Hs. specialize (Hm s Hs).
  destruct (m s) as [[a|e] s1]; [|exact Hm]. destruct Hm. auto.
Qed.

Lemma keeps_lift {A} (r : result A) : keeps s0 (lift r) (fun a => r = Ok a).
Proof. intros s Hs. unfold lift. destruct r; auto. Qed.

Lemma keeps_mret {A} (a : A) (Q : A -> Prop) : Q a -> keeps s0 (mret a) Q.
Proof. intros Ha s Hs. cbn. auto. Qed.

Lemma keeps_load l : keeps s0 (load l) (fun _ => True).
Proof. intros s Hs. unfold load. destruct (heap s !! l); auto. Qed.

Lemma keeps_alloc a : keeps s0 (alloc a) (fun l => length (heap s0) <= l).
Proof.
  intros s [Hlen Hs]. unfold alloc. split; [split|]; cbn [heap].
  - rewrite length_app. lia.
  - intros l Hl. rewrite lookup_app_l by lia. apply Hs. exact Hl.
  - exact Hlen.
Qed.

Lemma keeps_store (l : loc) a :
  length (heap s0) <= l -> keeps s0 (store l a) (fun _ => True).
Proof.
  intros Hl s [Hlen Hs]. unfold store.
  destruct (heap s !! l); cbv beta iota; [|split; assumption].
  split; [split|exact I]; cbn [heap].
  - rewrite length_insert. exact Hlen.
  - intros l' Hl'. rewrite list_lookup_insert_ne by lia. apply Hs. exact Hl'.
Qed.

Lemma keeps_log msg : keeps s0 (log_warning msg) (fun _ => True).
Proof. intros s Hs. unfold log_warning. cbn. split; [exact Hs | exact I]. Qed.

Lemma keeps_foldM {A B} (f : B -> A -> M B) (I : B -> Prop) (l : list A) :
  (forall b x, I b -> keeps s0 (f b x) I) ->
  forall b, I b -> keeps s0 (foldM f l b) I.
Proof.
  intros Hf. induction l as [|x l IH]; intros b Hb; cbn [foldM].
  - apply keeps_mret. exact Hb.
  - eapply keeps_bind; [apply Hf; exact Hb|]. intros b' Hb'. apply IH. exact Hb'.
Qed.

Lemma fresh_empty : fresh_images s0 empty_list.
Proof. intros name img H. discriminate H. Qed.

Lemma fresh_setitem images name img :
  fresh_images s0 images -> length (heap s0) <= sky_data img ->
  fresh_images s0 (setitem images name img).
Proof.
  intros Hf Hi name' img' H. unfold getitem, setitem in H. cbn [sky_images] in H.
  destruct (string_dec name name') as [<- | Hne].
  - rewrite assoc_set_same in H. injection H as <-. exact Hi.
  - rewrite assoc_set_other in H by exact Hne. apply (Hf name' img'). exact H.
Qed.

Lemma keeps_empty_like image fill :
  keeps s0 (empty_like image fill) (fun img => length (heap s0) <= sky_data img).
Proof.
  unfold empty_like.
  eapply keeps_bind; [apply keeps_load|]. intros a _.
  eapply keeps_bind; [apply keeps_alloc|]. intros l Hl.
  apply keeps_mret. exact Hl.
Qed.

Lemma keeps_astype_float image :
  keeps s0 (astype_float image) (fun l => length (heap s0) <= l).
Proof.
  unfold astype_float. eapply keeps_bind; [apply keeps_load|]. intros a _.
  apply keeps_alloc.
Qed.

Lemma keeps__parse_image_data images :
  keeps s0 (_parse_image_data images)
        (fun '(counts, exposure, background) => length (heap s0) <= exposure).
Proof.
  unfold _parse_image_data.
  eapply keeps_bind; [apply keeps_lift|]. intros ic _.
  eapply keeps_bind; [apply keeps_astype_float|]. intros counts _.
  eapply keeps_bind; [apply keeps_lift|]. intros ib _.
  eapply keeps_bind; [apply keeps_astype_float|]. intros background _.
  eapply keeps_bind; [apply keeps_lift|]. intros ie _.
  eapply keeps_bind; [apply keeps_astype_float|]. intros exposure He.
  eapply keeps_bind; [apply keeps_load|]. intros c _.
  eapply keeps_bind; [apply keeps_load|]. intros b _.
  eapply keeps_bind; [apply keeps_load|]. intros e _.
  destruct (negb (shape_eq c b));
    [eapply keeps_weaken; [apply keeps_lift | intros ? Hd; discriminate Hd]|].
  destruct (negb (shape_eq c e));
    [eapply keeps_weaken; [apply keeps_lift | intros ? Hd; discriminate Hd]|].
  apply keeps_mret. exact He.
Qed.

Lemma keeps__get_mask (exposure background : loc) :
  length (heap s0) <= exposure ->
  keeps s0 (_get_mask exposure background) (fun _ => True).
Proof.
  intros He. unfold _get_mask.
  eapply keeps_bind; [apply keeps_load|]. intros b _.
  eapply keeps_bind; [apply keeps_load|]. intros e _.
  eapply keeps_bind; [apply keeps_lift|]. intros mask_ _.
  eapply keeps_bind with (Q := fun _ => True).
  - destruct (np_any mask_); [|apply keeps_mret; exact I].
    eapply keeps_bind; [apply keeps_log|]. intros _ _.
    eapply keeps_bind; [apply keeps_lift|]. intros e' _.
    apply keeps_store. exact He.
  - intros _ _. eapply keeps_bind; [apply keeps_load|]. intros e' _.
    apply keeps_mret. exact I.
Qed.

Lemma keeps_gather wrap positions results result j i consumed name :
  fresh_images s0 result ->
  keeps s0 (gather wrap positions results result j i consumed name) (fun _ => True).
Proof.
  intros Hf. unfold gather.
  eapply keeps_bind; [apply keeps_lift|]. intros [values consumed'] _.
  eapply keeps_bind; [apply keeps_lift|]. intros img Himg.
  eapply keeps_bind; [apply keeps_load|]. intros a _.
  eapply keeps_bind; [apply keeps_lift|]. intros a' _.
  eapply keeps_bind; [apply keeps_store; apply (Hf name img); exact Himg|]. intros _ _.
  apply keeps_mret. exact I.
Qed.

Lemma keeps_run ext py self images which :
  keeps s0 (run ext py self images which) (fun _ => True).
Proof.
  unfold run. cbv zeta.
  eapply keeps_bind; [apply keeps_lift|]. intros _ _.
  eapply keeps_bind.
  { apply (keeps_foldM _ (fresh_images s0)); [|apply fresh_empty].
    intros result name Hres.
    eapply keeps_bind; [apply keeps_lift|]. intros like _.
    eapply keeps_bind; [apply keeps_empty_like|]. intros img Himg.
    apply keeps_mret. apply fresh_setitem; assumption. }
  intros result Hres.
  eapply keeps_bind; [apply keeps__parse_image_data|].
  intros [[counts exposure] background] Hexp.
  eapply keeps_bind; [apply keeps_load|]. intros counts_v _.
  eapply keeps_bind; [apply keeps_load|]. intros background_v _.
  eapply keeps_bind; [apply keeps__get_mask; exact Hexp|]. intros mask _.
  eapply keeps_bind with (Q := fun _ => True).
  { destruct (String.eqb _ _); [|apply keeps_mret; exact I].
    eapply keeps_bind; [apply keeps_lift|]. intros f _. apply keeps_mret. exact I. }
  intros flux _.
  eapply keeps_bind; [apply keeps_load|]. intros exposure_v _.
  eapply keeps_bind with (Q := fun _ => True).
  { destruct (parallel self); [|destruct py].
    - eapply keeps_bind; [apply keeps_lift|]. intros l _. apply keeps_mret. exact I.
    - eapply keeps_bind; [apply keeps_lift|]. intros l _. apply keeps_mret. exact I.
    - apply keeps_mret. exact I. }
  intros results _.
  eapply keeps_bind; [apply keeps_lift|]. intros [j i] _.
  eapply keeps_bind.
  { apply (keeps_foldM _ (fun _ => True)); [|exact I].
    intros consumed name _. apply keeps_gather. exact Hres. }
  intros _ _.
  eapply keeps_bind with (Q := fun _ => True).
  { destruct (existsb _ _); [|apply keeps_mret; exact I].
    eapply keeps_bind; [apply keeps_lift|]. intros img _.
    eapply keeps_bind; [apply keeps_load|]. intros ts _.
    eapply keeps_bind; [apply keeps_lift|]. intros target _.
    eapply keeps_bind; [apply keeps_alloc|]. intros l _.
    apply keeps_mret. exact I. }
  intros res _. apply keeps_mret. exact I.
Qed.

End Keeps.

(** Whatever the outcome of a run, every array that was in the store
    before the call is there afterwards, unchanged: the estimator works on
    the copies that [_parse_image_data] makes and on arrays of its own. *)
Theorem run_leaves_arrays_alone ext py self images which s r s' :
  run ext py self images which s = (r, s') ->
  forall l a, heap s !! l = Some a -> heap s' !! l = Some a.
Proof.
  intros Hrun l a Hl.
  pose proof (keeps_run s ext py self images which s (frame_refl s)) as H.
  rewrite Hrun in H.
  assert (Hf : frame s s') by (destruct r; [destruct H|]; assumption).
  destruct Hf as [_ Hf]. rewrite Hf; [exact Hl|]. eapply lookup_lt_Some; eauto.
Qed.

Lemma run_leaves_arrays_alone_witness :
  exists r s',
    run Reference.ext Python3 (Example.estimator "root brentq" true None)
        Reference.images_of None Example.start = (r, s') /\
    heap s' !! 0%nat = Some Example.counts /\
    heap s' !! 1%nat = Some Example.background /\
    heap s' !! 2%nat = Some Example.exposure.
Proof.
  assert (H : { p | run Reference.ext Python3 (Example.estimator "root brentq" true None)
                        Reference.images_of None Example.start = (fst p, snd p) }).
  { eexists (_, _). vm_compute. reflexivity. }
  destruct H as [[r s'] H]. exists r, s'. split; [exact H|].
  pose proof (run_leaves_arrays_alone _ _ _ _ _ _ _ _ H) as Hk.
  repeat split; apply Hk; reflexivity.
Defined.

(* ===================================================================== *)
(** * Runs that stop before the fit *)
(* ===================================================================== *)

Section RunStops.

#[local] Open Scope nat_scope.

Variable ext : externals.

(** The loop that creates the result images, for any list of names. *)
Lemma new_images_any h0 ws images ic (c : ndarray) which :
  getitem images "counts" = Ok ic -> h0 !! sky_data ic = Some c ->
  forall R0 L, exists R L',
    foldM (fun result name =>
             like ← lift (getitem images "counts");
             img ← empty_like like nan;
             mret (setitem result name img))
          which R0 {| heap := h0 ++ L; warnings := ws |}
    = (Ok R, {| heap := h0 ++ (L ++ L'); warnings := ws |}).
Proof.
  intros Hic Hc. induction which as [|name which IH]; intros R0 L.
  - exists R0, []. rewrite app_nil_r. reflexivity.
  - cbn [foldM]. rewrite (bind_eq _ _ _ _ _ (new_image _ _ _ _ _ _ _ _ Hic Hc)).
    destruct (IH (setitem R0 name
                    {| sky_data := length h0 + length L; sky_cdelt := sky_cdelt ic |})
                 (L ++ [np_full (nrows c) (ncols c) nan])) as (R & L' & ->).
    exists R, ([np_full (nrows c) (ncols c) nan] ++ L').
    rewrite <- app_assoc. reflexivity.
Qed.

Lemma _parse_image_data_mismatch h0 L ws images ic ib ie (c b e : ndarray) :
  getitem images "counts" = Ok ic -> getitem images "background" = Ok ib ->
  getitem images "exposure" = Ok ie ->
  h0 !! sky_data ic = Some c -> h0 !! sky_data ib = Some b -> h0 !! sky_data ie = Some e ->
  same_shape c b && same_shape c e = false ->
  _parse_image_data images {| heap := h0 ++ L; warnings := ws |}
  = (Raise AssertionError, {| heap := h0 ++ (L ++ [c; b; e]); warnings := ws |}).
Proof.
  intros Hic Hib Hie Hc Hb He Hs. unfold _parse_image_data.
  rewrite Hic, bind_lift, (bind_eq _ _ _ _ _ (astype_float_new _ _ _ _ _ Hc)).
  rewrite Hib, bind_lift, (bind_eq _ _ _ _ _ (astype_float_new _ _ _ _ _ Hb)).
  rewrite Hie, bind_lift, (bind_eq _ _ _ _ _ (astype_float_new _ _ _ _ _ He)).
  rewrite !length_app. cbn [length].
  replace (((L ++ [c]) ++ [b]) ++ [e]) with (L ++ [c; b; e])
    by (rewrite <- !app_assoc; reflexivity).
  assert (H0 : (L ++ [c; b; e]) !! length L = Some c)
    by (rewrite lookup_app_r by lia; rewrite Nat.sub_diag; reflexivity).
  assert (H1 : (L ++ [c; b; e]) !! (length L + 1) = Some b)
    by (rewrite lookup_app_r by lia;
        replace (length L + 1 - length L) with 1 by lia; reflexivity).
  assert (H2 : (L ++ [c; b; e]) !! (length L + 1 + 1) = Some e)
    by (rewrite lookup_app_r by lia;
        replace (length L + 1 + 1 - length L) with 2 by lia; reflexivity).
  rewrite (bind_eq _ _ _ _ _ (load_new _ _ _ _ _ H0)).
  rewrite (bind_eq _ _ _ _ _ (load_new _ _ _ _ _ H1)).
  rewrite (bind_eq _ _ _ _ _ (load_new _ _ _ _ _ H2)).
  unfold shape_eq.
  destruct (same_shape c b); cbn [negb]; [|reflexivity].
  cbn [andb] in Hs. rewrite Hs. reflexivity.
Qed.

(** Images whose shapes differ: the run stops at the assertion of
    [_parse_image_data], whatever the estimator and the images asked
    for. *)
Theorem run_shape_mismatch py self images which s ic ib ie (c b e : ndarray) :
  getitem images "counts" = Ok ic -> getitem images "background" = Ok ib ->
  getitem images "exposure" = Ok ie ->
  heap s !! sky_data ic = Some c -> heap s !! sky_data ib = Some b ->
  heap s !! sky_data ie = Some e ->
  same_shape c b && same_shape c e = false ->
  exists s', run ext py self images which s = (Raise AssertionError, s').
Proof.
  intros Hic Hib Hie Hc Hb He Hs.
  destruct s as [h0 ws]. cbn [heap] in Hc, Hb, He.
  assert (Hs0 : {| heap := h0; warnings := ws |} = {| heap := h0 ++ []; warnings := ws |})
    by (rewrite app_nil_r; reflexivity).
  rewrite Hs0. clear Hs0.
  unfold run. cbv zeta.
  rewrite (check_required_ok _ _ _ _ Hic Hib Hie), bind_lift.
  destruct (new_images_any h0 ws images ic c (which_list which) Hic Hc empty_list [])
    as (R & L' & Hnew).
  rewrite (bind_eq _ _ _ _ _ Hnew).
  rewrite (bind_raise _ _ _ _ _
             (_parse_image_data_mismatch _ _ _ _ _ _ _ _ _ _ Hic Hib Hie Hc Hb He Hs)).
  eauto.
Qed.

(** No candidate pixel (no exposure, or an image that the kernel does not
    fit into): the positions cannot be unpacked into rows and columns, and
    the run raises [ValueError]. *)
Theorem run_without_candidates py self images which s ic ib ie (c b e : ndarray)
    (h w : nat) :
  method self <> "root newton"%string ->
  getitem images "counts" = Ok ic -> getitem images "background" = Ok ib ->
  getitem images "exposure" = Ok ie ->
  heap s !! sky_data ic = Some c -> heap s !! sky_data ib = Some b ->
  heap s !! sky_data ie = Some e ->
  rect h w c -> rect h w b -> rect h w e ->
  _get_positions self (np_map (fun x => 0 <? x)%float (corrected_exposure e b)) = [] ->
  exists s', run ext py self images which s = (Raise ValueError, s').
Proof.
  intros Hm Hic Hib Hie Hc Hb He Rc Rb Re Hpos.
  destruct s as [h0 ws]. cbn [heap] in Hc, Hb, He.
  assert (Hs0 : {| heap := h0; warnings := ws |} = {| heap := h0 ++ []; warnings := ws |})
    by (rewrite app_nil_r; reflexivity).
  rewrite Hs0. clear Hs0.
  unfold run. cbv zeta.
  rewrite (check_required_ok _ _ _ _ Hic Hib Hie), bind_lift.
  destruct (new_images_any h0 ws images ic c (which_list which) Hic Hc empty_list [])
    as (R & L' & Hnew).
  rewrite (bind_eq _ _ _ _ _ Hnew). clear Hnew. cbn [app].
  rewrite (bind_eq _ _ _ _ _
             (_parse_image_data_new _ _ _ _ _ _ _ _ _ _ h w Hic Hib Hie Hc Hb He Rc Rb Re)).
  assert (Hl0 : (L' ++ [c; b; e]) !! length L' = Some c)
    by (rewrite lookup_app_r by lia; rewrite Nat.sub_diag; reflexivity).
  assert (Hl1 : (L' ++ [c; b; e]) !! (length L' + 1) = Some b)
    by (rewrite lookup_app_r by lia;
        replace (length L' + 1 - length L') with 1 by lia; reflexivity).
  assert (Hl2 : (L' ++ [c; b; e]) !! (length L' + 2) = Some e)
    by (rewrite lookup_app_r by lia;
        replace (length L' + 2 - length L') with 2 by lia; reflexivity).
  rewrite (bind_eq _ _ _ _ _ (load_new _ _ _ _ _ Hl0)).
  rewrite (bind_eq _ _ _ _ _ (load_new _ _ _ _ _ Hl1)).
  destruct (_get_mask_new h0 (L' ++ [c; b; e]) ws _ _ e b h w Hl2 Hl1 Re Rb)
    as [ws' Hmask].
  rewrite (bind_eq _ _ _ _ _ Hmask). clear Hmask.
  rewrite Hpos.
  apply String.eqb_neq in Hm. rewrite Hm, bind_mret.
  assert (Hl2' : <[length L' + 2 := corrected_exposure e b]> (L' ++ [c; b; e])
                 !! (length L' + 2) = Some (corrected_exposure e b)).
  { apply list_lookup_insert_eq. rewrite length_app. cbn [length]. lia. }
  rewrite (bind_eq _ _ _ _ _ (load_new _ _ _ _ _ Hl2')).
  destruct (parallel self); [|destruct py]; cbn [mapR];
    rewrite ?bind_assoc, ?bind_lift, ?bind_mret; cbn [unzip_positions];
    rewrite bind_lift_raise; eauto.
Qed.

End RunStops.

Lemma run_shape_mismatch_witness :
  exists s',
    run Reference.ext Python3 (Example.estimator "root brentq" true None)
        Reference.images_of None
        (Reference.state_of Example.counts [[1; 1; 1]] Example.exposure)
    = (Raise AssertionError, s').
Proof.
  apply (run_shape_mismatch Reference.ext Python3 (Example.estimator "root brentq" true None)
           Reference.images_of None
           (Reference.state_of Example.counts [[1; 1; 1]] Example.exposure)
           {| sky_data := 0%nat; sky_cdelt := 0.01 |}
           {| sky_data := 1%nat; sky_cdelt := 0.01 |}
           {| sky_data := 2%nat; sky_cdelt := 0.01 |}
           Example.counts [[1; 1; 1]] Example.exposure); reflexivity.
Defined.

Lemma run_without_candidates_witness :
  exists s',
    run Reference.ext Python3 (Example.estimator "root brentq" true None)
        Reference.images_of None
        (Reference.state_of Example.counts Example.background
                            [[0; 0; 0]; [0; 0; 0]; [0; 0; 0]])
    = (Raise ValueError, s').
Proof.
  apply (run_without_candidates Reference.ext Python3
           (Example.estimator "root brentq" true None) Reference.images_of None
           (Reference.state_of Example.counts Example.background
                               [[0; 0; 0]; [0; 0; 0]; [0; 0; 0]])
           {| sky_data := 0%nat; sky_cdelt := 0.01 |}
           {| sky_data := 1%nat; sky_cdelt := 0.01 |}
           {| sky_data := 2%nat; sky_cdelt := 0.01 |}
           Example.counts Example.background [[0; 0; 0]; [0; 0; 0]; [0; 0; 0]] 3 3);
    try reflexivity; try (split; [reflexivity | repeat constructor]).
  discriminate.
Defined.

(* ===================================================================== *)
(** * The images of the result *)
(* ===================================================================== *)

Section ResultNames.

Variable ext : externals.

Lemma getitem_setitem_iff images name name' img :
  (exists v, getitem (setitem images name img) name' = Ok v) <->
  name' = name \/ exists v, getitem images name' = Ok v.
Proof.
  unfold getitem, setitem. cbn [sky_images].
  destruct (string_dec name name') as [<- | Hne].
  - rewrite assoc_set_same. split; eauto.
  - rewrite assoc_set_other by exact Hne. split; [eauto|].
    intros [-> | H]; [contradiction | exact H].
Qed.

Lemma new_images_names images which :
  forall R0 s R s',
    foldM (fun result name =>
             like ← lift (getitem images "counts");
             img ← empty_like like nan;
             mret (setitem result name img))
          which R0 s = (Ok R, s') ->
    forall name, (exists v, getitem R name = Ok v) <->
                 (In name which \/ exists v, getitem R0 name = Ok v).
Proof.
  induction which as [|n which IH]; intros R0 s R s' H name.
  - cbn in H. injection H as <- <-. cbn. tauto.
  - cbn [foldM] in H. apply bind_ok in H. destruct H as (R1 & s1 & H1 & H2).
    inv_ok H1. rewrite (IH _ _ _ _ H2 name), getitem_setitem_iff. cbn [In].
    split; intros Hx; intuition (subst; auto).
Qed.

Lemma gather_ok_getitem wrap positions results result j i consumed name s c' s' :
  gather wrap positions results result j i consumed name s = (Ok c', s') ->
  exists img, getitem result name = Ok img.
Proof.
  unfold gather. intros H. inv_ok H. eauto.
Qed.

(** The loop that writes the values goes through all five images, whatever
    was asked for: a run that returns was asked for every one of them. *)
Theorem run_needs_gathered_images py self images which s res s' :
  run ext py self images (Some which) s = (Ok res, s') ->
  forall name, In name gathered_images -> In name which.
Proof.
  intros Hrun name Hin. unfold run in Hrun. cbv beta zeta in Hrun.
  apply bind_ok in Hrun. destruct Hrun as (u & s1 & _ & Hrun).
  apply bind_ok in Hrun. destruct Hrun as (result & s2 & Hnew & Hrun).
  pose proof (new_images_names images _ _ _ _ _ Hnew) as Hnames.
  inv_ok Hrun.
  match goal with H : foldM _ gathered_images _ _ = _ |- _ =>
    cbn [foldM gathered_images] in H; inv_ok H end.
  assert (Hg : exists img, getitem result name = Ok img).
  { cbn in Hin.
    repeat match goal with H : gather _ _ _ _ _ _ _ _ _ = _ |- _ =>
      apply gather_ok_getitem in H end.
    intuition (subst; assumption). }
  apply Hnames in Hg. destruct Hg as [Hg | [v Hv]]; [exact Hg | discriminate Hv].
Qed.

(** The result of a run holds an image for exactly the names asked for. *)
Theorem run_result_names py self images which s res s' :
  run ext py self images which s = (Ok res, s') ->
  forall name, (exists img, getitem res name = Ok img) <-> In name (which_list which).
Proof.
  intros Hrun name. unfold run in Hrun. cbv beta zeta in Hrun.
  apply bind_ok in Hrun. destruct Hrun as (u & s1 & _ & Hrun).
  apply bind_ok in Hrun. destruct Hrun as (result & s2 & Hnew & Hrun).
  pose proof (new_images_names images _ _ _ _ _ Hnew) as Hnames.
  assert (Hno : forall n, ~ exists v, getitem empty_list n = Ok v)
    by (intros n [v Hv]; discriminate Hv).
  inv_ok Hrun.
  match goal with H : (if existsb _ _ then _ else _) _ = _ |- _ =>
    destruct (existsb (String.eqb "sqrt_ts") (which_list which)) eqn:Eq; inv_ok H end.
  - rewrite getitem_setitem_iff, Hnames. split.
    + intros [-> | [Hi | Hv]]; [|exact Hi | destruct (Hno _ Hv)].
      apply existsb_exists in Eq. destruct Eq as (n & Hn & En).
      apply String.eqb_eq in En. subst n. exact Hn.
    + auto.
  - rewrite Hnames. split; [|auto].
    intros [Hi | Hv]; [exact Hi | destruct (Hno _ Hv)].
Qed.

End ResultNames.

Lemma run_needs_gathered_images_witness :
  exists res s',
    run Reference.ext Python3 (Example.estimator "root brentq" true None)
        Reference.images_of
        (Some ["niter"; "flux_err_profile"; "flux_err"; "flux"; "ts"]%string)
        Example.start = (Ok res, s') /\
    forall name, In name gathered_images ->
                 In name ["niter"; "flux_err_profile"; "flux_err"; "flux"; "ts"]%string.
Proof.
  assert (H : { p | run Reference.ext Python3 (Example.estimator "root brentq" true None)
                        Reference.images_of
                        (Some ["niter"; "flux_err_profile"; "flux_err"; "flux"; "ts"]%string)
                        Example.start = (Ok (fst p), snd p) }).
  { eexists (_, _). vm_compute. reflexivity. }
  destruct H as [[res s'] H]. exists res, s'. split; [exact H|].
  exact (run_needs_gathered_images _ _ _ _ _ _ _ _ H).
Defined.

Lemma run_result_names_witness :
  exists res s',
    run Reference.ext Python2 (Example.estimator "root brentq" false None)
        Reference.images_of None Example.start = (Ok res, s') /\
    forall name, (exists img, getitem res name = Ok img) <-> In name all_images.
Proof.
  assert (H : { p | run Reference.ext Python2 (Example.estimator "root brentq" false None)
                        Reference.images_of None Example.start = (Ok (fst p), snd p) }).
  { eexists (_, _). vm_compute. reflexivity. }
  destruct H as [[res s'] H]. exists res, s'. split; [exact H|].
  exact (run_result_names _ _ _ _ _ _ _ _ H).
Defined.

(* ===================================================================== *)
(** * The window of [_extract_array] *)
(* ===================================================================== *)

Section Window.

#[local] Open Scope Z_scope.

Lemma _extract_array_half {A} (a : array2 A) (n n' kw kw' : Z) (p : Z * Z) :
  floordiv2 n = floordiv2 n' ->
  _extract_array a (n, kw) p = _extract_array a (n', kw') p.
Proof.
  intros H. unfold _extract_array. cbn [fst snd]. rewrite H. reflexivity.
Qed.

(** For a shape [(n, kw)] and a position at least [n // 2] pixels away
    from every edge, the slice is the square window of side
    [2 * (n // 2) + 1] centred on the position, whatever [kw] is: rows and
    columns both use the half width [n // 2]. *)
Theorem _extract_array_window {A} (h w k : nat) (a : array2 A) (n kw : Z) (p : Z * Z) :
  rect h w a -> floordiv2 n = Z.of_nat k ->
  Z.of_nat k <= fst p -> fst p + Z.of_nat k < Z.of_nat h ->
  Z.of_nat k <= snd p -> snd p + Z.of_nat k < Z.of_nat w ->
  rect (2 * k + 1) (2 * k + 1) (_extract_array a (n, kw) p) /\
  forall j i : nat, (j < 2 * k + 1)%nat -> (i < 2 * k + 1)%nat ->
    get2 (_extract_array a (n, kw) p) j i
    = get2 a (Z.to_nat (fst p) - k + j) (Z.to_nat (snd p) - k + i).
Proof.
  intros Ra Hn H1 H2 H3 H4.
  rewrite (_extract_array_half a n (Z.of_nat (2 * k + 1)) kw kw p)
    by (rewrite floordiv2_odd; exact Hn).
  split.
  - apply (_extract_array_rect h w); assumption.
  - intros j i Hj Hi. apply (_extract_array_get h w); assumption.
Qed.

(** Closer than the half width to the top edge the lower row index is
    negative and counts from the end of the array: in an image with at
    least [2 * k + 1] rows the slice has no rows at all. *)
Theorem _extract_array_wraps {A} (h w k : nat) (a : array2 A) (n kw : Z) (p : Z * Z) :
  rect h w a -> floordiv2 n = Z.of_nat k ->
  0 <= fst p < Z.of_nat k -> Z.of_nat (2 * k + 1) <= Z.of_nat h ->
  _extract_array a (n, kw) p = [].
Proof.
  intros [Hl _] Hn Hp Hh. unfold _extract_array, slice2. cbn [fst snd]. rewrite Hn.
  unfold py_slice, slice_index. rewrite Hl.
  destruct (Z.ltb_spec (fst p - Z.of_nat k) 0); [|lia].
  destruct (Z.ltb_spec (fst p + Z.of_nat k + 1) 0); [lia|].
  replace (Z.to_nat (Z.min (fst p + Z.of_nat k + 1) (Z.of_nat h))
           - Z.to_nat (Z.max (fst p - Z.of_nat k + Z.of_nat h) 0))%nat with 0%nat by lia.
  reflexivity.
Qed.

End Window.

Lemma _extract_array_window_witness :
  rect 1 1 (_extract_array Example.counts (1, 7)%Z (1, 1)%Z) /\
  get2 (_extract_array Example.counts (1, 7)%Z (1, 1)%Z) 0 0 = Some 5.
Proof.
  destruct (_extract_array_window 3 3 0 Example.counts 1 7 (1, 1)%Z) as [R G];
    try (vm_compute; congruence); try reflexivity.
  - split; [reflexivity | repeat constructor].
  - split; [exact R|]. rewrite (G 0%nat 0%nat) by (cbn; lia). reflexivity.
Defined.

Lemma _extract_array_wraps_witness :
  _extract_array Example.counts (3, 3)%Z (0, 1)%Z = [].
Proof.
  apply (_extract_array_wraps 3 3 1 Example.counts 3 3 (0, 1)%Z).
  - split; [reflexivity | repeat constructor].
  - reflexivity.
  - cbn. lia.
  - cbn. lia.
Defined.

(* ===================================================================== *)
(** * Kernels that are not square *)
(* ===================================================================== *)

Section KernelShape.

#[local] Open Scope Z_scope.

Variable ext : externals.

(** The slices are square with the side of the kernel's first axis, so the
    product [exposure_ * kernel._array] cannot be formed for a kernel whose
    second axis has another length (other than 1): [_ts_value] raises
    [ValueError] at every position inside the image, for every method. *)
Theorem _ts_value_needs_square_kernel (h w k kw : nat) (kernel : Kernel2D)
    (counts exposure background c_0_image : ndarray) (flux : option ndarray)
    (method : string) (threshold : option float) (p : Z * Z) :
  rect (2 * k + 1) kw (kernel_array kernel) ->
  kw <> (2 * k + 1)%nat -> kw <> 1%nat -> (1 <= k)%nat ->
  rect h w exposure ->
  Z.of_nat k <= fst p -> fst p + Z.of_nat k < Z.of_nat h ->
  Z.of_nat k <= snd p -> snd p + Z.of_nat k < Z.of_nat w ->
  _ts_value ext p counts exposure background c_0_image kernel flux method threshold
  = Raise ValueError.
Proof.
  intros Rk Hkw Hkw1 Hk Re H1 H2 H3 H4.
  assert (Hshape : kernel_shape kernel
                   = (Z.of_nat (2 * k + 1), Z.of_nat (ncols (kernel_array kernel)))).
  { unfold kernel_shape. f_equal. f_equal. apply Rk. }
  unfold _ts_value. cbv zeta. rewrite Hshape.
  set (kwz := Z.of_nat (ncols (kernel_array kernel))).
  pose proof (_extract_array_rect h w k exposure kwz p Re H1 H2 H3 H4) as Re'.
  unfold np_binop.
  replace (nrows (_extract_array exposure (Z.of_nat (2 * k + 1), kwz) p))
    with (2 * k + 1)%nat by (symmetry; apply Re').
  replace (nrows (kernel_array kernel)) with (2 * k + 1)%nat by (symmetry; apply Rk).
  rewrite (rect_ncols _ _ _ Re') by lia. rewrite (rect_ncols _ _ _ Rk) by lia.
  rewrite bdim_same. unfold bdim.
  destruct (Nat.eqb_spec (2 * k + 1) kw); [lia|].
  destruct (Nat.eqb_spec (2 * k + 1) 1); [lia|].
  destruct (Nat.eqb_spec kw 1); [lia|].
  reflexivity.
Qed.

End KernelShape.

Lemma _ts_value_needs_square_kernel_witness :
  _ts_value Reference.ext (1, 1)%Z Example.counts Example.exposure Example.background
            Example.counts {| kernel_array := [[1; 1]; [1; 1]; [1; 1]] |}
            None "root brentq" None
  = Raise ValueError.
Proof.
  apply (_ts_value_needs_square_kernel Reference.ext 3 3 1 2);
    try (split; [reflexivity | repeat constructor]); cbn; lia.
Defined.

(* ===================================================================== *)
(** * What the fit returns *)
(* ===================================================================== *)

Section FitResults.

Variable ext : externals.

Lemma ltb_irrefl x : (x <? x) = false.
Proof.
  rewrite FloatAxioms.ltb_spec. unfold SFltb.
  destruct (Prim2SF x) as [s|s| |s m e] eqn:E; try reflexivity.
  - destruct s; reflexivity.
  - rewrite Order.SFcompare_refl by discriminate. reflexivity.
Qed.

Lemma py_max_not_below a b : (py_max a b <? b) = false.
Proof.
  unfold py_max. destruct (a <? b) eqn:E; [apply ltb_irrefl | exact E].
Qed.

Lemma leastsq_loop_floor counts background model rtol floor n :
  forall i weights x_old x amplitude niter,
    leastsq_loop ext counts background model rtol floor n i weights x_old x
    = Ok (amplitude, niter) ->
    (amplitude <? floor) = false /\
    ((0 <= i)%Z -> (i <= niter <= i + Z.of_nat n)%Z \/ niter = MAX_NITER).
Proof.
  induction n as [|n IH]; intros i weights x_old x amplitude niter H.
  - cbn in H. destruct x as [x|]; [|discriminate H]. injection H as <- <-.
    split; [apply py_max_not_below | auto].
  - cbn [leastsq_loop] in H. cbv zeta in H.
    apply rbind_ok in H. destruct H as (q & _ & H).
    destruct (abs q <? rtol).
    + injection H as <- <-. split; [apply py_max_not_below|]. intros Hi. left. lia.
    + apply rbind_ok in H. destruct H as (weights' & _ & H).
      apply IH in H. destruct H as [Hf Hn]. split; [exact Hf|].
      intros Hi. destruct Hn as [Hn | Hn]; [lia | left; lia | right; exact Hn].
Qed.

(** With ['root brentq'] and ['leastsq iter'] the fitted amplitude is never
    below the lower bound [amplitude_min_total]: it is that bound, the
    larger of the solver's value and the bound, or not a number. *)
Theorem amplitude_not_below_bound method counts background model flux position
    amplitude niter :
  (method = "root brentq" \/ method = "leastsq iter")%string ->
  fit_amplitude ext method counts background model flux position = Ok (amplitude, niter) ->
  (amplitude <? snd (_amplitude_bounds_cython ext counts background model)) = false.
Proof.
  intros [-> | ->] H; unfold fit_amplitude in H; cbn [String.eqb Ascii.eqb Bool.eqb] in H.
  - unfold _root_amplitude_brentq in H.
    destruct (_amplitude_bounds_cython ext counts background model) as [[lo hi] floor].
    cbn [snd]. destruct (negb _).
    + injection H as <- <-. apply ltb_irrefl.
    + destruct (brentq ext _ _ _ _ _) as [root it|e].
      * injection H as <- <-. apply py_max_not_below.
      * destruct e; try discriminate H; injection H as <- <-; apply IEEE.ltb_nan_l.
  - unfold _leastsq_iter_amplitude in H.
    destruct (_amplitude_bounds_cython ext counts background model) as [[lo hi] floor].
    cbn [snd]. destruct (negb _).
    + injection H as <- <-. apply ltb_irrefl.
    + apply leastsq_loop_floor in H. apply H.
Qed.

(** The iteration count of [_leastsq_iter_amplitude]: 0 for a slice
    without counts, the number of rounds up to convergence, and
    [MAX_NITER], not [maxiter], when the rounds run out; the amplitude is
    then the last estimate, not not-a-number. *)
Theorem leastsq_iterations counts background model maxiter rtol amplitude niter :
  _leastsq_iter_amplitude ext counts background model maxiter rtol = Ok (amplitude, niter) ->
  (0 <= maxiter)%Z ->
  (0 <= niter <= maxiter)%Z \/ niter = MAX_NITER.
Proof.
  intros H Hm. unfold _leastsq_iter_amplitude in H.
  destruct (_amplitude_bounds_cython ext counts background model) as [[lo hi] floor].
  destruct (negb _).
  - injection H as <- <-. left. lia.
  - apply leastsq_loop_floor in H. destruct H as [_ H].
    destruct H as [H | H]; [lia | left; lia | right; exact H].
Qed.

Hypothesis Hbrentq : brentq_raises_as_documented ext.

(** An amplitude that is not a number makes every derived value of the
    pixel not a number, for every method; the iteration count is kept. *)
Theorem nan_amplitude_propagates (h w : nat) method counts_ background_ model c_0
    flux position niter :
  (0 < h)%nat -> (0 < w)%nat ->
  rect h w counts_ -> rect h w background_ -> rect h w model ->
  fit_amplitude ext method counts_ background_ model flux position = Ok (nan, niter) ->
  ts_fit ext method counts_ background_ model c_0 flux position
  = Ok (TsDict {| d_ts := nan; d_flux := nan; d_niter := niter;
                  d_flux_err := nan; d_flux_err_profile := nan |}).
Proof.
  intros Hh Hw Rc Rb Rm Hfit. unfold ts_fit. rewrite Hfit. cbn [mbind result_bind].
  rewrite (f_cash_ok ext h w) by assumption. cbn [mbind result_bind].
  rewrite (_compute_amplitude_err_nan h w) by assumption. cbn [mbind result_bind].
  destruct (_compute_amplitude_err_profile_ok ext Hbrentq nan counts_ background_ model
              (_cash_sum_cython ext counts_
                 (zip_with (zip_with add) background_
                    (np_map (mul (nan * FLUX_FACTOR)) model)))) as (p & -> & Hp).
  rewrite (Hp eq_refl). cbn [mbind result_bind].
  change (np_sign nan) with nan. rewrite IEEE.mul_nan_r.
  reflexivity.
Qed.

End FitResults.

Lemma amplitude_not_below_bound_witness :
  exists amplitude niter,
    fit_amplitude Reference.ext "leastsq iter" [[5]] [[1]] [[1e12]] None (1, 1)%Z
    = Ok (amplitude, niter) /\
    (amplitude <? snd (_amplitude_bounds_cython Reference.ext [[5]] [[1]] [[1e12]])) = false.
Proof.
  assert (H : { p | fit_amplitude Reference.ext "leastsq iter" [[5]] [[1]] [[1e12]]
                                  None (1, 1)%Z = Ok (fst p, snd p) }).
  { eexists (_, _). vm_compute. reflexivity. }
  destruct H as [[amplitude niter] H]. exists amplitude, niter. split; [exact H|].
  exact (amplitude_not_below_bound Reference.ext _ _ _ _ _ _ _ _ (or_intror eq_refl) H).
Defined.

Lemma leastsq_iterations_witness :
  exists amplitude niter,
    _leastsq_iter_amplitude Reference.ext [[5]] [[1]] [[1e12]] MAX_NITER 0.001
    = Ok (amplitude, niter) /\
    ((0 <= niter <= MAX_NITER)%Z \/ niter = MAX_NITER).
Proof.
  assert (H : { p | _leastsq_iter_amplitude Reference.ext [[5]] [[1]] [[1e12]]
                                            MAX_NITER 0.001 = Ok (fst p, snd p) }).
  { eexists (_, _). vm_compute. reflexivity. }
  destruct H as [[amplitude niter] H]. exists amplitude, niter. split; [exact H|].
  apply (leastsq_iterations Reference.ext _ _ _ _ _ _ _ H). discriminate.
Defined.

Lemma nan_amplitude_propagates_witness :
  ts_fit Reference.ext "root brentq" [[3]] [[1]] [[1e12]] 0 None (2, 0)%Z
  = Ok (TsDict {| d_ts := nan; d_flux := nan; d_niter := MAX_NITER;
                  d_flux_err := nan; d_flux_err_profile := nan |}).
Proof.
  apply (nan_amplitude_propagates Reference.ext reference_brentq_documented 1 1);
    try (split; [reflexivity | repeat constructor]); try (cbn; lia).
  vm_compute. reflexivity.
Defined.

(* ===================================================================== *)
(** * The mask, twice *)
(* ===================================================================== *)

Section MaskAgain.

#[local] Open Scope nat_scope.

Lemma np_any_all_false (m : array2 bool) :
  (forall j i x, get2 m j i = Some x -> x = false) -> np_any m = false.
Proof.
  intros H. destruct (np_any m) eqn:E; [|reflexivity].
  unfold np_any in E. apply existsb_exists in E. destruct E as (r & Hr & E).
  apply existsb_exists in E. destruct E as (x & Hx & E). unfold id in E. subst x.
  apply list_elem_of_In, list_elem_of_lookup_1 in Hr. destruct Hr as [j Hj].
  apply list_elem_of_In, list_elem_of_lookup_1 in Hx. destruct Hx as [i Hi].
  assert (G : get2 m j i = Some true) by (unfold get2; rewrite Hj; exact Hi).
  apply H in G. discriminate G.
Qed.

Lemma corrected_exposure_clean (h w : nat) (e b : ndarray) :
  rect h w e -> rect h w b ->
  np_any (zip_with (zip_with andb) (np_map (fun x => x =? 0)%float b)
            (np_map (fun x => 0 <? x)%float (corrected_exposure e b))) = false.
Proof.
  intros Re Rb. apply np_any_all_false. intros j i x Hx.
  apply get2_zip_with_inv in Hx. destruct Hx as (p & q & Hp & Hq & ->).
  rewrite get2_np_map in Hp, Hq.
  destruct (get2 b j i) as [bj|] eqn:Hb; [|discriminate Hp].
  destruct (get2 (corrected_exposure e b) j i) as [cj|] eqn:Hc; [|discriminate Hq].
  cbn in Hp, Hq. injection Hp as <-. injection Hq as <-.
  destruct (get2_bounds _ _ _ _ _ _ Rb Hb) as [Hj Hi].
  destruct (get2_rect h w e j i Re Hj Hi) as [ej He].
  rewrite (corrected_exposure_get h w e b j i ej bj Re Rb He Hb) in Hc.
  injection Hc as <-.
  destruct (bj =? 0)%float eqn:E1; [|reflexivity]. cbn [andb].
  destruct (0 <? ej)%float eqn:E2; [reflexivity | exact E2].
Qed.

(** After one call of [_get_mask] the exposure array has no pixel left to
    correct: a second call returns the same mask, writes nothing and logs
    nothing. *)
Theorem _get_mask_twice s (exposure background : loc) (e b : ndarray) (h w : nat)
    mask s1 :
  heap s !! exposure = Some e -> heap s !! background = Some b ->
  exposure <> background ->
  rect h w e -> rect h w b ->
  _get_mask exposure background s = (Ok mask, s1) ->
  _get_mask exposure background s1 = (Ok mask, s1).
Proof.
  intros He Hb Hne Re Rb H1.
  pose proof (_get_mask_spec s exposure background e b h w He Hb Re Rb) as Hspec.
  cbv zeta in Hspec. rewrite Hspec in H1. clear Hspec.
  assert (Rc : rect h w (corrected_exposure e b)) by (apply rect_corrected; assumption).
  assert (He1 : heap s1 !! exposure = Some (corrected_exposure e b)).
  { destruct (np_any _) eqn:Ea; injection H1 as <- <-; cbn [heap].
    - apply list_lookup_insert_eq. eapply lookup_lt_Some; eauto.
    - rewrite (corrected_exposure_id h w e b Re Rb Ea). exact He. }
  assert (Hb1 : heap s1 !! background = Some b).
  { destruct (np_any _) eqn:Ea; injection H1 as <- <-; cbn [heap]; [|exact Hb].
    rewrite list_lookup_insert_ne by exact Hne. exact Hb. }
  assert (Hm : mask = np_map (fun x => 0 <? x)%float (corrected_exposure e b))
    by (destruct (np_any _); injection H1 as <- <-; reflexivity).
  pose proof (_get_mask_spec s1 exposure background _ b h w He1 Hb1 Rc Rb) as Hspec.
  cbv zeta in Hspec. rewrite (corrected_exposure_clean h w e b Re Rb) in Hspec.
  rewrite Hspec, Hm.
  rewrite (corrected_exposure_id h w (corrected_exposure e b) b Rc Rb
             (corrected_exposure_clean h w e b Re Rb)).
  reflexivity.
Qed.

End MaskAgain.

Lemma _get_mask_twice_witness :
  exists mask s1,
    _get_mask 2%nat 1%nat Example.start = (Ok mask, s1) /\
    warnings s1 = [mask_warning] /\
    _get_mask 2%nat 1%nat s1 = (Ok mask, s1).
Proof.
  assert (H : { p | _get_mask 2%nat 1%nat Example.start = (Ok (fst p), snd p) }).
  { eexists (_, _). vm_compute. reflexivity. }
  destruct H as [[mask s1] H]. exists mask, s1. split; [exact H|]. split.
  - vm_compute in H. injection H as _ <-. reflexivity.
  - apply (_get_mask_twice Example.start 2%nat 1%nat Example.exposure Example.background
             3 3 mask s1); try reflexivity; try exact H;
      try (split; [reflexivity | repeat constructor]).
    discriminate.
Defined.

(* ===================================================================== *)
(** * The multiscale driver stops at every scale *)
(* ===================================================================== *)

Section MultiscaleStops.

Context {psf_parameters : Type}.
Variable lib : library psf_parameters.

(** With at least one scale the driver never returns: the body of the loop
    reaches the unbound name [compute_ts_image], unless it has raised
    before. *)
Theorem multiscale_never_returns images psf scale scales downsample residual morphology
    width s :
  exists e s',
    compute_ts_image_multiscale lib images psf (scale :: scales) downsample residual
                                morphology width s
    = (Raise e, s').
Proof.
  apply not_ok_raises. intros res s' H.
  unfold compute_ts_image_multiscale in H. cbv zeta in H.
  apply bind_ok in H. destruct H as (ic & s1 & _ & H).
  apply bind_ok in H. destruct H as (data & s2 & _ & H).
  cbn [foldM] in H.
  apply bind_ok in H. destruct H as (r1 & s3 & H & _).
  unfold scale_step in H. cbv zeta in H.
  apply bind_ok in H. destruct H as ([images2 pw] & s4 & _ & H).
  apply bind_ok in H. destruct H as (k & s5 & _ & H).
  apply bind_ok in H. destruct H as (u & s6 & _ & H).
  apply bind_ok in H. destruct H as (f & s7 & H & _).
  apply lift_ok in H. destruct H as [H _]. discriminate H.
Qed.

(** Without residual mode, at a scale that is not down sampled, the call
    stops at the unbound name with the store as it was. *)
Theorem multiscale_plain_leaves_store images psf scale scales downsample morphology width
    s ic (c : ndarray) k :
  getitem images "counts" = Ok ic -> heap s !! sky_data ic = Some c ->
  downsampling_factor downsample scale (abs (sky_cdelt ic)) = 1%Z ->
  source_kernel lib psf scale (abs (sky_cdelt ic)) 1 morphology width = Ok k ->
  compute_ts_image_multiscale lib images psf (scale :: scales) downsample false
                              morphology width s
  = (Raise (NameError "compute_ts_image"), s).
Proof.
  intros Hic Hc Hf Hk.
  unfold compute_ts_image_multiscale. rewrite Hic, bind_lift.
  rewrite (bind_eq _ _ _ _ _ (load_eq _ _ _ Hc)). cbv zeta.
  cbn [foldM]. apply bind_raise.
  unfold scale_step. cbv zeta. rewrite Hf.
  change (negb (1 =? 1)%Z) with false. cbn [andb]. rewrite float_of_int_one.
  destruct (zip_names_funcs (names images)) as [Hfst Hsub].
  destruct (resample_aliases lib images (nrows c, ncols c) 1 (zip (names images) funcs)
              empty_list None s Hsub) as (images2 & Hloop & _ & _).
  rewrite (bind_eq _ _ _ _ _ Hloop). cbv beta iota.
  rewrite Hk, bind_lift, bind_mret. reflexivity.
Qed.

(** Only the first five images of the list are carried over, one for each
    entry of [funcs]: a model image further down the list is not found in
    residual mode, and the call raises [KeyError] before it changes any
    array. *)
Theorem multiscale_carries_five_images images psf scale scales downsample morphology width
    s ic ib (c : ndarray) k :
  getitem images "counts" = Ok ic -> heap s !! sky_data ic = Some c ->
  getitem images "background" = Ok ib ->
  In "background"%string (take 5 (names images)) ->
  ~ In "model"%string (take 5 (names images)) ->
  downsampling_factor downsample scale (abs (sky_cdelt ic)) = 1%Z ->
  source_kernel lib psf scale (abs (sky_cdelt ic)) 1 morphology width = Ok k ->
  compute_ts_image_multiscale lib images psf (scale :: scales) downsample true
                              morphology width s
  = (Raise (KeyError "model"), s).
Proof.
  intros Hic Hc Hib Hnb Hnm Hf Hk.
  unfold compute_ts_image_multiscale. rewrite Hic, bind_lift.
  rewrite (bind_eq _ _ _ _ _ (load_eq _ _ _ Hc)). cbv zeta.
  cbn [foldM]. apply bind_raise.
  unfold scale_step. cbv zeta. rewrite Hf.
  change (negb (1 =? 1)%Z) with false. cbn [andb]. rewrite float_of_int_one.
  destruct (zip_names_funcs (names images)) as [Hfst Hsub].
  destruct (resample_aliases lib images (nrows c, ncols c) 1 (zip (names images) funcs)
              empty_list None s Hsub) as (images2 & Hloop & Hnew & Hold).
  rewrite Hfst in Hnew, Hold.
  rewrite (bind_eq _ _ _ _ _ Hloop). cbv beta iota.
  rewrite Hk, bind_lift, bind_assoc.
  rewrite (Hnew _ Hnb), Hib, bind_lift.
  rewrite bind_assoc, (Hold _ Hnm). reflexivity.
Qed.

End MultiscaleStops.

Lemma multiscale_plain_leaves_store_witness :
  compute_ts_image_multiscale MultiscaleExample.lib MultiscaleExample.images tt
                              [0; 0.1] None false "Gaussian2D" None MultiscaleExample.start
  = (Raise (NameError "compute_ts_image"), MultiscaleExample.start).
Proof.
  apply (multiscale_plain_leaves_store MultiscaleExample.lib MultiscaleExample.images
           tt 0 [0.1] None "Gaussian2D" None MultiscaleExample.start
           {| sky_data := 0%nat; sky_cdelt := 0.01 |} Example.counts Example.point_kernel);
    reflexivity.
Defined.

(** Six images, the model last. *)
Definition six_images : SkyImageList :=
  {| sky_images := [("counts", {| sky_data := 0%nat; sky_cdelt := 0.01 |});
                    ("background", {| sky_data := 1%nat; sky_cdelt := 0.01 |});
                    ("exposure", {| sky_data := 2%nat; sky_cdelt := 0.01 |});
                    ("psf", {| sky_data := 2%nat; sky_cdelt := 0.01 |});
                    ("excess", {| sky_data := 0%nat; sky_cdelt := 0.01 |});
                    ("model", {| sky_data := 3%nat; sky_cdelt := 0.01 |})]%string;
     sky_meta := [] |}.

Lemma multiscale_carries_five_images_witness :
  compute_ts_image_multiscale MultiscaleExample.lib six_images tt
                              [0] None true "Gaussian2D" None MultiscaleExample.start
  = (Raise (KeyError "model"), MultiscaleExample.start).
Proof.
  apply (multiscale_carries_five_images MultiscaleExample.lib six_images
           tt 0 [] None "Gaussian2D" None MultiscaleExample.start
           {| sky_data := 0%nat; sky_cdelt := 0.01 |}
           {| sky_data := 1%nat; sky_cdelt := 0.01 |}
           Example.counts Example.point_kernel);
    try reflexivity.
  - right. left. reflexivity.
  - cbn. intros H. repeat (destruct H as [H | H]; [discriminate H|]). exact H.
Defined.

(* ===================================================================== *)
(** * Pixels that are not candidates *)
(* ===================================================================== *)

Section SmallImage.

#[local] Open Scope Z_scope.

(** An image that the kernel does not fit into has no candidate pixel. *)
Theorem _get_positions_small_image (self : TSImageEstimator) (mask : array2 bool)
    (h w : nat) :
  rect h w mask ->
  Z.of_nat h <= 2 * floordiv2 (fst (kernel_shape (kernel self))) \/
  Z.of_nat w <= 2 * floordiv2 (snd (kernel_shape (kernel self))) ->
  _get_positions self mask = [].
Proof.
  intros Rm Hsmall.
  destruct (_get_positions self mask) as [|p ps] eqn:E; [reflexivity|].
  assert (Hin : In p (_get_positions self mask)) by (rewrite E; left; reflexivity).
  apply (positions_spec self mask h w p Rm) in Hin. lia.
Qed.

End SmallImage.

Lemma _get_positions_small_image_witness :
  _get_positions {| kernel := {| kernel_array := np_full 5 5 1 |}; downsample := None;
                    method := "root brentq"; parallel := true; threshold := None |}
                 (np_full 3 3 true) = [].
Proof.
  apply (_get_positions_small_image _ _ 3 3).
  - apply rect_np_full.
  - left. vm_compute. discriminate.
Defined.

(** Steps of a run on a store of the form [h ++ L]. *)
Ltac step_load k :=
  match goal with
  | |- context [{| heap := ?h ++ ?L; warnings := ?w |}] =>
      rewrite (bind_eq _ _ _ _ _ (load_new h L w k _ eq_refl))
  end.

Ltac norm_insert :=
  match goal with
  | |- context [<[?k := ?v]> ?L] =>
      let L' := eval cbn in (<[k := v]> L) in change (<[k := v]> L) with L'
  end.

Ltac step_gather name field k Hassign :=
  match goal with
  | |- context [mbind _ (gather ?wrap ?ps (ResList (map TsDict ?ds)) ?R ?j ?i ?cons name)
                      {| heap := ?h ++ ?L; warnings := ?w |}] =>
      rewrite (bind_eq _ _ _ _ _
                 (gather_new wrap ps (map TsDict ds) R j i cons name _ h L w k _ _ _
                    (mapR_getitem name field ds (fun d => eq_refl))
                    eq_refl eq_refl eq_refl Hassign));
      norm_insert
  end.

Section OutsideCandidates.

#[local] Open Scope nat_scope.

Variable ext : externals.
Hypothesis Hbrentq : brentq_raises_as_documented ext.

Lemma fancy_assign_keeps (h w : nat) (a : ndarray) ps vs :
  rect h w a -> NoDup ps ->
  Forall (fun p => (0 <= fst p < Z.of_nat h)%Z /\ (0 <= snd p < Z.of_nat w)%Z) ps ->
  length vs = length ps ->
  exists a', fancy_assign a (map fst ps) (map snd ps) vs = Ok a' /\
    (forall j i, ~ In (Z.of_nat j, Z.of_nat i) ps -> get2 a' j i = get2 a j i).
Proof.
  intros Ra Hnd Hin Hlen.
  destruct (assign_each_spec h w ps a vs Ra Hnd Hin Hlen) as (a' & Ha' & _ & _ & Hk).
  exists a'. split; [|exact Hk].
  unfold fancy_assign. rewrite length_map, Hlen, Nat.eqb_refl, zip_fst_snd. exact Ha'.
Qed.

(** After a run with ['root brentq'] (no threshold, results gathered in a
    list), every pixel that is not a candidate (on the border, or without
    exposure) is not-a-number in all six images. *)
Theorem run_outside_candidates py self images s ic ib ie (c b e : ndarray) (h w k : nat) :
  method self = "root brentq"%string -> threshold self = None ->
  (parallel self = true \/ py = Python2) ->
  rect (2 * k + 1) (2 * k + 1) (kernel_array (kernel self)) ->
  getitem images "counts" = Ok ic -> getitem images "background" = Ok ib ->
  getitem images "exposure" = Ok ie ->
  heap s !! sky_data ic = Some c -> heap s !! sky_data ib = Some b ->
  heap s !! sky_data ie = Some e ->
  rect h w c -> rect h w b -> rect h w e ->
  let exposure' := corrected_exposure e b in
  let positions := _get_positions self (np_map (fun x => 0 <? x)%float exposure') in
  positions <> [] ->
  exists res s',
    run ext py self images None s = (Ok res, s') /\
    forall (j i : nat) name,
      j < h -> i < w -> ~ In (Z.of_nat j, Z.of_nat i) positions ->
      In name all_images ->
      pixel_value res s' name (Z.of_nat j, Z.of_nat i) = Some nan.
Proof.
  intros Hm Ht Hp Rk Hic Hib Hie Hc Hb He Rc Rb Re exposure' positions Hne.
  destruct s as [h0 ws]. cbn [heap] in Hc, Hb, He.
  assert (Hs : {| heap := h0; warnings := ws |} = {| heap := h0 ++ []; warnings := ws |})
    by (rewrite app_nil_r; reflexivity).
  rewrite Hs. clear Hs.
  unfold run. cbv zeta.
  rewrite (check_required_ok _ _ _ _ Hic Hib Hie), bind_lift.
  change (which_list None) with all_images.
  rewrite (bind_eq _ _ _ _ _ (new_images _ _ _ _ _ Hic Hc)).
  remember (np_full (nrows c) (ncols c) nan) as F eqn:HF.
  rewrite (bind_eq _ _ _ _ _
             (_parse_image_data_new _ _ _ _ _ _ _ _ _ _ h w Hic Hib Hie Hc Hb He Rc Rb Re)).
  cbn [app length Nat.add].
  step_load 6. step_load 7.
  destruct (_get_mask_new h0 [F; F; F; F; F; F; c; b; e] ws 8 7 e b h w
              eq_refl eq_refl Re Rb) as [ws' Hmask].
  rewrite (bind_eq _ _ _ _ _ Hmask). clear Hmask.
  change (<[8 := corrected_exposure e b]> [F; F; F; F; F; F; c; b; e])
    with [F; F; F; F; F; F; c; b; exposure'].
  fold exposure'. fold positions.
  rewrite Hm, Ht.
  change ("root brentq" =? "root newton")%string with false. cbv iota.
  rewrite bind_mret.
  step_load 8.
  set (wrap := fun position : Z * Z =>
                 _ts_value ext position c exposure' b (_cash_cython ext c b)
                           (kernel self) None "root brentq" None).
  assert (Re' : rect h w exposure') by (apply rect_corrected; assumption).
  assert (Rm : rect h w (np_map (fun x => (0 <? x)%float) exposure'))
    by (apply rect_np_map; exact Re').
  destruct (mapR_dicts wrap positions) as (ds & Hds & Hf2).
  { intros p Hin.
    destruct (candidate_bounds self _ h w k p Rk Rm Hin) as (H1 & H2 & H3 & H4).
    destruct (_ts_value_brentq ext Hbrentq h w k (kernel self) c exposure' b
                (_cash_cython ext c b) p Rk Rc Re' Rb H1 H2 H3 H4) as (d & Hd & _).
    eauto. }
  match goal with
  | |- context [if parallel self then ?x else ?y] =>
      assert (Hres : forall st, (if parallel self then x else y) st
                                = (Ok (ResList (map TsDict ds)), st))
  end.
  { intros st. destruct Hp as [-> | ->]; [|destruct (parallel self)];
      rewrite Hds; reflexivity. }
  rewrite (bind_eq _ _ _ _ _ (Hres _)). clear Hres.
  rewrite (unzip_positions_nonempty positions Hne), bind_lift. cbv beta iota.
  assert (Hnd : NoDup positions) by (apply sorted_NoDup, positions_sorted).
  assert (Hin : Forall (fun p => (0 <= fst p < Z.of_nat h)%Z /\ (0 <= snd p < Z.of_nat w)%Z)
                       positions).
  { apply Forall_forall. intros p Hp'. apply list_elem_of_In in Hp'.
    destruct (candidate_bounds self _ h w k p Rk Rm Hp') as (H1 & H2 & H3 & H4). lia. }
  assert (Hh : h <> 0).
  { destruct positions as [|p ps] eqn:E; [congruence|].
    apply Forall_cons in Hin. lia. }
  assert (RF : rect h w F).
  { subst F. replace (nrows c) with h by (symmetry; apply Rc).
    rewrite (rect_ncols h w c Rc Hh). apply rect_np_full. }
  assert (HFnan : forall j i, j < h -> i < w -> get2 F j i = Some nan).
  { intros j i Hj Hi. subst F. replace (nrows c) with h by (symmetry; apply Rc).
    rewrite (rect_ncols h w c Rc Hh). apply get2_np_full; assumption. }
  assert (Hlen : forall field : ts_dict -> float,
            length (map field ds) = length positions).
  { intros field. rewrite length_map. symmetry. eapply Forall2_length; eauto. }
  destruct (fancy_assign_keeps h w F positions (map d_ts ds) RF Hnd Hin (Hlen _))
    as (a_ts & Hts & Kts).
  destruct (fancy_assign_keeps h w F positions (map d_flux ds) RF Hnd Hin (Hlen _))
    as (a_flux & Hflux & Kflux).
  destruct (fancy_assign_keeps h w F positions (map d_flux_err ds) RF Hnd Hin (Hlen _))
    as (a_err & Herr & Kerr).
  destruct (fancy_assign_keeps h w F positions (map d_flux_err_profile ds) RF Hnd Hin (Hlen _))
    as (a_prof & Hprof & Kprof).
  destruct (fancy_assign_keeps h w F positions
              (map (fun d => float_of_int (d_niter d)) ds) RF Hnd Hin (Hlen _))
    as (a_niter & Hniter & Kniter).
  cbn [foldM gathered_images].
  rewrite bind_assoc.
  step_gather "ts"%string d_ts 0 Hts.
  rewrite bind_assoc. step_gather "flux"%string d_flux 2 Hflux.
  rewrite bind_assoc. step_gather "flux_err"%string d_flux_err 3 Herr.
  rewrite bind_assoc. step_gather "flux_err_profile"%string d_flux_err_profile 4 Hprof.
  rewrite bind_assoc.
  step_gather "niter"%string (fun d => float_of_int (d_niter d)) 5 Hniter.
  rewrite bind_mret.
  change (existsb (String.eqb "sqrt_ts") all_images) with true. cbv iota.
  rewrite bind_assoc.
  change (getitem (new_result (length h0) (sky_cdelt ic)) "ts")
    with (Ok {| sky_data := length h0 + 0; sky_cdelt := sky_cdelt ic |}).
  rewrite bind_lift, bind_assoc. cbn [sky_data]. step_load 0.
  rewrite bind_assoc.
  change (getitem (new_result (length h0) (sky_cdelt ic)) "sqrt_ts")
    with (Ok {| sky_data := length h0 + 1; sky_cdelt := sky_cdelt ic |}).
  rewrite bind_lift, bind_assoc.
  rewrite (bind_eq _ _ _ _ _ (alloc_new _ _ _ _)).
  cbn [app length Nat.add]. rewrite !bind_mret.
  eexists _, _. split; [reflexivity|].
  intros j i name Hj Hi Hout Hname.
  assert (Hpix : forall a, (forall j i, ~ In (Z.of_nat j, Z.of_nat i) positions ->
                                        get2 a j i = get2 F j i) ->
                           get2 a j i = Some nan).
  { intros a Ka. rewrite Ka by exact Hout. apply HFnan; assumption. }
  cbn [all_images In] in Hname.
  destruct Hname as [<- | [<- | [<- | [<- | [<- | [<- | []]]]]]];
    (erewrite pixel_value_at;
     [ | reflexivity | cbn [heap sky_data]; rewrite lookup_new; reflexivity ]);
    cbn [fst snd]; rewrite !Nat2Z.id; try (apply Hpix; assumption).
  unfold sqrt_ts_image. rewrite get2_np_map, (Hpix a_ts Kts). reflexivity.
Qed.

End OutsideCandidates.

Lemma run_outside_candidates_witness :
  exists res s',
    run Reference.ext Python3 (Example.estimator "root brentq" true None)
        Reference.images_of None Example.start = (Ok res, s') /\
    pixel_value res s' "ts" (1, 2)%Z = Some nan /\
    pixel_value res s' "sqrt_ts" (2, 1)%Z = Some nan.
Proof.
  destruct (run_outside_candidates Reference.ext reference_brentq_documented Python3
              (Example.estimator "root brentq" true None) Reference.images_of
              Example.start
              {| sky_data := 0%nat; sky_cdelt := 0.01 |}
              {| sky_data := 1%nat; sky_cdelt := 0.01 |}
              {| sky_data := 2%nat; sky_cdelt := 0.01 |}
              Example.counts Example.background Example.exposure 3 3 0
              eq_refl eq_refl (or_introl eq_refl))
    as (res & s' & Hrun & Hpix);
    try reflexivity; try (split; [reflexivity | repeat constructor]).
  - vm_compute. discriminate.
  - exists res, s'. split; [exact Hrun|]. split.
    + apply (Hpix 1%nat 2%nat "ts"%string); try lia.
      * vm_compute. intros H. repeat (destruct H as [H | H]; [discriminate H|]). exact H.
      * left. reflexivity.
    + apply (Hpix 2%nat 1%nat "sqrt_ts"%string); try lia.
      * vm_compute. intros H. repeat (destruct H as [H | H]; [discriminate H|]). exact H.
      * right. left. reflexivity.
Defined.

(* ===================================================================== *)
(** * What a run with ['root brentq'] records at each candidate pixel *)
(* ===================================================================== *)




Section PixelRecord.

#[local] Open Scope nat_scope.

Variable ext : externals.
Hypothesis Hbrentq : brentq_raises_as_documented ext.







End PixelRecord.

Section ResultImages.

#[local] Open Scope nat_scope.





End ResultImages.

Section RunRecords.

#[local] Open Scope nat_scope.

Variable ext : externals.
Hypothesis Hbrentq : brentq_raises_as_documented ext.



End RunRecords.


